(** * nandwrite: writing an image to a NAND flash device

    A shallow embedding of [src/nandwrite.c] (the [nandwrite_main] entry of
    ofgwrite) and the properties of its write loop: block alignment, bad block
    skipping, page staging, write-failure recovery and the final report.

    Conventions of the embedding.
    - [int] and [long long] values are integers of [Z]; every arithmetic
      operation of the source that can leave the type is wrapped with
      [wrap_int] or [wrap_ll] (two's complement).  [/] and [%] of C are
      [Z.quot] and [Z.rem]; a division by zero ends the run with [Crash].
    - Pointers are addresses in [Z], [NULL] is [0].  The allocation returned
      by [xmalloc] is the address [filebuf] together with the byte list [mem]
      of length [filebuf_max]; an access outside of it ends the run with
      [Crash].  [size_t] differences are reduced with [to_size_t].
    - The functions of libmtd, [read], [ioctl] and the message printers are
      not part of the source file.  The device is an oracle answering each
      call from the history of events so far; the input is the list of the
      results of the successive [read] calls; everything the program prints
      or asks of the device is appended to the [trace].
    - Loops whose number of iterations is not bounded by their text take a
      [fuel]; running out of it is the outcome [Fuel] / [OutOfFuel]. *)

From Stdlib Require Import ZArith List Bool Lia String.
From Stdlib Require Import Strings.Byte.
Import ListNotations.
Local Open Scope list_scope.
Local Open Scope Z_scope.

(* [String] shadows the [length] of lists. *)
Local Abbreviation length := List.length (only parsing).

(** ** C integers *)

Definition wrap (w z : Z) : Z := (z + 2 ^ (w - 1)) mod 2 ^ w - 2 ^ (w - 1).
Definition wrap_int (z : Z) : Z := wrap 32 z.
Definition wrap_ll (z : Z) : Z := wrap 64 z.
Definition to_size_t (z : Z) : Z := z mod 2 ^ 64.

Definition EXIT_SUCCESS : Z := 0.
Definition EXIT_FAILURE : Z := 1.
Definition STDIN_FILENO : Z := 0.
Definition EIO : Z := 5.
Definition ENOTTY : Z := 25.
Definition NULL : Z := 0.

Definition MTD_OPS_PLACE_OOB : Z := 0.
Definition MTD_OPS_AUTO_OOB : Z := 1.
Definition MTD_OPS_RAW : Z := 2.

Definition kEraseByte : byte := Byte.xff.

(** ** Device geometry, options, events *)

(** The fields of [struct mtd_dev_info] the program reads. *)
Record mtd_dev_info := {
  size : Z;
  eb_size : Z;
  min_io_size : Z;
  oob_size : Z
}.

(** The file-scope variables set by [process_options]. *)
Record options := {
  o_mtdoffset : Z;
  inputskip : Z;
  inputsize : Z;
  quiet : bool;
  writeoob : bool;
  onlyoob : bool;
  markbad : bool;
  noecc : bool;
  autoplace : bool;
  noskipbad : bool;
  pad : bool;
  blockalign : Z
}.

Inductive io_result :=
| IoOk
| IoErr (errno : Z).

Inductive message :=
| MsgDeviceOpen
| MsgLibmtd
| MsgDevInfo
| MsgStartNotPageAligned
| MsgFileMode (errno : Z)
| MsgImageOpen
| MsgStdinSeek
| MsgStat
| MsgLseek
| MsgInputNotPageAligned
| MsgDoesNotFit
| MsgWritingBlock (blk off : Z)
| MsgIsBadFailed
| MsgBadBlock (offs ba bs : Z)
| MsgTooManyBad
| MsgReadError
| MsgUnexpectedEof (missing : Z)
| MsgUnexpectedEofOob (missing : Z)
| MsgWriteFailure
| MsgErasingFailedWrite (from to : Z)
| MsgEraseFailure
| MsgMarkingBad (addr : Z)
| MsgMarkBadFailure
| MsgPartiallyWritten.

Inductive event :=
| EvMsg (m : message)
| EvFileMode (r : io_result)
| EvIsBad (eb ret : Z)
| EvWrite (eb offs : Z) (data oob : option (list byte)) (mode : Z) (r : io_result)
| EvErase (eb : Z) (r : io_result)
| EvMarkBad (eb : Z) (r : io_result)
| EvProgress (percent : Z).

(** The flash device behind libmtd: each call is answered from the events so
    far and the arguments of the call. *)
Record flash_device := {
  ioctl_filemode : list event -> io_result;
  mtd_is_bad : list event -> Z -> Z;
  mtd_write : list event -> Z -> Z -> option (list byte) -> option (list byte) -> Z -> io_result;
  mtd_erase : list event -> Z -> io_result;
  mtd_mark_bad : list event -> Z -> io_result
}.

(** One result of [read]: some bytes (none at end of input) or an error. *)
Inductive read_ret :=
| RdData (bs : list byte)
| RdErr.

Record input_file := {
  st_size : option Z;     (* fstat: [None] when it fails *)
  seekable : bool;        (* whether lseek succeeds *)
  contents : list read_ret
}.

(** What the program finds outside of itself. *)
Record env := {
  device_opens : bool;
  libmtd_opens : bool;
  dev_info : option mtd_dev_info;
  device : flash_device;
  stdin : list read_ret;
  image : option input_file;   (* [open(img, O_RDONLY)], [None] when it fails *)
  heap : Z;                    (* the address xmalloc returns *)
  uninit_ofg_imglen : Z;       (* indeterminate value of the local [ofg_imglen] *)
  uninit_cnt : Z               (* indeterminate value of the local [cnt] of the OOB fill *)
}.

(** ** process_options *)

Inductive parsed_option :=
| opt_version
| opt_input_skip (v : Z) (ok : bool)
| opt_input_size (v : Z) (ok : bool)
| opt_q | opt_n | opt_N | opt_m | opt_o | opt_O | opt_p
| opt_s (v : Z) (ok : bool)
| opt_b (v : Z)
| opt_a
| opt_h
| opt_unknown.

Inductive outcome :=
| Exited (status : Z)
| Died
| Returned (ret : Z)
| Crashed
| OutOfFuel.

Definition initial_options : options :=
  {| o_mtdoffset := 0; inputskip := 0; inputsize := 0; quiet := false;
     writeoob := false; onlyoob := false; markbad := false; noecc := false;
     autoplace := false; noskipbad := false; pad := false; blockalign := 1 |}.

Definition set_o_mtdoffset (v : Z) (o : options) : options :=
  {| o_mtdoffset := v; inputskip := inputskip o; inputsize := inputsize o;
     quiet := quiet o; writeoob := writeoob o; onlyoob := onlyoob o;
     markbad := markbad o; noecc := noecc o; autoplace := autoplace o;
     noskipbad := noskipbad o; pad := pad o; blockalign := blockalign o |}.

Definition err_of (ok : bool) : Z := if ok then 0 else 1.

(** One turn of the [switch (c)] of the option loop: the new variables and
    error count, or the exit status of [display_version] / [display_help]. *)
Definition option_case (c : parsed_option) (o : options) (error : Z)
  : (options * Z) + Z :=
  let upd o' := inl (o', error) in
  match c with
  | opt_version => inr EXIT_SUCCESS
  | opt_input_skip v ok =>
      inl ({| o_mtdoffset := o_mtdoffset o; inputskip := v; inputsize := inputsize o;
              quiet := quiet o; writeoob := writeoob o; onlyoob := onlyoob o;
              markbad := markbad o; noecc := noecc o; autoplace := autoplace o;
              noskipbad := noskipbad o; pad := pad o; blockalign := blockalign o |},
           error + err_of ok)
  | opt_input_size v ok =>
      inl ({| o_mtdoffset := o_mtdoffset o; inputskip := inputskip o; inputsize := v;
              quiet := quiet o; writeoob := writeoob o; onlyoob := onlyoob o;
              markbad := markbad o; noecc := noecc o; autoplace := autoplace o;
              noskipbad := noskipbad o; pad := pad o; blockalign := blockalign o |},
           error + err_of ok)
  | opt_q =>
      upd {| o_mtdoffset := o_mtdoffset o; inputskip := inputskip o; inputsize := inputsize o;
             quiet := true; writeoob := writeoob o; onlyoob := onlyoob o;
             markbad := markbad o; noecc := noecc o; autoplace := autoplace o;
             noskipbad := noskipbad o; pad := pad o; blockalign := blockalign o |}
  | opt_n =>
      upd {| o_mtdoffset := o_mtdoffset o; inputskip := inputskip o; inputsize := inputsize o;
             quiet := quiet o; writeoob := writeoob o; onlyoob := onlyoob o;
             markbad := markbad o; noecc := true; autoplace := autoplace o;
             noskipbad := noskipbad o; pad := pad o; blockalign := blockalign o |}
  | opt_N =>
      upd {| o_mtdoffset := o_mtdoffset o; inputskip := inputskip o; inputsize := inputsize o;
             quiet := quiet o; writeoob := writeoob o; onlyoob := onlyoob o;
             markbad := markbad o; noecc := noecc o; autoplace := autoplace o;
             noskipbad := true; pad := pad o; blockalign := blockalign o |}
  | opt_m =>
      upd {| o_mtdoffset := o_mtdoffset o; inputskip := inputskip o; inputsize := inputsize o;
             quiet := quiet o; writeoob := writeoob o; onlyoob := onlyoob o;
             markbad := true; noecc := noecc o; autoplace := autoplace o;
             noskipbad := noskipbad o; pad := pad o; blockalign := blockalign o |}
  | opt_o =>
      upd {| o_mtdoffset := o_mtdoffset o; inputskip := inputskip o; inputsize := inputsize o;
             quiet := quiet o; writeoob := true; onlyoob := onlyoob o;
             markbad := markbad o; noecc := noecc o; autoplace := autoplace o;
             noskipbad := noskipbad o; pad := pad o; blockalign := blockalign o |}
  | opt_O =>
      upd {| o_mtdoffset := o_mtdoffset o; inputskip := inputskip o; inputsize := inputsize o;
             quiet := quiet o; writeoob := true; onlyoob := true;
             markbad := markbad o; noecc := noecc o; autoplace := autoplace o;
             noskipbad := noskipbad o; pad := pad o; blockalign := blockalign o |}
  | opt_p =>
      upd {| o_mtdoffset := o_mtdoffset o; inputskip := inputskip o; inputsize := inputsize o;
             quiet := quiet o; writeoob := writeoob o; onlyoob := onlyoob o;
             markbad := markbad o; noecc := noecc o; autoplace := autoplace o;
             noskipbad := noskipbad o; pad := true; blockalign := blockalign o |}
  | opt_s v ok => inl (set_o_mtdoffset v o, error + err_of ok)
  | opt_b v =>
      upd {| o_mtdoffset := o_mtdoffset o; inputskip := inputskip o; inputsize := inputsize o;
             quiet := quiet o; writeoob := writeoob o; onlyoob := onlyoob o;
             markbad := markbad o; noecc := noecc o; autoplace := autoplace o;
             noskipbad := noskipbad o; pad := pad o; blockalign := wrap_int v |}
  | opt_a =>
      upd {| o_mtdoffset := o_mtdoffset o; inputskip := inputskip o; inputsize := inputsize o;
             quiet := quiet o; writeoob := writeoob o; onlyoob := onlyoob o;
             markbad := markbad o; noecc := noecc o; autoplace := true;
             noskipbad := noskipbad o; pad := pad o; blockalign := blockalign o |}
  | opt_h => inr EXIT_SUCCESS
  | opt_unknown => inl (o, error + 1)
  end.

(** The [for (;;)] loop over [getopt_long]. *)
Fixpoint option_loop (args : list parsed_option) (o : options) (error : Z)
  : (options * Z) + Z :=
  match args with
  | [] => inl (o, error)
  | c :: rest =>
      match option_case c o error with
      | inl (o', error') => option_loop rest o' error'
      | inr status => inr status
      end
  end.

(** [process_options]: [o] holds the file-scope variables as the previous
    call left them, [args] the options in order, [positional] the remaining
    arguments.  On success: the variables, [mtd_device] and [img]. *)
Definition process_options (o : options) (args : list parsed_option)
    (positional : list string) : (options * string * string) + outcome :=
  match option_loop args (set_o_mtdoffset 0 o) 0 with
  | inr status => inr (Exited status)
  | inl (o, error) =>
      if o_mtdoffset o <? 0 then inr Died
      else if blockalign o <? 0 then inr Died
      else if autoplace o && noecc o then inr Died
      else if negb (onlyoob o) && (pad o && writeoob o) then inr Died
      else
        match positional with
        | [d] => if error =? 0 then inl (o, d, "-"%string) else inr (Exited EXIT_FAILURE)
        | [d; i] => if error =? 0 then inl (o, d, i) else inr (Exited EXIT_FAILURE)
        | _ => inr (Exited EXIT_FAILURE)
        end
  end.

(** ** The state of the write loop *)

(** The locals of [nandwrite_main] (and the variable [mtdoffset]) that change
    while the loop runs, the bytes of the staging buffer, the rest of the
    input and the events so far. *)
Record state := {
  mtdoffset : Z;
  imglen : Z;
  baderaseblock : bool;
  blockstart : Z;
  filebuf_len : Z;
  writebuf : Z;
  oobbuf : Z;
  mem : list byte;
  input : list read_ret;
  trace : list event
}.

(** What is fixed once the loop starts. *)
Record frame := {
  mtd : mtd_dev_info;
  opts : options;
  dev : flash_device;
  ifd : Z;
  pagelen : Z;
  ebsize_aligned : Z;
  write_mode : Z;
  ofg_imglen : Z;
  filebuf : Z;
  filebuf_max : Z;
  cnt_garbage : Z
}.

Definition set_mtdoffset (v : Z) (st : state) : state :=
  {| mtdoffset := v; imglen := imglen st; baderaseblock := baderaseblock st;
     blockstart := blockstart st; filebuf_len := filebuf_len st;
     writebuf := writebuf st; oobbuf := oobbuf st; mem := mem st;
     input := input st; trace := trace st |}.

Definition set_imglen (v : Z) (st : state) : state :=
  {| mtdoffset := mtdoffset st; imglen := v; baderaseblock := baderaseblock st;
     blockstart := blockstart st; filebuf_len := filebuf_len st;
     writebuf := writebuf st; oobbuf := oobbuf st; mem := mem st;
     input := input st; trace := trace st |}.

Definition set_baderaseblock (v : bool) (st : state) : state :=
  {| mtdoffset := mtdoffset st; imglen := imglen st; baderaseblock := v;
     blockstart := blockstart st; filebuf_len := filebuf_len st;
     writebuf := writebuf st; oobbuf := oobbuf st; mem := mem st;
     input := input st; trace := trace st |}.

Definition set_blockstart (v : Z) (st : state) : state :=
  {| mtdoffset := mtdoffset st; imglen := imglen st; baderaseblock := baderaseblock st;
     blockstart := v; filebuf_len := filebuf_len st;
     writebuf := writebuf st; oobbuf := oobbuf st; mem := mem st;
     input := input st; trace := trace st |}.

Definition set_filebuf_len (v : Z) (st : state) : state :=
  {| mtdoffset := mtdoffset st; imglen := imglen st; baderaseblock := baderaseblock st;
     blockstart := blockstart st; filebuf_len := v;
     writebuf := writebuf st; oobbuf := oobbuf st; mem := mem st;
     input := input st; trace := trace st |}.

Definition set_writebuf (v : Z) (st : state) : state :=
  {| mtdoffset := mtdoffset st; imglen := imglen st; baderaseblock := baderaseblock st;
     blockstart := blockstart st; filebuf_len := filebuf_len st;
     writebuf := v; oobbuf := oobbuf st; mem := mem st;
     input := input st; trace := trace st |}.

Definition set_oobbuf (v : Z) (st : state) : state :=
  {| mtdoffset := mtdoffset st; imglen := imglen st; baderaseblock := baderaseblock st;
     blockstart := blockstart st; filebuf_len := filebuf_len st;
     writebuf := writebuf st; oobbuf := v; mem := mem st;
     input := input st; trace := trace st |}.

Definition set_mem (v : list byte) (st : state) : state :=
  {| mtdoffset := mtdoffset st; imglen := imglen st; baderaseblock := baderaseblock st;
     blockstart := blockstart st; filebuf_len := filebuf_len st;
     writebuf := writebuf st; oobbuf := oobbuf st; mem := v;
     input := input st; trace := trace st |}.

Definition set_input (v : list read_ret) (st : state) : state :=
  {| mtdoffset := mtdoffset st; imglen := imglen st; baderaseblock := baderaseblock st;
     blockstart := blockstart st; filebuf_len := filebuf_len st;
     writebuf := writebuf st; oobbuf := oobbuf st; mem := mem st;
     input := v; trace := trace st |}.

Definition set_trace (v : list event) (st : state) : state :=
  {| mtdoffset := mtdoffset st; imglen := imglen st; baderaseblock := baderaseblock st;
     blockstart := blockstart st; filebuf_len := filebuf_len st;
     writebuf := writebuf st; oobbuf := oobbuf st; mem := mem st;
     input := input st; trace := v |}.

Definition log (e : event) (st : state) : state :=
  set_trace (trace st ++ [e]) st.

(** How a piece of the loop body ends: it falls through to the next
    statement with a value, or leaves by [continue], [break],
    [goto closeall], undefined behaviour, or lack of fuel. *)
Inductive fault :=
| DivisionByZero
| OutOfBounds.

Inductive flow (A : Type) :=
| Next (a : A)
| Continue (st : state)
| Break (st : state)
| Closeall (st : state)
| Crash (why : fault) (st : state)
| Fuel (st : state).

Arguments Next {A} a.
Arguments Continue {A} st.
Arguments Break {A} st.
Arguments Closeall {A} st.
Arguments Crash {A} why st.
Arguments Fuel {A} st.

Definition bind {A B : Type} (c : flow A) (k : A -> flow B) : flow B :=
  match c with
  | Next a => k a
  | Continue st => Continue st
  | Break st => Break st
  | Closeall st => Closeall st
  | Crash why st => Crash why st
  | Fuel st => Fuel st
  end.

Notation "x <- c ;; k" := (bind c (fun x => k))
  (at level 61, c at next level, right associativity).
Notation "' p <- c ;; k" := (bind c (fun x => let p := x in k))
  (at level 61, p pattern, c at next level, right associativity).

(** ** The staging buffer as memory *)

(** The bytes [m] with [bs] written over them from position [off] on. *)
Definition splice (off : nat) (bs m : list byte) : list byte :=
  firstn off m ++ bs ++ skipn (off + length bs) m.

(** [memcpy]-like store of [bs] at address [addr]: inside the allocation or
    undefined. *)
Definition store (fr : frame) (addr : Z) (bs : list byte) (st : state) : flow state :=
  let off := addr - filebuf fr in
  if (0 <=? off) && (off + Z.of_nat (length bs) <=? Z.of_nat (length (mem st))) then
    Next (set_mem (splice (Z.to_nat off) bs (mem st)) st)
  else Crash OutOfBounds st.

(** The [n] bytes at address [addr], when they lie inside the allocation. *)
Definition load (fr : frame) (addr n : Z) (st : state) : option (list byte) :=
  let off := addr - filebuf fr in
  if (0 <=? off) && (0 <=? n) && (off + n <=? Z.of_nat (length (mem st))) then
    Some (firstn (Z.to_nat n) (skipn (Z.to_nat off) (mem st)))
  else None.

Definition erase_buffer (fr : frame) (buffer size : Z) (st : state) : flow state :=
  if negb (buffer =? NULL) && (size >? 0) then
    store fr buffer (repeat kEraseByte (Z.to_nat size)) st
  else Next st.

(** ** The input *)

(** [read(ifd, buf, n)] for [n > 0]: the count returned, the bytes stored and
    the input that remains. *)
Definition sys_read (src : list read_ret) (n : Z) : Z * list byte * list read_ret :=
  match src with
  | [] => (0, [], [])
  | RdErr :: rest => (-1, [], rest)
  | RdData bs :: rest =>
      if Z.of_nat (length bs) <=? n then (Z.of_nat (length bs), bs, rest)
      else (n, firstn (Z.to_nat n) bs, RdData (skipn (Z.to_nat n) bs) :: rest)
  end.

(** [lseek(ifd, n, SEEK_CUR)] on the input as a list of read results. *)
Fixpoint skip_input (n : nat) (src : list read_ret) : list read_ret :=
  match src with
  | RdData bs :: rest =>
      if (length bs <=? n)%nat then skip_input (n - length bs) rest
      else RdData (skipn n bs) :: rest
  | _ => src
  end.

(** The [while (tinycnt < readlen)] loop of both fills; [n] bounds its
    turns (each turn that does not leave stores at least one byte). *)
Fixpoint read_loop (n : nat) (fr : frame) (st : state)
    (dst tinycnt readlen cnt : Z) : flow (state * Z * Z) :=
  if tinycnt <? readlen then
    match n with
    | O => Fuel st
    | S n' =>
        let '(cnt, bs, rest) := sys_read (input st) (to_size_t (readlen - tinycnt)) in
        let st := set_input rest st in
        if cnt =? 0 then Next (st, tinycnt, cnt)
        else if cnt <? 0 then Closeall (log (EvMsg MsgReadError) st)
        else
          st <- store fr (dst + tinycnt) bs st ;;
          read_loop n' fr st dst (to_size_t (tinycnt + cnt)) readlen cnt
    end
  else Next (st, tinycnt, cnt).

(** ** The bad block scan *)

(** [mtdoffset & (~ebsize_aligned + 1)]: the complement and the increment are
    [int] operations, the conjunction is done on [long long]. *)
Definition blockstart_of (fr : frame) (off : Z) : Z :=
  Z.land off (wrap_int (Z.lnot (ebsize_aligned fr) + 1)).

(** The [do ... while (offs < blockstart + ebsize_aligned)] loop. *)
Fixpoint scan_subunits (fuel : nat) (fr : frame) (st : state) (offs : Z) : flow state :=
  match fuel with
  | O => Fuel st
  | S fuel' =>
      if ebsize_aligned fr =? 0 then Crash DivisionByZero st else
      let eb := wrap_int (Z.quot offs (ebsize_aligned fr)) in
      let ret := mtd_is_bad (dev fr) (trace st) eb in
      let st := log (EvIsBad eb ret) st in
      if ret <? 0 then Closeall (log (EvMsg MsgIsBadFailed) st)
      else
        let st :=
          if ret =? 1 then
            let st := set_baderaseblock true st in
            if quiet (opts fr) then st
            else log (EvMsg (MsgBadBlock offs (blockalign (opts fr)) (blockstart st))) st
          else st in
        st <- (if baderaseblock st then
                 let st := set_mtdoffset (wrap_ll (blockstart st + ebsize_aligned fr)) st in
                 if mtdoffset st >? size (mtd fr)
                 then Closeall (log (EvMsg MsgTooManyBad) st)
                 else Next st
               else Next st) ;;
        if blockalign (opts fr) =? 0 then Crash DivisionByZero st else
        let offs := wrap_ll (offs + wrap_int (Z.quot (ebsize_aligned fr) (blockalign (opts fr)))) in
        if offs <? wrap_ll (blockstart st + ebsize_aligned fr)
        then scan_subunits fuel' fr st offs
        else Next st
  end.

(** One turn of the [while (blockstart != (mtdoffset & (~ebsize_aligned + 1)))]
    loop; its [continue] is [Next]. *)
Definition scan_turn (fuel : nat) (fr : frame) (st : state) : flow state :=
  let st := set_blockstart (blockstart_of fr (mtdoffset st)) st in
  let offs := blockstart st in
  (* if writebuf == filebuf, we are rewinding so we must not reset the
     buffer but just replay it *)
  st <- (if writebuf st =? filebuf fr then Next st
         else
           st <- erase_buffer fr (filebuf fr) (filebuf_len st) st ;;
           Next (set_writebuf (filebuf fr) (set_filebuf_len 0 st))) ;;
  let st := set_baderaseblock false st in
  st <- (if quiet (opts fr) then Next st
         else if ebsize_aligned fr =? 0 then Crash DivisionByZero st
         else Next (log (EvMsg (MsgWritingBlock
                                  (Z.quot (blockstart st) (ebsize_aligned fr))
                                  (blockstart st))) st)) ;;
  if noskipbad (opts fr) then Next st
  else scan_subunits fuel fr st offs.

(** The scan loop itself. *)
Fixpoint scan_blocks (fuel : nat) (fr : frame) (st : state) : flow state :=
  match fuel with
  | O => Fuel st
  | S fuel' =>
      if blockstart st =? blockstart_of fr (mtdoffset st) then Next st
      else
        st <- scan_turn fuel' fr st ;;
        scan_blocks fuel' fr st
  end.

(** ** Filling the staging buffer *)

(** "Read more data from the input if there isn't enough in the buffer". *)
Definition fill_page (fr : frame) (st : state) : flow state :=
  if writebuf st + min_io_size (mtd fr) >? filebuf fr + filebuf_len st then
    let readlen := to_size_t (min_io_size (mtd fr)) in
    let alreadyread := to_size_t (filebuf fr + filebuf_len st - writebuf st) in
    ' (st, tinycnt, cnt) <-
        read_loop (Z.to_nat readlen) fr st (writebuf st) alreadyread readlen 0 ;;
    if tinycnt =? 0 then
      Break (if ifd fr =? STDIN_FILENO then set_imglen 0 st else st)
    else
      st <- (if tinycnt <? readlen then
               if pad (opts fr)
               then erase_buffer fr (writebuf st + tinycnt) (to_size_t (readlen - tinycnt)) st
               else Closeall (log (EvMsg (MsgUnexpectedEof (to_size_t (readlen - tinycnt)))) st)
             else Next st) ;;
      let st := set_filebuf_len (to_size_t (filebuf_len st + to_size_t (readlen - alreadyread))) st in
      if negb (ifd fr =? STDIN_FILENO) then
        let st := set_imglen (wrap_ll (imglen st - to_size_t (tinycnt - alreadyread))) st in
        if ofg_imglen fr =? 0 then Crash DivisionByZero st
        else Next (log (EvProgress
                          (wrap_int (Z.quot (wrap_ll (wrap_ll (ofg_imglen fr - imglen st) * 100))
                                            (ofg_imglen fr)))) st)
      else if cnt =? 0 then Next (set_imglen 0 st)
      else Next st
  else Next st.

(** The [if (writeoob)] block: "Read more data for the OOB". *)
Definition fill_oob (fr : frame) (st : state) : flow state :=
  if writeoob (opts fr) then
    let st := set_oobbuf (writebuf st + min_io_size (mtd fr)) st in
    if oobbuf st + oob_size (mtd fr) >? filebuf fr + filebuf_len st then
      let readlen := to_size_t (oob_size (mtd fr)) in
      let alreadyread := to_size_t (filebuf fr + filebuf_len st - oobbuf st) in
      ' (st, tinycnt, cnt) <-
          read_loop (Z.to_nat readlen) fr st (oobbuf st) alreadyread readlen (cnt_garbage fr) ;;
      if tinycnt <? readlen then
        Closeall (log (EvMsg (MsgUnexpectedEofOob (to_size_t (readlen - tinycnt)))) st)
      else
        let st := set_filebuf_len (to_size_t (filebuf_len st + to_size_t (readlen - alreadyread))) st in
        if negb (ifd fr =? STDIN_FILENO) then
          Next (set_imglen (wrap_ll (imglen st - to_size_t (tinycnt - alreadyread))) st)
        else if cnt =? 0 then Next (set_imglen 0 st)
        else Next st
    else Next st
  else Next st.

(** ** Writing a page, and the recovery from a failed write *)

(** The [for (i = blockstart; i < blockstart + ebsize_aligned; i += mtd.eb_size)]
    loop of the recovery. *)
Fixpoint erase_loop (fuel : nat) (fr : frame) (st : state) (i : Z) : flow state :=
  if i <? wrap_ll (blockstart st + ebsize_aligned fr) then
    match fuel with
    | O => Fuel st
    | S fuel' =>
        if eb_size (mtd fr) =? 0 then Crash DivisionByZero st else
        let eb := wrap_int (Z.quot i (eb_size (mtd fr))) in
        let r := mtd_erase (dev fr) (trace st) eb in
        let st := log (EvErase eb r) st in
        match r with
        | IoOk => erase_loop fuel' fr st (wrap_ll (i + eb_size (mtd fr)))
        | IoErr errno_tmp =>
            let st := log (EvMsg MsgEraseFailure) st in
            if errno_tmp =? EIO
            then erase_loop fuel' fr st (wrap_ll (i + eb_size (mtd fr)))
            else Closeall st
        end
    end
  else Next st.

(** The arguments [data] and [oob] of [mtd_write]: [None] for a [NULL]
    pointer, the bytes behind it otherwise.  [None] as a whole when those
    bytes are not all inside the allocation. *)
Definition write_args (fr : frame) (st : state)
  : option (option (list byte) * option (list byte)) :=
  match (if onlyoob (opts fr) then Some None
         else option_map Some (load fr (writebuf st) (min_io_size (mtd fr)) st)),
        (if writeoob (opts fr)
         then option_map Some (load fr (oobbuf st) (oob_size (mtd fr)) st)
         else Some None) with
  | Some d, Some o => Some (d, o)
  | _, _ => None
  end.

(** The recovery from a write that failed with [EIO], up to [continue];
    [eb] is the erase block of the failed write. *)
Definition recover (fuel : nat) (fr : frame) (st : state) (eb : Z) : flow state :=
  (* Must rewind to blockstart if we can *)
  let st := set_writebuf (filebuf fr) st in
  let st := log (EvMsg (MsgErasingFailedWrite
                          (blockstart st)
                          (wrap_ll (wrap_ll (blockstart st + ebsize_aligned fr) - 1)))) st in
  st <- erase_loop fuel fr st (blockstart st) ;;
  st <- (if markbad (opts fr) then
           let st := log (EvMsg (MsgMarkingBad
                                   (Z.land (mtdoffset st)
                                           (wrap_int (Z.lnot (eb_size (mtd fr)) + 1))))) st in
           let r := mtd_mark_bad (dev fr) (trace st) eb in
           let st := log (EvMarkBad eb r) st in
           match r with
           | IoOk => Next st
           | IoErr _ => Closeall (log (EvMsg MsgMarkBadFailure) st)
           end
         else Next st) ;;
  Continue (set_mtdoffset (wrap_ll (blockstart st + ebsize_aligned fr)) st).

(** "Write out data" up to the end of the loop body. *)
Definition write_out (fuel : nat) (fr : frame) (st : state) : flow state :=
  if eb_size (mtd fr) =? 0 then Crash DivisionByZero st else
  match write_args fr st with
  | None => Crash OutOfBounds st
  | Some (data, oob) =>
      let eb := wrap_int (Z.quot (mtdoffset st) (eb_size (mtd fr))) in
      let offs := wrap_int (Z.rem (mtdoffset st) (eb_size (mtd fr))) in
      let ret := mtd_write (dev fr) (trace st) eb offs data oob (write_mode fr) in
      let st := log (EvWrite eb offs data oob (write_mode fr) ret) st in
      match ret with
      | IoErr errno =>
          if negb (errno =? EIO) then Closeall (log (EvMsg MsgWriteFailure) st)
          else recover fuel fr st eb
      | IoOk =>
          let st := set_mtdoffset (wrap_ll (mtdoffset st + min_io_size (mtd fr))) st in
          Continue (set_writebuf (writebuf st + pagelen fr) st)
      end
  end.

(** ** The write loop *)

Definition loop_cond (fr : frame) (st : state) : bool :=
  ((imglen st >? 0) || (writebuf st <? filebuf fr + filebuf_len st))
  && (mtdoffset st <? size (mtd fr)).

Definition loop_body (fuel : nat) (fr : frame) (st : state) : flow state :=
  st <- scan_blocks fuel fr st ;;
  st <- fill_page fr st ;;
  st <- fill_oob fr st ;;
  write_out fuel fr st.

(** The loop, for at most [n] turns; [Next] is the way out to
    [failed = false]. *)
Fixpoint main_loop (n fuel : nat) (fr : frame) (st : state) : flow state :=
  match n with
  | O => Fuel st
  | S n' =>
      if loop_cond fr st then
        match loop_body fuel fr st with
        | Next st' | Continue st' => main_loop n' fuel fr st'
        | Break st' => Next st'
        | Closeall st' => Closeall st'
        | Crash why st' => Crash why st'
        | Fuel st' => Fuel st'
        end
      else Next st
  end.

(** ** nandwrite_main *)

(** From the label [closeall] to the end: the final message and the value
    returned. *)
Definition closeall (failed : bool) (fd_in filebuf_addr : Z) (st : state)
  : outcome * list event :=
  (Returned EXIT_SUCCESS,
   if failed
      || (negb (fd_in =? STDIN_FILENO) && (imglen st >? 0))
      || (writebuf st <? filebuf_addr + filebuf_len st)
   then trace st ++ [EvMsg MsgPartiallyWritten]
   else trace st).

(** The locals as they are before the loop is reached. *)
Definition locals0 (o : options) (len : Z) (src : list read_ret) (tr : list event) : state :=
  {| mtdoffset := o_mtdoffset o; imglen := len; baderaseblock := false;
     blockstart := -1; filebuf_len := 0; writebuf := NULL; oobbuf := NULL;
     mem := []; input := src; trace := tr |}.

(** Which input is read, its descriptor and the image length: the part of
    [nandwrite_main] from "Determine if we are reading from standard input"
    to the [lseek].  [inr] is a [goto closeall] with the descriptor, the
    image length at that point and the events. *)
Definition open_input (e : env) (o : options) (img : string) (pagelen_v : Z)
    (tr : list event)
  : (Z * Z * Z * list read_ret) + (Z * Z * list event) :=
  if String.eqb img "-" then
    let imglen_v := if inputsize o =? 0 then pagelen_v else inputsize o in
    if negb (inputskip o =? 0) then inr (STDIN_FILENO, imglen_v, tr ++ [EvMsg MsgStdinSeek])
    else inl (STDIN_FILENO, imglen_v, uninit_ofg_imglen e, stdin e)
  else
    match image e with
    | None => inr (-1, 0, tr ++ [EvMsg MsgImageOpen])
    | Some f =>
        let ifd_v := 4 in
        match (if inputsize o =? 0 then
                 match st_size f with
                 | None => None
                 | Some sz => Some (wrap_ll (sz - inputskip o), wrap_ll (sz - inputskip o))
                 end
               else Some (inputsize o, uninit_ofg_imglen e)) with
        | None => inr (ifd_v, 0, tr ++ [EvMsg MsgStat])
        | Some (imglen_v, ofg) =>
            if negb (inputskip o =? 0) && (negb (seekable f) || (inputskip o <? 0))
            then inr (ifd_v, imglen_v, tr ++ [EvMsg MsgLseek])
            else inl (ifd_v, imglen_v, ofg,
                      skip_input (Z.to_nat (inputskip o)) (contents f))
        end
    end.

(** Everything before the loop: the frame and the first state of the loop,
    or the way the run ended. *)
Definition prelude (e : env) (o : options) (img : string)
  : (frame * state) + (outcome * list event) :=
  if negb (device_opens e) then inr (Returned (-1), [EvMsg MsgDeviceOpen])
  else if negb (libmtd_opens e) then inr (Returned (-1), [EvMsg MsgLibmtd])
  else
    match dev_info e with
    | None => inr (Returned (-1), [EvMsg MsgDevInfo])
    | Some m =>
        let ebsize_aligned_v := wrap_int (eb_size m * blockalign o) in
        if negb (Z.land (o_mtdoffset o) (wrap_int (min_io_size m - 1)) =? 0)
        then inr (Returned (-1), [EvMsg MsgStartNotPageAligned])
        else
          let write_mode_v :=
            if noecc o then MTD_OPS_RAW
            else if autoplace o then MTD_OPS_AUTO_OOB
            else MTD_OPS_PLACE_OOB in
          match (if noecc o then
                   let r := ioctl_filemode (device e) [] in
                   match r with
                   | IoOk => inl [EvFileMode r]
                   | IoErr errno => inr [EvFileMode r; EvMsg (MsgFileMode errno)]
                   end
                 else inl []) with
          | inr tr => inr (Returned (-1), tr)
          | inl tr =>
              let pagelen_v :=
                wrap_int (min_io_size m + (if writeoob o then oob_size m else 0)) in
              match open_input e o img pagelen_v tr with
              | inr (ifd_v, imglen_v, tr) =>
                  inr (closeall true ifd_v NULL (locals0 o imglen_v [] tr))
              | inl (ifd_v, imglen_v, ofg, src) =>
                  if pagelen_v =? 0 then inr (Crashed, tr)
                  else if negb (pad o) && negb (Z.rem imglen_v pagelen_v =? 0) then
                    inr (closeall true ifd_v NULL
                           (locals0 o imglen_v src (tr ++ [EvMsg MsgInputNotPageAligned])))
                  else if wrap_ll (Z.quot imglen_v pagelen_v * min_io_size m)
                          >? wrap_ll (size m - o_mtdoffset o) then
                    inr (closeall true ifd_v NULL
                           (locals0 o imglen_v src (tr ++ [EvMsg MsgDoesNotFit])))
                  else if min_io_size m =? 0 then inr (Crashed, tr)
                  else
                    let filebuf_max_v :=
                      wrap_int (wrap_int (Z.quot ebsize_aligned_v (min_io_size m)) * pagelen_v) in
                    if filebuf_max_v <? 0 then inr (Died, tr)
                    else
                      let fr :=
                        {| mtd := m; opts := o; dev := device e; ifd := ifd_v;
                           pagelen := pagelen_v; ebsize_aligned := ebsize_aligned_v;
                           write_mode := write_mode_v; ofg_imglen := ofg;
                           filebuf := heap e; filebuf_max := filebuf_max_v;
                           cnt_garbage := uninit_cnt e |} in
                      let st := locals0 o imglen_v src tr in
                      inl (fr, set_mem (repeat kEraseByte (Z.to_nat filebuf_max_v)) st)
              end
          end
    end.

(** The loop and what follows it. *)
Definition write_image (fuel : nat) (fr : frame) (st : state) : outcome * list event :=
  match main_loop fuel fuel fr st with
  | Next st' | Continue st' | Break st' => closeall false (ifd fr) (filebuf fr) st'
  | Closeall st' => closeall true (ifd fr) (filebuf fr) st'
  | Crash _ st' => (Crashed, trace st')
  | Fuel st' => (OutOfFuel, trace st')
  end.

Definition nandwrite_main (fuel : nat) (e : env) (o : options)
    (args : list parsed_option) (positional : list string) : outcome * list event :=
  match process_options o args positional with
  | inr out => (out, [])
  | inl (o, _, img) =>
      match prelude e o img with
      | inr r => r
      | inl (fr, st) => write_image fuel fr st
      end
  end.

(** ** Observations on a trace *)

(** The page writes the device accepted: device offset and main data. *)
Definition write_of (m : mtd_dev_info) (e : event) : list (Z * option (list byte)) :=
  match e with
  | EvWrite eb offs data _ _ IoOk => [(eb * eb_size m + offs, data)]
  | _ => []
  end.

Definition writes_of (m : mtd_dev_info) (tr : list event) : list (Z * option (list byte)) :=
  flat_map (write_of m) tr.

(** Reading the written pages back, in the order they were written. *)
Definition read_back (ws : list (Z * option (list byte))) : list byte :=
  flat_map (fun w => match snd w with Some d => d | None => [] end) ws.

(** Events that change the flash: a page write, an erase, a bad block mark. *)
Definition modifies_flash (e : event) : bool :=
  match e with
  | EvWrite _ _ _ _ _ _ | EvErase _ _ | EvMarkBad _ _ => true
  | _ => false
  end.

(** The device offset of every page write that was attempted. *)
Definition write_offset_of (m : mtd_dev_info) (e : event) : list Z :=
  match e with
  | EvWrite eb offs _ _ _ _ => [eb * eb_size m + offs]
  | _ => []
  end.

Definition is_progress (e : event) : bool :=
  match e with EvProgress _ => true | _ => false end.

(** The erase blocks a trace erases, in order. *)
Definition erases_of (tr : list event) : list Z :=
  flat_map (fun e => match e with EvErase eb _ => [eb] | _ => [] end) tr.

(** Events of the erase loop: erases and messages. *)
Definition is_erase_event (e : event) : bool :=
  match e with
  | EvMsg _ | EvErase _ _ => true
  | _ => false
  end.

(** The arguments of [mtd_erase] for the sub-units [j], ..., [j + n - 1] of
    the aligned block at [bs]. *)
Fixpoint subunits (fr : frame) (bs j : Z) (n : nat) : list Z :=
  match n with
  | O => []
  | S n' => wrap_int (Z.quot (bs + j * eb_size (mtd fr)) (eb_size (mtd fr)))
            :: subunits fr bs (j + 1) n'
  end.

(** Events of the scan: messages and bad block queries. *)
Definition is_scan_event (e : event) : bool :=
  match e with
  | EvMsg _ | EvIsBad _ _ => true
  | _ => false
  end.

(** Number of bytes an input still holds. *)
Fixpoint total_bytes (src : list read_ret) : Z :=
  match src with
  | [] => 0
  | RdData bs :: rest => Z.of_nat (length bs) + total_bytes rest
  | RdErr :: rest => total_bytes rest
  end.

(** ** A device geometry the loop is meant for *)

Definition is_pow2 (z : Z) : bool := (0 <? z) && (Z.land z (z - 1) =? 0).

(** Page and erase block sizes are powers of two, so is the block alignment;
    the derived sizes are the ones [nandwrite_main] computes and they fit
    their C types, as does the number of erase blocks; the buffer address is
    not [NULL]; the start offset is one [nandwrite_main] lets through. *)
Definition sane_frame (fr : frame) : bool :=
  let m := mtd fr in
  let o := opts fr in
  is_pow2 (min_io_size m) && is_pow2 (eb_size m) && is_pow2 (blockalign o)
  && (min_io_size m <=? eb_size m)
  && (ebsize_aligned fr =? eb_size m * blockalign o)
  && (ebsize_aligned fr <? 2 ^ 31)
  && (0 <=? oob_size m)
  && (pagelen fr =? min_io_size m + (if writeoob o then oob_size m else 0))
  && (filebuf_max fr =? ebsize_aligned fr / min_io_size m * pagelen fr)
  && (filebuf_max fr <? 2 ^ 31)
  && (0 <=? size m) && (size m <=? 2 ^ 60)
  && (size m / eb_size m <? 2 ^ 31)
  && (0 <? filebuf fr)
  && (0 <=? o_mtdoffset o) && (o_mtdoffset o mod min_io_size m =? 0).

(** ** Invariants of the write loop *)

(** The staging buffer after the reset at a new aligned block. *)
Definition erased (fr : frame) (st : state) : state :=
  set_writebuf (filebuf fr)
    (set_filebuf_len 0
       (set_mem (splice 0 (repeat kEraseByte (Z.to_nat (filebuf_len st))) (mem st)) st)).

(** The buffer cursor as an offset into the staging buffer. *)
Definition cursor (fr : frame) (st : state) : Z := writebuf st - filebuf fr.

(** What the recovery prints and does when asked to mark the block of the
    failed write, [eb], bad and the device does so. *)
Definition mark_events (fr : frame) (st : state) (eb : Z) : list event :=
  if markbad (opts fr)
  then [EvMsg (MsgMarkingBad (Z.land (mtdoffset st)
                                     (wrap_int (Z.lnot (eb_size (mtd fr)) + 1))));
        EvMarkBad eb IoOk]
  else [].

(** The message that opens the recovery. *)
Definition erasing_msg (fr : frame) (st : state) : event :=
  EvMsg (MsgErasingFailedWrite (blockstart st)
           (wrap_ll (wrap_ll (blockstart st + ebsize_aligned fr) - 1))).

(** The payload of the page at the cursor, as [mtd_write] is given it. *)
Definition page_data (fr : frame) (st : state) : option (list byte) :=
  if onlyoob (opts fr) then None
  else Some (firstn (Z.to_nat (min_io_size (mtd fr)))
               (skipn (Z.to_nat (cursor fr st)) (mem st))).

Definition page_oob (fr : frame) (st : state) : option (list byte) :=
  if writeoob (opts fr)
  then Some (firstn (Z.to_nat (oob_size (mtd fr)))
               (skipn (Z.to_nat (cursor fr st + min_io_size (mtd fr))) (mem st)))
  else None.

(** The page write issued at [st], with the answer [r] of the device. *)
Definition write_event (fr : frame) (st : state) (r : io_result) : event :=
  EvWrite (wrap_int (Z.quot (mtdoffset st) (eb_size (mtd fr))))
          (wrap_int (Z.rem (mtdoffset st) (eb_size (mtd fr))))
          (page_data fr st) (page_oob fr st) (write_mode fr) r.

(** Pages between the device offset and the point the staging of the current
    aligned block began: the block start, or the start offset of the run
    when the run began inside the block. *)
Definition pages_staged (fr : frame) (st : state) : Z :=
  (mtdoffset st - Z.max (blockstart st) (o_mtdoffset (opts fr))) / min_io_size (mtd fr).

Definition offset_ok (fr : frame) (st : state) : Prop :=
  o_mtdoffset (opts fr) <= mtdoffset st
  /\ mtdoffset st <= size (mtd fr) + ebsize_aligned fr
  /\ (min_io_size (mtd fr) | mtdoffset st).

Definition buffer_ok (fr : frame) (st : state) : Prop :=
  Z.of_nat (length (mem st)) = filebuf_max fr
  /\ 0 <= cursor fr st <= filebuf_len st
  /\ filebuf_len st <= filebuf_max fr
  /\ (pagelen fr | cursor fr st)
  /\ (pagelen fr | filebuf_len st).

(** Before the first turn. *)
Definition at_start (fr : frame) (st : state) : Prop :=
  writebuf st = NULL /\ blockstart st = -1 /\ filebuf_len st = 0
  /\ mtdoffset st = o_mtdoffset (opts fr)
  /\ Z.of_nat (length (mem st)) = filebuf_max fr.

(** Inside the aligned block the scan accepted. *)
Definition at_block (fr : frame) (st : state) : Prop :=
  blockstart st = blockstart_of fr (mtdoffset st)
  /\ cursor fr st = pages_staged fr st * pagelen fr.

(** Right behind the aligned block [blockstart], which is left. *)
Definition at_new_block (fr : frame) (st : state) : Prop :=
  mtdoffset st = blockstart st + ebsize_aligned fr
  /\ (ebsize_aligned fr | blockstart st)
  /\ 0 <= blockstart st
  /\ o_mtdoffset (opts fr) < mtdoffset st.

(** At the head of the loop and of the scan loop. *)
Definition loop_inv (fr : frame) (st : state) : Prop :=
  offset_ok fr st
  /\ (at_start fr st \/ (buffer_ok fr st /\ (at_block fr st \/ at_new_block fr st))).

(** Once the scan is over: where the fills and the write start from. *)
Definition fill_inv (fr : frame) (st : state) : Prop :=
  offset_ok fr st /\ buffer_ok fr st /\ at_block fr st.

(** A device without bad blocks. *)
Definition no_bad_blocks (d : flash_device) : Prop :=
  forall tr eb, mtd_is_bad d tr eb = 0.

(** A device on which every page write succeeds. *)
Definition writes_succeed (d : flash_device) : Prop :=
  forall tr eb offs data oob mode, mtd_write d tr eb offs data oob mode = IoOk.

(** The states at the head of the loop a run goes through, from [st0] on. *)
Inductive reaches (fuel : nat) (fr : frame) : state -> state -> Prop :=
| reaches_refl st : reaches fuel fr st st
| reaches_step st st' st'' :
    reaches fuel fr st st' ->
    loop_cond fr st' = true ->
    loop_body fuel fr st' = Continue st'' ->
    reaches fuel fr st st''.

(** The state any end of a piece of the loop carries. *)
Definition state_of (r : flow state) : state :=
  match r with
  | Next st | Continue st | Break st | Closeall st | Crash _ st | Fuel st => st
  end.

(** The bytes an input delivers, in order. *)
Fixpoint bytes_of (src : list read_ret) : list byte :=
  match src with
  | [] => []
  | RdData bs :: rest => bs ++ bytes_of rest
  | RdErr :: rest => bytes_of rest
  end.

(** An input that delivers its bytes without error and signals its end once,
    when nothing is left. *)
Fixpoint plain_input (src : list read_ret) : bool :=
  match src with
  | [] => true
  | RdData (_ :: _) :: rest => plain_input rest
  | _ => false
  end.

(** What [sane_frame] gives, in the form the proofs use: [q] is the number of
    pages of an aligned block. *)
Record geometry (fr : frame) (q : Z) : Prop := {
  geo_page : 0 < min_io_size (mtd fr);
  geo_eb : 0 < eb_size (mtd fr);
  geo_align : 0 < blockalign (opts fr);
  geo_aligned : ebsize_aligned fr = eb_size (mtd fr) * blockalign (opts fr);
  geo_int : ebsize_aligned fr < 2 ^ 31;
  geo_pages : ebsize_aligned fr = q * min_io_size (mtd fr);
  geo_q : 0 < q;
  geo_eb_pages : (min_io_size (mtd fr) | eb_size (mtd fr));
  geo_oob : 0 <= oob_size (mtd fr);
  geo_pagelen : pagelen fr = min_io_size (mtd fr)
                             + (if writeoob (opts fr) then oob_size (mtd fr) else 0);
  geo_max : filebuf_max fr = q * pagelen fr;
  geo_max_int : filebuf_max fr < 2 ^ 31;
  geo_size : 0 <= size (mtd fr) <= 2 ^ 60;
  geo_cnt : size (mtd fr) / eb_size (mtd fr) < 2 ^ 31;
  geo_filebuf : 0 < filebuf fr;
  geo_start : 0 <= o_mtdoffset (opts fr);
  geo_start_page : (min_io_size (mtd fr) | o_mtdoffset (opts fr));
  geo_mask : forall x, blockstart_of fr x = ebsize_aligned fr * (x / ebsize_aligned fr)
}.

(** Between the two fills: the page at the cursor is staged, its OOB bytes
    perhaps not yet. *)
Definition half_inv (fr : frame) (st : state) : Prop :=
  offset_ok fr st /\ at_block fr st
  /\ Z.of_nat (length (mem st)) = filebuf_max fr
  /\ 0 <= cursor fr st /\ (pagelen fr | cursor fr st)
  /\ filebuf_len st <= filebuf_max fr
  /\ (filebuf_len st = cursor fr st + min_io_size (mtd fr)
      \/ (cursor fr st + pagelen fr <= filebuf_len st /\ (pagelen fr | filebuf_len st))).

(** Before the write: page and OOB bytes at the cursor are staged. *)
Definition ready_inv (fr : frame) (st : state) : Prop :=
  fill_inv fr st /\ cursor fr st + pagelen fr <= filebuf_len st
  /\ (writeoob (opts fr) = true -> oobbuf st = writebuf st + min_io_size (mtd fr)).

(** The progress the source reports after a fill, from the image length
    that is left. *)
Definition progress_of (fr : frame) (imglen_v : Z) : Z :=
  wrap_int (Z.quot (wrap_ll (wrap_ll (ofg_imglen fr - imglen_v) * 100)) (ofg_imglen fr)).

(** A step that leaves the device offset, the block start and the cursor
    alone and does not touch the flash. *)
Definition quiet_step (st st' : state) : Prop :=
  mtdoffset st' = mtdoffset st /\ blockstart st' = blockstart st
  /\ writebuf st' = writebuf st
  /\ exists tr, trace st' = trace st ++ tr
                /\ forallb (fun e => negb (modifies_flash e)) tr = true.

(** ** A small NAND chip and some inputs, to run the program on *)

(** 512 byte pages with 16 OOB bytes, 16 KiB erase blocks, 1 MiB. *)
Definition nand_small : mtd_dev_info :=
  {| size := 1048576; eb_size := 16384; min_io_size := 512; oob_size := 16 |}.

(** A chip without bad blocks on which every operation succeeds. *)
Definition good_flash : flash_device :=
  {| ioctl_filemode := fun _ => IoOk;
     mtd_is_bad := fun _ _ => 0;
     mtd_write := fun _ _ _ _ _ _ => IoOk;
     mtd_erase := fun _ _ => IoOk;
     mtd_mark_bad := fun _ _ => IoOk |}.

(** A chip whose erase blocks [bad] are marked bad. *)
Definition flash_with_bad (bad : list Z) : flash_device :=
  {| ioctl_filemode := fun _ => IoOk;
     mtd_is_bad := fun _ eb => if existsb (Z.eqb eb) bad then 1 else 0;
     mtd_write := fun _ _ _ _ _ _ => IoOk;
     mtd_erase := fun _ _ => IoOk;
     mtd_mark_bad := fun _ _ => IoOk |}.

(** A chip on which the first page write fails with [errno], the others
    succeed. *)
Definition flash_failing_once (errno : Z) : flash_device :=
  {| ioctl_filemode := fun _ => IoOk;
     mtd_is_bad := fun _ _ => 0;
     mtd_write := fun tr _ _ _ _ _ =>
       if existsb (fun e => match e with EvWrite _ _ _ _ _ _ => true | _ => false end) tr
       then IoOk else IoErr errno;
     mtd_erase := fun _ _ => IoOk;
     mtd_mark_bad := fun _ _ => IoOk |}.

(** A regular file holding [bs]. *)
Definition file_of (bs : list byte) : input_file :=
  {| st_size := Some (Z.of_nat (length bs)); seekable := true;
     contents := match bs with [] => [] | _ => [RdData bs] end |}.

Definition env_of (d : flash_device) (f : input_file) (pipe : list read_ret) : env :=
  {| device_opens := true; libmtd_opens := true; dev_info := Some nand_small;
     device := d; stdin := pipe; image := Some f; heap := 4096;
     uninit_ofg_imglen := 0; uninit_cnt := 0 |}.

(** Two pages of data. *)
Definition two_pages : list byte := repeat x01 512 ++ repeat x02 512.

(** The frame and the first state of the loop for [two_pages] written with
    the options [o] to a good chip. *)
Definition frame_of (d : flash_device) (o : options) : frame :=
  {| mtd := nand_small; opts := o; dev := d; ifd := 4;
     pagelen := 512 + (if writeoob o then 16 else 0);
     ebsize_aligned := 16384 * blockalign o;
     write_mode := if noecc o then MTD_OPS_RAW
                   else if autoplace o then MTD_OPS_AUTO_OOB else MTD_OPS_PLACE_OOB;
     ofg_imglen := 1024; filebuf := 4096;
     filebuf_max := 16384 * blockalign o / 512 * (512 + (if writeoob o then 16 else 0));
     cnt_garbage := 0 |}.

Definition start_of (o : options) (max : Z) : state :=
  set_mem (repeat kEraseByte (Z.to_nat max))
    (locals0 o 1024 [RdData two_pages] []).

(** The options [-s 512]. *)
Definition from_second_page : options := set_o_mtdoffset 512 initial_options.

(** The byte-accounting formula as the specification words it: pages
    written in the current aligned block, counted from the block start,
    times the stride of a page in the buffer. *)
Definition spec_cursor (fr : frame) (st : state) : Z :=
  (mtdoffset st - blockstart st) / min_io_size (mtd fr) * pagelen fr.

(** The state after the first scan of the run [-s 512] on a good chip. *)
Definition after_first_scan : state :=
  state_of (scan_blocks 8 (frame_of good_flash from_second_page)
              (start_of from_second_page 16384)).

(** The block start as the specification words it. *)
Definition spec_blockstart (fr : frame) (offset : Z) : Z :=
  offset / ebsize_aligned fr * ebsize_aligned fr.

(** The options [-b 3 -s 49152]. *)
Definition three_blocks : options :=
  {| o_mtdoffset := 49152; inputskip := 0; inputsize := 0; quiet := false;
     writeoob := false; onlyoob := false; markbad := false; noecc := false;
     autoplace := false; noskipbad := false; pad := false; blockalign := 3 |}.

Definition is_write (e : event) : bool :=
  match e with EvWrite _ _ _ _ _ _ => true | _ => false end.

(** The page and OOB bytes an image holds per page. *)
Definition pagelen_of (m : mtd_dev_info) (o : options) : Z :=
  wrap_int (min_io_size m + (if writeoob o then oob_size m else 0)).

(** The input file argument: the second positional argument, or "-". *)
Definition image_of (positional : list string) : string :=
  match positional with
  | [_; i] => i
  | _ => "-"%string
  end.

(** The image length [nandwrite_main] works with, when it has one: the size
    of the file less the skipped bytes, the --input-size, or one page for
    standard input. *)
Definition declared_imglen (e : env) (o : options) (img : string) (m : mtd_dev_info)
  : option Z :=
  match open_input e o img (pagelen_of m o) [] with
  | inl (_, len, _, _) => Some len
  | inr _ => None
  end.

(** The configurations [nandwrite_main] turns down before the loop. *)
Definition preflight_error (e : env) (o : options) (img : string) (m : mtd_dev_info)
  : bool :=
  (o_mtdoffset o <? 0)
  || (blockalign o <? 0)
  || (autoplace o && noecc o)
  || (negb (onlyoob o) && (pad o && writeoob o))
  || negb (o_mtdoffset o mod min_io_size m =? 0)
  || match declared_imglen e o img m with
     | Some len =>
         (negb (pad o) && negb (Z.rem len (pagelen_of m o) =? 0))
         || (wrap_ll (Z.quot len (pagelen_of m o) * min_io_size m)
             >? wrap_ll (size m - o_mtdoffset o))
     | None => false
     end.

(** A run that did not end well: it did not return 0, or it printed "Data
    was only partially written due to error". *)
Definition rejected (r : outcome * list event) : Prop :=
  fst r <> Returned EXIT_SUCCESS \/ In (EvMsg MsgPartiallyWritten) (snd r).

Definition flash_untouched (tr : list event) : bool :=
  forallb (fun ev => negb (modifies_flash ev)) tr.

(** One page and a half. *)
Definition page_and_half : list byte := repeat x01 512 ++ repeat x02 256.

(** The number of input bytes a run has consumed when it is in [st], for a
    run that started in [st0]. *)
Definition consumed (st0 st : state) : Z :=
  total_bytes (input st0) - total_bytes (input st).

(** The state after the first scan of the run without options on a good
    chip, and the one after the first fill. *)
Definition after_scan_plain : state :=
  state_of (scan_blocks 8 (frame_of good_flash initial_options)
              (start_of initial_options 16384)).

Definition after_fill_plain : state :=
  state_of (fill_page (frame_of good_flash initial_options) after_scan_plain).

(** A hundred bytes: a short page. *)
Definition short_image : list byte := repeat x01 100.

(** The page the fill stages from the [t] bytes the input still delivers,
    padded with the erase byte. *)
Definition padded_page (fr : frame) (st : state) (t : Z) : list byte :=
  firstn (Z.to_nat t) (bytes_of (input st))
  ++ repeat kEraseByte (Z.to_nat (min_io_size (mtd fr) - t)).

(** The options [-p], and the frame and the first state of the loop for
    [short_image] written with them to a good chip. *)
Definition padding : options :=
  {| o_mtdoffset := 0; inputskip := 0; inputsize := 0; quiet := false;
     writeoob := false; onlyoob := false; markbad := false; noecc := false;
     autoplace := false; noskipbad := false; pad := true; blockalign := 1 |}.

Definition short_frame : frame :=
  {| mtd := nand_small; opts := padding; dev := good_flash; ifd := 4;
     pagelen := 512; ebsize_aligned := 16384; write_mode := MTD_OPS_PLACE_OOB;
     ofg_imglen := 100; filebuf := 4096; filebuf_max := 16384; cnt_garbage := 0 |}.

Definition short_start : state :=
  set_mem (repeat kEraseByte (Z.to_nat 16384)) (locals0 padding 100 [RdData short_image] []).

(** The state after the first scan of that run, and the one in which its
    read loop ends. *)
Definition short_scanned : state :=
  state_of (scan_blocks 8 short_frame short_start).

Definition short_read : state :=
  set_mem (splice 0 short_image (mem short_scanned)) (set_input [] short_scanned).

(** ** A run without faults *)

(** The pages of [bs], [n] of them, as page writes from the device offset
    [off] on. *)
Fixpoint pages_at (pg off : Z) (bs : list byte) (n : nat)
  : list (Z * option (list byte)) :=
  match n with
  | O => []
  | S n' => (off, Some (firstn (Z.to_nat pg) bs))
            :: pages_at pg (off + pg) (skipn (Z.to_nat pg) bs) n'
  end.

(** The image length the run works with is the one of the input: for a
    file, the length [nandwrite_main] found is the number of bytes the
    file delivers; for standard input the length is not known and only has
    to be positive. *)
Definition declared_length (fr : frame) (st : state) (data : list byte) : Prop :=
  if ifd fr =? STDIN_FILENO then 0 < imglen st
  else imglen st = Z.of_nat (length data) /\ ofg_imglen fr = Z.of_nat (length data).

(** At the head of the loop, in a run that writes pages without OOB and
    has met no fault: every staged page is written, and the input still
    holds [rest]. *)
Definition clean (fr : frame) (st : state) (rest : list byte) : Prop :=
  loop_inv fr st
  /\ ((at_start fr st /\ mtdoffset st < size (mtd fr)) \/ filebuf_len st = cursor fr st)
  /\ plain_input (input st) = true
  /\ bytes_of (input st) = rest
  /\ (if ifd fr =? STDIN_FILENO then 0 < imglen st
      else imglen st = Z.of_nat (length rest)
           /\ Z.of_nat (length rest) <= ofg_imglen fr).

(** ** The replay of the staged pages *)





(** A device whose erases succeed or fail with [EIO], and one that marks
    every block it is asked to. *)
Definition erases_recoverable (d : flash_device) : Prop :=
  forall tr eb, mtd_erase d tr eb = IoOk \/ mtd_erase d tr eb = IoErr EIO.

Definition marks_succeed (d : flash_device) : Prop :=
  forall tr eb, mtd_mark_bad d tr eb = IoOk.







(** ** Options across calls *)

(** An option that is parsed without error and does not end the program. *)
Definition option_ok (c : parsed_option) : bool :=
  match c with
  | opt_input_skip _ ok | opt_input_size _ ok | opt_s _ ok => ok
  | opt_version | opt_h | opt_unknown => false
  | _ => true
  end.

(** The flags that are set in [o] are set in [o']. *)
Definition flags_kept (o o' : options) : bool :=
  implb (quiet o) (quiet o') && implb (writeoob o) (writeoob o')
  && implb (onlyoob o) (onlyoob o') && implb (markbad o) (markbad o')
  && implb (noecc o) (noecc o') && implb (autoplace o) (autoplace o')
  && implb (noskipbad o) (noskipbad o') && implb (pad o) (pad o').

Definition names_start (c : parsed_option) : bool :=
  match c with opt_s _ _ => true | _ => false end.

Definition names_blockalign (c : parsed_option) : bool :=
  match c with opt_b _ => true | _ => false end.

Definition names_input_skip (c : parsed_option) : bool :=
  match c with opt_input_skip _ _ => true | _ => false end.

Definition names_input_size (c : parsed_option) : bool :=
  match c with opt_input_size _ _ => true | _ => false end.

(** The options [-p -q] of a first call, and what a second call without
    options finds. *)
Definition first_call : options :=
  {| o_mtdoffset := 4096; inputskip := 0; inputsize := 0; quiet := true;
     writeoob := false; onlyoob := false; markbad := false; noecc := false;
     autoplace := false; noskipbad := false; pad := true; blockalign := 2 |}.

(** ** The events of a run *)

(** [st'] extends the trace of [st] by events that all satisfy [P]. *)
Definition emitted (P : event -> bool) (st st' : state) : Prop :=
  exists tr, trace st' = trace st ++ tr /\ forallb P tr = true.

(** The events the scan, the fills and the write with its recovery can log,
    by the options and the kind of input. *)
Definition scan_emits (fr : frame) (ev : event) : bool :=
  match ev with
  | EvMsg (MsgWritingBlock _ _) => negb (quiet (opts fr))
  | EvMsg (MsgBadBlock _ _ _) => negb (quiet (opts fr)) && negb (noskipbad (opts fr))
  | EvMsg MsgIsBadFailed | EvMsg MsgTooManyBad | EvIsBad _ _ => negb (noskipbad (opts fr))
  | _ => false
  end.

Definition fill_emits (fr : frame) (ev : event) : bool :=
  match ev with
  | EvMsg MsgReadError => true
  | EvMsg (MsgUnexpectedEof _) => negb (pad (opts fr))
  | EvMsg (MsgUnexpectedEofOob _) => writeoob (opts fr)
  | EvProgress _ => negb (ifd fr =? STDIN_FILENO)
  | _ => false
  end.

Definition write_emits (fr : frame) (ev : event) : bool :=
  match ev with
  | EvWrite _ _ data oob mode _ =>
      (mode =? write_mode fr)
      && match data with None => onlyoob (opts fr) | Some _ => negb (onlyoob (opts fr)) end
      && match oob with None => negb (writeoob (opts fr)) | Some _ => writeoob (opts fr) end
  | EvMsg MsgWriteFailure | EvMsg (MsgErasingFailedWrite _ _)
  | EvErase _ _ | EvMsg MsgEraseFailure => true
  | EvMsg (MsgMarkingBad _) | EvMarkBad _ _ | EvMsg MsgMarkBadFailure => markbad (opts fr)
  | _ => false
  end.

Definition loop_emits (fr : frame) (ev : event) : bool :=
  scan_emits fr ev || fill_emits fr ev || write_emits fr ev.

(** The state a read loop ends in. *)
Definition read_state (r : flow (state * Z * Z)) : state :=
  match r with
  | Next x => fst (fst x)
  | Continue st | Break st | Closeall st | Crash _ st | Fuel st => st
  end.

(** What the label [closeall] adds to a trace. *)
Definition is_final_message (ev : event) : bool :=
  match ev with EvMsg MsgPartiallyWritten => true | _ => false end.

Definition is_query (ev : event) : bool :=
  match ev with EvIsBad _ _ => true | _ => false end.

Definition is_mark (ev : event) : bool :=
  match ev with EvMarkBad _ _ => true | _ => false end.

Definition is_block_message (ev : event) : bool :=
  match ev with
  | EvMsg (MsgWritingBlock _ _) | EvMsg (MsgBadBlock _ _ _) => true
  | _ => false
  end.

(** The events of the part of [nandwrite_main] before the loop. *)
Definition is_prelude_event (o : options) (ev : event) : bool :=
  match ev with
  | EvFileMode _ | EvMsg (MsgFileMode _) => noecc o
  | EvMsg MsgDeviceOpen | EvMsg MsgLibmtd | EvMsg MsgDevInfo
  | EvMsg MsgStartNotPageAligned | EvMsg MsgImageOpen | EvMsg MsgStdinSeek
  | EvMsg MsgStat | EvMsg MsgLseek | EvMsg MsgInputNotPageAligned
  | EvMsg MsgDoesNotFit | EvMsg MsgPartiallyWritten => true
  | _ => false
  end.

(** Events of the bad block handling: the query, its failure, the skip. *)
Definition concerns_bad_blocks (ev : event) : bool :=
  match ev with
  | EvIsBad _ _ | EvMsg MsgIsBadFailed | EvMsg (MsgBadBlock _ _ _)
  | EvMsg MsgTooManyBad => true
  | _ => false
  end.

Definition concerns_marking (ev : event) : bool :=
  match ev with
  | EvMarkBad _ _ | EvMsg (MsgMarkingBad _) | EvMsg MsgMarkBadFailure => true
  | _ => false
  end.

(** The write mode the options select. *)
Definition mode_of (o : options) : Z :=
  if noecc o then MTD_OPS_RAW
  else if autoplace o then MTD_OPS_AUTO_OOB else MTD_OPS_PLACE_OOB.

(** A page write as the options [o] shape it: the mode, main data unless
    only the OOB is written, OOB data when the OOB is written. *)
Definition shaped_write (o : options) (ev : event) : bool :=
  match ev with
  | EvWrite _ _ data oob mode _ =>
      (mode =? mode_of o)
      && match data with None => onlyoob o | Some _ => negb (onlyoob o) end
      && match oob with None => negb (writeoob o) | Some _ => writeoob o end
  | _ => true
  end.

(** The options [-N -q], and a piped image. *)
Definition unchecked_quiet : list parsed_option := [opt_N; opt_q].

(** ** Erases and the recovery *)

Definition is_eio_write (ev : event) : bool :=
  match ev with
  | EvWrite _ _ _ _ _ (IoErr errno) => errno =? EIO
  | _ => false
  end.

(** What the recovery from a failed write logs. *)
Definition is_recovery_event (ev : event) : bool :=
  match ev with
  | EvMsg (MsgErasingFailedWrite _ _) | EvErase _ _ | EvMsg MsgEraseFailure
  | EvMsg (MsgMarkingBad _) | EvMarkBad _ _ | EvMsg MsgMarkBadFailure => true
  | _ => false
  end.

(** In [tr], an erase, a bad block mark or a message of the recovery only
    occurs behind a page write that was answered with [EIO], with nothing
    but events of that recovery between the two; [rec] tells whether [tr]
    starts inside a recovery. *)
Fixpoint guarded (rec : bool) (tr : list event) : bool :=
  match tr with
  | [] => true
  | ev :: rest =>
      if is_eio_write ev then guarded true rest
      else if is_recovery_event ev then rec && guarded rec rest
      else guarded false rest
  end.

(** [st'] extends the trace of [st] by events of which [K] holds. *)
Definition extended (K : list event -> bool) (st st' : state) : Prop :=
  exists tr, trace st' = trace st ++ tr /\ K tr = true.

(** ** Where the pages are written *)

(** What follows a page write in its turn: the message of a failure that is
    not recovered from, or the events of the recovery. *)
Definition follows_write (ev : event) : bool :=
  is_recovery_event ev
  || match ev with EvMsg MsgWriteFailure => true | _ => false end.

(** A page write at a page-aligned device offset between the start offset
    and the device size, addressed by an erase block and an offset inside
    it, with a whole page of main data and the whole OOB when they are
    passed. *)
Definition write_in_bounds (fr : frame) (ev : event) : bool :=
  match ev with
  | EvWrite eb offs data oob _ _ =>
      let m := eb * eb_size (mtd fr) + offs in
      (0 <=? eb) && (0 <=? offs) && (offs <? eb_size (mtd fr))
      && (o_mtdoffset (opts fr) <=? m) && (m <=? size (mtd fr))
      && (m mod min_io_size (mtd fr) =? 0)
      && match data with
         | Some bs => Z.of_nat (length bs) =? min_io_size (mtd fr)
         | None => true
         end
      && match oob with
         | Some bs => Z.of_nat (length bs) =? oob_size (mtd fr)
         | None => true
         end
  | _ => true
  end.

(** ** Pages are written to blocks that were found good *)

(** The last answer to a bad block query in a trace: the index asked for
    and the answer; [last] when the trace holds no query. *)
Fixpoint last_query (last : option (Z * Z)) (tr : list event) : option (Z * Z) :=
  match tr with
  | [] => last
  | EvIsBad eb ret :: rest => last_query (Some (eb, ret)) rest
  | _ :: rest => last_query last rest
  end.

(** The last query was for the index the scan derives from the aligned
    block of the device offset [m], and the answer was neither an error nor
    "bad". *)
Definition answered_good (fr : frame) (last : option (Z * Z)) (m : Z) : bool :=
  match last with
  | Some (k, ret) =>
      (k =? wrap_int (Z.quot m (ebsize_aligned fr))) && (0 <=? ret) && negb (ret =? 1)
  | None => false
  end.

(** Every page write of [tr] comes behind such a query, with no other query
    between the two. *)
Fixpoint writes_checked (fr : frame) (last : option (Z * Z)) (tr : list event) : bool :=
  match tr with
  | [] => true
  | EvIsBad eb ret :: rest => writes_checked fr (Some (eb, ret)) rest
  | EvWrite eb offs _ _ _ _ :: rest =>
      answered_good fr last (eb * eb_size (mtd fr) + offs)
      && writes_checked fr last rest
  | _ :: rest => writes_checked fr last rest
  end.

(** ** Bad blocks are not written to *)

(** A device whose answer to the bad block query for [eb] is [bad eb]
    throughout the run. *)
Definition bad_block_table (d : flash_device) (bad : Z -> Z) : Prop :=
  forall tr eb, mtd_is_bad d tr eb = bad eb.

Definition answers_table (bad : Z -> Z) (ev : event) : bool :=
  match ev with EvIsBad eb ret => ret =? bad eb | _ => true end.

(** What the scan takes for a good block: the query is no error and its
    answer is not 1. *)
Definition reported_good (bad : Z -> Z) (k : Z) : bool :=
  (0 <=? bad k) && negb (bad k =? 1).

(** A page write is a write into a block whose scan index is reported good,
    and into an erase block that is reported good. *)
Definition writes_good_index (fr : frame) (bad : Z -> Z) (ev : event) : bool :=
  match ev with
  | EvWrite eb offs _ _ _ _ =>
      reported_good bad (wrap_int (Z.quot (eb * eb_size (mtd fr) + offs) (ebsize_aligned fr)))
  | _ => true
  end.

Definition writes_good_block (bad : Z -> Z) (ev : event) : bool :=
  match ev with
  | EvWrite eb _ _ _ _ _ => reported_good bad eb
  | _ => true
  end.

(** A chip that reports every erase block bad. *)
Definition flash_all_bad : flash_device :=
  {| ioctl_filemode := fun _ => IoOk;
     mtd_is_bad := fun _ _ => 1;
     mtd_write := fun _ _ _ _ _ _ => IoOk;
     mtd_erase := fun _ _ => IoOk;
     mtd_mark_bad := fun _ _ => IoOk |}.

(** ** The end of the run *)

(** Turns and inner loop steps that are enough for any run on the device. *)
Definition enough_fuel (fr : frame) (fuel : nat) : Prop :=
  size (mtd fr) / min_io_size (mtd fr) + blockalign (opts fr) + 2 < Z.of_nat fuel.

(** ** A run with --input-size *)

(** A good chip and an image file of two pages, the local [ofg_imglen]
    holding [g] where it is declared. *)
Definition env_with_garbage (g : Z) : env :=
  {| device_opens := true; libmtd_opens := true; dev_info := Some nand_small;
     device := good_flash; stdin := []; image := Some (file_of two_pages); heap := 4096;
     uninit_ofg_imglen := g; uninit_cnt := 0 |}.

(** [nandwrite /dev/mtd0 img] and [nandwrite --input-size=1024 /dev/mtd0 img]. *)
Definition plain_run (g : Z) : outcome * list event :=
  nandwrite_main 40 (env_with_garbage g) initial_options []
    ["/dev/mtd0"; "img"]%string.

Definition sized_run (g : Z) : outcome * list event :=
  nandwrite_main 40 (env_with_garbage g) initial_options [opt_input_size 1024 true]
    ["/dev/mtd0"; "img"]%string.

(** ** The moves of the device offset *)

(** A bad block query that was answered with "bad". *)
Definition answered_bad (ev : event) : bool :=
  match ev with EvIsBad _ ret => ret =? 1 | _ => false end.

(** The states at the head of the scan loop the scan goes through, from
    [st] on: each turn is entered because the block start is not the one of
    the offset, and goes on to the loop condition. *)
Inductive scanning (fr : frame) : state -> state -> Prop :=
| scanning_refl st : scanning fr st st
| scanning_step st s s' f :
    scanning fr st s ->
    blockstart s <> blockstart_of fr (mtdoffset s) ->
    scan_turn f fr s = Next s' ->
    scanning fr st s'.

(** A chip whose erase block 0 is marked bad and whose first page write
    fails with [EIO]. *)
Definition flash_bad_then_failing : flash_device :=
  {| ioctl_filemode := fun _ => IoOk;
     mtd_is_bad := fun _ eb => if eb =? 0 then 1 else 0;
     mtd_write := fun tr _ _ _ _ _ =>
       if existsb (fun e => match e with EvWrite _ _ _ _ _ _ => true | _ => false end) tr
       then IoOk else IoErr EIO;
     mtd_erase := fun _ _ => IoOk;
     mtd_mark_bad := fun _ _ => IoOk |}.

(** The answer of the device to the page write that is issued at [st]. *)
Definition write_answer (fr : frame) (st : state) : io_result :=
  mtd_write (dev fr) (trace st)
    (wrap_int (Z.quot (mtdoffset st) (eb_size (mtd fr))))
    (wrap_int (Z.rem (mtdoffset st) (eb_size (mtd fr))))
    (page_data fr st) (page_oob fr st) (write_mode fr).

(** A run on the chip [flash_bad_then_failing]: the frame, the state after
    the first turn of the scan, the states of the first turn of the loop
    after the scan and after the fill, the state the recovery leaves, and
    the one after the scan of the second turn. *)
Definition skipping_frame : frame := frame_of flash_bad_then_failing initial_options.

Definition skipped_turn : state :=
  state_of (scan_turn 8 skipping_frame (start_of initial_options 16384)).

Definition skipping_scanned : state :=
  state_of (scan_blocks 8 skipping_frame (start_of initial_options 16384)).

Definition skipping_filled : state :=
  state_of (fill_page skipping_frame skipping_scanned).

Definition skipping_recovered : state :=
  state_of (loop_body 8 skipping_frame (start_of initial_options 16384)).

Definition skipping_rescanned : state :=
  state_of (scan_blocks 8 skipping_frame skipping_recovered).


(** * Arithmetic of the C types *)

Lemma wrap_small (w z : Z) :
  0 < w -> - 2 ^ (w - 1) <= z < 2 ^ (w - 1) -> wrap w z = z.
Proof.
  intros Hw Hz. unfold wrap.
  assert (E : 2 ^ w = 2 * 2 ^ (w - 1)).
  { replace w with (Z.succ (w - 1)) at 1 by lia. apply Z.pow_succ_r. lia. }
  rewrite Z.mod_small by lia. lia.
Qed.

Lemma wrap_int_small (z : Z) : - 2 ^ 31 <= z < 2 ^ 31 -> wrap_int z = z.
Proof. intros H. apply wrap_small; [lia | exact H]. Qed.

Lemma wrap_ll_small (z : Z) : - 2 ^ 63 <= z < 2 ^ 63 -> wrap_ll z = z.
Proof. intros H. apply wrap_small; [lia | exact H]. Qed.

Lemma to_size_t_small (z : Z) : 0 <= z < 2 ^ 64 -> to_size_t z = z.
Proof. intros H. apply Z.mod_small. exact H. Qed.

Lemma is_pow2_spec (z : Z) : is_pow2 z = true -> exists k, 0 <= k /\ z = 2 ^ k.
Proof.
  unfold is_pow2. rewrite andb_true_iff, Z.ltb_lt, Z.eqb_eq. intros [Hz Hl].
  exists (Z.log2 z). split; [apply Z.log2_nonneg |].
  destruct (Z.log2_spec z Hz) as [Lo Hi].
  destruct (Z.eq_dec z (2 ^ Z.log2 z)) as [E | N]; [exact E | exfalso].
  assert (P : 0 < 2 ^ Z.log2 z) by (apply Z.pow_pos_nonneg; [lia | apply Z.log2_nonneg]).
  assert (Hb : Z.testbit (Z.land z (z - 1)) (Z.log2 z) = true).
  { rewrite Z.land_spec, (Z.bit_log2 z Hz).
    assert (L : Z.log2 (z - 1) = Z.log2 z).
    { apply Z.log2_unique; [apply Z.log2_nonneg | lia]. }
    rewrite <- L. rewrite Z.bit_log2 by lia. reflexivity. }
  rewrite Hl, Z.bits_0 in Hb. discriminate.
Qed.

Lemma pow2_pos (k : Z) : 0 <= k -> 0 < 2 ^ k.
Proof. intros. apply Z.pow_pos_nonneg; lia. Qed.

(** [x & -2^k] clears the [k] low bits. *)
Lemma land_neg_pow2 (x k : Z) :
  0 <= k -> Z.land x (- 2 ^ k) = 2 ^ k * (x / 2 ^ k).
Proof.
  intros Hk.
  replace (- 2 ^ k) with (Z.lnot (Z.ones k)).
  - rewrite <- Z.ldiff_land, Z.ldiff_ones_r by exact Hk.
    rewrite Z.shiftl_mul_pow2, Z.shiftr_div_pow2 by exact Hk. lia.
  - rewrite Z.ones_equiv. unfold Z.lnot. lia.
Qed.

Lemma land_pow2_pred (x k : Z) :
  0 <= k -> Z.land x (2 ^ k - 1) = x mod 2 ^ k.
Proof.
  intros Hk. rewrite <- Z.land_ones by exact Hk. rewrite Z.ones_equiv.
  reflexivity.
Qed.

(** * The geometry behind [sane_frame] *)

Lemma pow2_divide (a b : Z) : 0 <= a <= b -> (2 ^ a | 2 ^ b).
Proof.
  intros H. exists (2 ^ (b - a)).
  rewrite <- Z.pow_add_r by lia. f_equal. lia.
Qed.

Lemma pow2_le_exp (a b : Z) : 0 <= a -> 0 <= b -> 2 ^ a <= 2 ^ b -> a <= b.
Proof.
  intros Ha Hb H. destruct (Z_le_gt_dec a b) as [L | G]; [exact L | exfalso].
  assert (2 ^ b < 2 ^ a) by (apply Z.pow_lt_mono_r; lia). lia.
Qed.

Lemma sane_geometry (fr : frame) :
  sane_frame fr = true -> exists q, geometry fr q.
Proof.
  unfold sane_frame. rewrite !andb_true_iff.
  rewrite !Z.leb_le, !Z.ltb_lt, !Z.eqb_eq.
  intros [[[[[[[[[[[[[[[Hp He] Hb] Hpe] Hea] Hint] Hoob] Hpl] Hmax] Hmi] Hs0] Hs1] Hcnt] Hfb] Hst] Hsp].
  destruct (is_pow2_spec _ Hp) as (p & Hp0 & Ep).
  destruct (is_pow2_spec _ He) as (e & He0 & Ee).
  destruct (is_pow2_spec _ Hb) as (b & Hb0 & Eb).
  assert (Lpe : p <= e) by (apply pow2_le_exp; lia).
  assert (Eea : ebsize_aligned fr = 2 ^ (e + b)).
  { rewrite Hea, Ee, Eb, Z.pow_add_r by lia. reflexivity. }
  assert (Pp := pow2_pos p Hp0). assert (Pe := pow2_pos e He0).
  assert (Pb := pow2_pos b Hb0).
  assert (Eq : ebsize_aligned fr = 2 ^ (e + b - p) * min_io_size (mtd fr)).
  { rewrite Eea, Ep, <- Z.pow_add_r by lia. f_equal. lia. }
  exists (2 ^ (e + b - p)).
  assert (Pq : 0 < 2 ^ (e + b - p)) by (apply pow2_pos; lia).
  constructor; try lia.
  - rewrite Ep, Ee. apply pow2_divide. lia.
  - rewrite Hmax. f_equal. rewrite Eq at 1. apply Z.div_mul. lia.
  - apply Z.mod_divide; lia.
  - intros x. unfold blockstart_of.
    replace (Z.lnot (ebsize_aligned fr) + 1) with (- ebsize_aligned fr)
      by (unfold Z.lnot; lia).
    rewrite wrap_int_small by lia.
    rewrite Eea. apply land_neg_pow2. lia.
Qed.


(** * The staging buffer *)

Lemma splice_length (off : nat) (bs m : list byte) :
  (off + length bs <= length m)%nat -> length (splice off bs m) = length m.
Proof.
  intros H. unfold splice. rewrite !length_app, length_firstn, length_skipn. lia.
Qed.

Lemma splice_nil (off : nat) (m : list byte) : splice off [] m = m.
Proof.
  unfold splice. simpl. rewrite Nat.add_0_r. apply firstn_skipn.
Qed.

Lemma firstn_exact {A : Type} (l r : list A) (n : nat) :
  n = length l -> firstn n (l ++ r) = l.
Proof.
  intros ->. rewrite firstn_app, Nat.sub_diag, firstn_all. simpl. apply app_nil_r.
Qed.

Lemma skipn_exact {A : Type} (l r : list A) (n k : nat) :
  n = (length l + k)%nat -> skipn n (l ++ r) = skipn k r.
Proof.
  intros ->. rewrite skipn_app.
  rewrite (@skipn_all2 A (length l + k) l) by lia.
  simpl. f_equal. lia.
Qed.

(** Two stores, one right behind the other, are one store. *)
Lemma splice_splice (off : nat) (a b m : list byte) :
  (off + length a <= length m)%nat ->
  splice (off + length a) b (splice off a m) = splice off (a ++ b) m.
Proof.
  intros H. unfold splice.
  assert (Lf : length (firstn off m) = off) by (rewrite length_firstn; lia).
  rewrite (app_assoc (firstn off m) a).
  rewrite (firstn_exact (firstn off m ++ a)) by (rewrite length_app; lia).
  rewrite (skipn_exact (firstn off m ++ a) _ _ (length b))
    by (rewrite length_app; lia).
  rewrite skipn_skipn, length_app, <- !app_assoc.
  do 4 f_equal. lia.
Qed.

(** What was stored is what is found. *)
Lemma splice_read (off : nat) (bs m : list byte) :
  (off + length bs <= length m)%nat ->
  firstn (length bs) (skipn off (splice off bs m)) = bs.
Proof.
  intros H. unfold splice.
  assert (Lf : length (firstn off m) = off) by (rewrite length_firstn; lia).
  rewrite (skipn_exact (firstn off m) _ _ 0) by lia.
  simpl. apply firstn_exact. reflexivity.
Qed.

(** A store leaves everything in front of it alone. *)
Lemma splice_before (off n : nat) (bs m : list byte) :
  (n <= off)%nat -> (off <= length m)%nat ->
  firstn n (splice off bs m) = firstn n m.
Proof.
  intros H Hm. unfold splice.
  rewrite firstn_app, length_firstn.
  replace (n - Nat.min off (length m))%nat with 0%nat by lia.
  simpl. rewrite app_nil_r, firstn_firstn. f_equal. lia.
Qed.

Lemma store_inside (fr : frame) (addr : Z) (bs : list byte) (st : state) :
  filebuf fr <= addr ->
  addr + Z.of_nat (length bs) <= filebuf fr + Z.of_nat (length (mem st)) ->
  store fr addr bs st = Next (set_mem (splice (Z.to_nat (addr - filebuf fr)) bs (mem st)) st).
Proof.
  intros H1 H2. unfold store.
  replace (0 <=? addr - filebuf fr) with true by (symmetry; apply Z.leb_le; lia).
  replace (addr - filebuf fr + Z.of_nat (length bs) <=? Z.of_nat (length (mem st)))
    with true by (symmetry; apply Z.leb_le; lia).
  reflexivity.
Qed.

Lemma load_inside (fr : frame) (addr n : Z) (st : state) :
  filebuf fr <= addr -> 0 <= n ->
  addr + n <= filebuf fr + Z.of_nat (length (mem st)) ->
  load fr addr n st
  = Some (firstn (Z.to_nat n) (skipn (Z.to_nat (addr - filebuf fr)) (mem st))).
Proof.
  intros H1 H2 H3. unfold load.
  replace (0 <=? addr - filebuf fr) with true by (symmetry; apply Z.leb_le; lia).
  replace (0 <=? n) with true by (symmetry; apply Z.leb_le; lia).
  replace (addr - filebuf fr + n <=? Z.of_nat (length (mem st)))
    with true by (symmetry; apply Z.leb_le; lia).
  reflexivity.
Qed.

Lemma erase_buffer_inside (fr : frame) (buffer sz : Z) (st : state) :
  0 < filebuf fr -> filebuf fr <= buffer -> 0 <= sz ->
  buffer + sz <= filebuf fr + Z.of_nat (length (mem st)) ->
  erase_buffer fr buffer sz st
  = Next (set_mem (splice (Z.to_nat (buffer - filebuf fr))
                          (repeat kEraseByte (Z.to_nat sz)) (mem st)) st).
Proof.
  intros H0 H1 H2 H3. unfold erase_buffer.
  destruct (Z.eq_dec sz 0) as [-> | N].
  - replace (0 >? 0) with false by reflexivity. rewrite andb_false_r.
    simpl. rewrite splice_nil. destruct st; reflexivity.
  - replace (buffer =? NULL) with false
      by (symmetry; apply Z.eqb_neq; unfold NULL; lia).
    replace (sz >? 0) with true by (symmetry; apply Z.gtb_lt; lia).
    simpl. apply store_inside; [exact H1 |].
    rewrite repeat_length. lia.
Qed.

(** * Reading the input *)

Lemma plain_input_bytes (src : list read_ret) :
  plain_input src = true -> total_bytes src = Z.of_nat (length (bytes_of src)).
Proof.
  induction src as [| [bs |] rest IH]; simpl; intros H; try discriminate.
  - reflexivity.
  - destruct bs as [| b bs]; [discriminate |].
    rewrite length_app, IH by exact H. lia.
Qed.

Lemma total_bytes_nonneg (src : list read_ret) : 0 <= total_bytes src.
Proof. induction src as [| [bs |] rest IH]; simpl; lia. Qed.

(** What one [read] of at most [n] bytes does. *)
Lemma sys_read_spec (src : list read_ret) (n : Z) :
  0 < n ->
  match sys_read src n with
  | (cnt, bs, rest) =>
      (cnt = -1 /\ plain_input src = false)
      \/ (0 <= cnt <= n /\ cnt = Z.of_nat (length bs)
          /\ bytes_of src = bs ++ bytes_of rest
          /\ total_bytes src = cnt + total_bytes rest
          /\ (plain_input src = true ->
              plain_input rest = true /\ (cnt = 0 -> rest = [])))
  end.
Proof.
  intros Hn. destruct src as [| [bs |] rest]; simpl.
  - right. repeat split; try lia; auto.
  - destruct (Z.leb_spec (Z.of_nat (length bs)) n) as [L | G].
    + right. repeat split; try lia.
      * destruct bs; [discriminate | assumption].
      * destruct bs; [discriminate |]. simpl in *. lia.
    + right. rewrite length_firstn. repeat split; try lia.
      * simpl. rewrite app_assoc, firstn_skipn. reflexivity.
      * simpl. rewrite length_skipn. lia.
      * destruct bs as [| b bs]; [discriminate |].
        destruct (skipn (Z.to_nat n) (b :: bs)) eqn:E; [| assumption].
        apply (f_equal (@List.length byte)) in E.
        rewrite length_skipn in E. change (length (@nil byte)) with 0%nat in E.
        exfalso. lia.
  - left. split; reflexivity.
Qed.

Lemma set_mem_same (st : state) : set_mem (mem st) st = st.
Proof. destruct st; reflexivity. Qed.

Lemma set_input_same (st : state) : set_input (input st) st = st.
Proof. destruct st; reflexivity. Qed.

(** The read loop: it never reads past [readlen], never runs out of turns,
    stores what it read behind what was already there, and stops short only
    at the end of the input. *)
Lemma read_loop_spec (n : nat) :
  forall (fr : frame) (st : state) (dst t rl c : Z),
    0 <= t -> rl < 2 ^ 64 ->
    filebuf fr <= dst + t ->
    dst + rl <= filebuf fr + Z.of_nat (length (mem st)) ->
    (Z.to_nat (rl - t) <= n)%nat ->
    match read_loop n fr st dst t rl c with
    | Next (st', t', c') =>
        exists got,
          st' = set_input (input st')
                  (set_mem (splice (Z.to_nat (dst + t - filebuf fr)) got (mem st)) st)
          /\ Z.of_nat (length got) = t' - t
          /\ (t <= rl -> t' <= rl)
          /\ bytes_of (input st) = got ++ bytes_of (input st')
          /\ total_bytes (input st) = t' - t + total_bytes (input st')
          /\ (t' < rl -> c' = 0)
          /\ (t < rl -> t' = rl -> c' <> 0)
          /\ (rl <= t -> c' = c)
          /\ (plain_input (input st) = true ->
              plain_input (input st') = true /\ (t' < rl -> input st' = []))
    | Closeall st' =>
        plain_input (input st) = false
        /\ exists i' m', st' = log (EvMsg MsgReadError) (set_input i' (set_mem m' st))
    | _ => False
    end.
Proof.
  induction n as [| n IH]; intros fr st dst t rl c Ht Hrl Hlo Hhi Hn.
  - assert (rl <= t) by lia. simpl.
    replace (t <? rl) with false by (symmetry; apply Z.ltb_ge; lia).
    exists []. rewrite splice_nil, set_mem_same, set_input_same.
    repeat split; simpl; try lia; auto.
  - simpl. destruct (Z.ltb_spec t rl) as [Hlt | Hge].
    2:{ exists []. rewrite splice_nil, set_mem_same, set_input_same.
        repeat split; simpl; try lia; auto. }
    rewrite to_size_t_small by lia.
    assert (S := sys_read_spec (input st) (rl - t) ltac:(lia)).
    destruct (sys_read (input st) (rl - t)) as [[cnt bs] rest].
    destruct S as [[-> Hnp] | (Hc & Hb & Hby & Htb & Hpl)].
    + simpl. split; [exact Hnp |]. exists rest, (mem st).
      rewrite set_mem_same. reflexivity.
    + destruct (Z.eqb_spec cnt 0) as [-> | Hc0].
      * exists []. rewrite splice_nil, set_mem_same. simpl.
        assert (bs = []) by (destruct bs; [reflexivity | simpl in Hb; lia]).
        subst bs. repeat split; try lia; auto.
        -- apply Hpl. assumption.
        -- intros _. apply Hpl; [assumption | reflexivity].
      * replace (cnt <? 0) with false by (symmetry; apply Z.ltb_ge; lia).
        rewrite store_inside by (simpl; lia).
        simpl bind. rewrite to_size_t_small by lia.
        specialize (IH fr (set_mem (splice (Z.to_nat (dst + t - filebuf fr)) bs
                                      (mem (set_input rest st)))
                             (set_input rest st))
                      dst (t + cnt) rl cnt).
        assert (Hlen : length (splice (Z.to_nat (dst + t - filebuf fr)) bs (mem st))
                       = length (mem st)) by (apply splice_length; lia).
        simpl in IH. rewrite Hlen in IH.
        specialize (IH ltac:(lia) Hrl ltac:(lia) Hhi ltac:(lia)).
        destruct (read_loop n fr _ dst (t + cnt) rl cnt) as [[[st' t'] c'] | | | st' | |];
          try contradiction.
        -- destruct IH as (got & E & Hg & Hle & Hby' & Htb' & Hc1 & Hc2 & Hc3 & Hpl').
           exists (bs ++ got).
           replace (Z.to_nat (dst + (t + cnt) - filebuf fr))
             with (Z.to_nat (dst + t - filebuf fr) + length bs)%nat in E by lia.
           rewrite splice_splice in E by lia.
           repeat split.
           ++ exact E.
           ++ rewrite length_app. lia.
           ++ lia.
           ++ rewrite Hby, Hby', app_assoc. reflexivity.
           ++ lia.
           ++ exact Hc1.
           ++ intros _ E'. destruct (Z.ltb_spec (t + cnt) rl) as [L | G].
              ** apply Hc2; assumption.
              ** rewrite Hc3 by lia. exact Hc0.
           ++ lia.
           ++ apply Hpl'. apply Hpl. assumption.
           ++ apply Hpl'. apply Hpl. assumption.
        -- destruct IH as (Hnp & i' & m' & E). split.
           ++ destruct (plain_input (input st)) eqn:P; [| reflexivity].
              destruct (Hpl eq_refl) as [P' _]. simpl in Hnp. congruence.
           ++ exists i', m'. exact E.
Qed.


(** * The bad block scan *)

Lemma set_mtdoffset_same (st : state) : set_mtdoffset (mtdoffset st) st = st.
Proof. destruct st; reflexivity. Qed.

Lemma set_baderaseblock_same (st : state) : set_baderaseblock (baderaseblock st) st = st.
Proof. destruct st; reflexivity. Qed.

Lemma set_trace_same (st : state) : set_trace (trace st) st = st.
Proof. destruct st; reflexivity. Qed.

Lemma forallb_snoc {A : Type} (f : A -> bool) (l : list A) (a : A) :
  forallb f (l ++ [a]) = forallb f l && f a.
Proof. rewrite forallb_app. simpl. rewrite andb_true_r. reflexivity. Qed.

(** Equality of two states built from the same state by the setters. *)
Ltac state_eq st :=
  destruct st;
  cbv beta iota zeta delta
    [log set_trace set_mtdoffset set_imglen set_baderaseblock set_blockstart
     set_filebuf_len set_writebuf set_oobbuf set_mem set_input state_of
     mtdoffset imglen baderaseblock blockstart filebuf_len writebuf oobbuf
     mem input trace];
  repeat rewrite <- app_assoc; cbn [app];
  repeat rewrite app_nil_r; try reflexivity.

(** Projections of states built by the setters. *)
Ltac proj :=
  cbn [mtdoffset imglen baderaseblock blockstart filebuf_len writebuf oobbuf
       mem input trace set_trace set_mtdoffset set_imglen set_baderaseblock
       set_blockstart set_filebuf_len set_writebuf set_oobbuf set_mem
       set_input log erased state_of] in *.

Section Scan.

Variable fr : frame.
Variable q : Z.
Hypothesis G : geometry fr q.

Lemma quot_aligned : Z.quot (ebsize_aligned fr) (blockalign (opts fr)) = eb_size (mtd fr).
Proof.
  rewrite (geo_aligned _ _ G). apply Z.quot_mul.
  pose proof (geo_align _ _ G). lia.
Qed.

Lemma ebsize_aligned_pos : 0 < ebsize_aligned fr.
Proof.
  rewrite (geo_aligned _ _ G).
  pose proof (geo_align _ _ G). pose proof (geo_eb _ _ G). nia.
Qed.

Lemma eb_size_small : eb_size (mtd fr) <= ebsize_aligned fr.
Proof.
  rewrite (geo_aligned _ _ G).
  pose proof (geo_align _ _ G). pose proof (geo_eb _ _ G). nia.
Qed.

(** The scan of the sub-units of one aligned block only ever moves
    [mtdoffset], to the end of the block, and only logs its queries. *)
Lemma scan_subunits_spec (fuel : nat) :
  forall (st : state) (j : Z),
    0 <= blockstart st <= 2 ^ 61 ->
    0 <= j < blockalign (opts fr) ->
    let r := scan_subunits fuel fr st (blockstart st + j * eb_size (mtd fr)) in
    exists m b tr,
      state_of r = set_mtdoffset m (set_baderaseblock b (set_trace (trace st ++ tr) st))
      /\ forallb is_scan_event tr = true
      /\ (m = mtdoffset st \/ m = blockstart st + ebsize_aligned fr)
      /\ match r with
         | Next _ => m = mtdoffset st \/ m <= size (mtd fr)
         | Closeall _ => True
         | Fuel _ => (Z.of_nat fuel < blockalign (opts fr) - j)
         | _ => False
         end
      /\ (no_bad_blocks (dev fr) -> baderaseblock st = false ->
          m = mtdoffset st /\ b = false
          /\ match r with Closeall _ => False | _ => True end).
Proof.
  pose proof ebsize_aligned_pos as Pea. pose proof eb_size_small as Peb.
  pose proof (geo_eb _ _ G) as Pe. pose proof (geo_int _ _ G) as Pi.
  pose proof (geo_align _ _ G) as Pa. pose proof (geo_aligned _ _ G) as Ea.
  induction fuel as [| fuel IH]; intros st j Hbs Hj; cbv zeta.
  - exists (mtdoffset st), (baderaseblock st), [].
    split; [state_eq st |]. cbn. repeat split; auto. lia.
  - cbn [scan_subunits].
    replace (ebsize_aligned fr =? 0) with false by (symmetry; apply Z.eqb_neq; lia).
    replace (blockalign (opts fr) =? 0) with false by (symmetry; apply Z.eqb_neq; lia).
    rewrite quot_aligned.
    set (offs := blockstart st + j * eb_size (mtd fr)).
    set (eb := wrap_int (Z.quot offs (ebsize_aligned fr))).
    set (ret := mtd_is_bad (dev fr) (trace st) eb).
    destruct (Z.ltb_spec ret 0) as [Hneg | Hnn].
    { exists (mtdoffset st), (baderaseblock st), [EvIsBad eb ret; EvMsg MsgIsBadFailed].
      split; [subst ret eb offs; state_eq st |]. cbn. repeat split; auto.
      specialize (H (trace st) eb). fold ret in H. lia. }
    (* the state after the query and the possible bad block message *)
    set (st1 := if ret =? 1 then _ else _).
    assert (H1 : exists b tr, st1 = set_baderaseblock b (set_trace (trace st ++ tr) st)
                              /\ forallb is_scan_event tr = true
                              /\ (ret <> 1 -> b = baderaseblock st)).
    { subst st1. destruct (Z.eqb_spec ret 1).
      - destruct (quiet (opts fr)).
        + exists true, [EvIsBad eb ret]. repeat split; auto. contradiction.
        + exists true, [EvIsBad eb ret; EvMsg (MsgBadBlock offs (blockalign (opts fr)) (blockstart st))].
          split; [| split; [reflexivity | contradiction]]. subst ret eb offs. clear. state_eq st.
      - exists (baderaseblock st), [EvIsBad eb ret]. split; [| split; reflexivity].
        subst ret eb offs. clear. state_eq st. }
    destruct H1 as (b1 & tr1 & E1 & Q1 & Hb1). clearbody st1. subst st1.
    assert (Hgood : no_bad_blocks (dev fr) -> baderaseblock st = false -> b1 = false).
    { intros Hg Hf. rewrite <- Hf. apply Hb1.
      specialize (Hg (trace st) eb). fold ret in Hg. lia. }
    cbn [baderaseblock set_baderaseblock blockstart set_trace].
    assert (Wbs : wrap_ll (blockstart st + ebsize_aligned fr) = blockstart st + ebsize_aligned fr)
      by (apply wrap_ll_small; lia).
    assert (Wof : wrap_ll (offs + wrap_int (eb_size (mtd fr))) = offs + eb_size (mtd fr)).
    { rewrite wrap_int_small by lia. apply wrap_ll_small. subst offs. nia. }
    rewrite Wbs.
    destruct b1.
    + (* a bad sub-unit was seen: the offset moves behind the block *)
      cbn [mtdoffset set_mtdoffset].
      destruct (Z.gtb_spec (blockstart st + ebsize_aligned fr) (size (mtd fr))) as [Hgt | Hle].
      { exists (blockstart st + ebsize_aligned fr), true, (tr1 ++ [EvMsg MsgTooManyBad]).
        split; [clear; state_eq st |].
        rewrite forallb_snoc, Q1. cbn. repeat split; auto;
          specialize (Hgood H H0); discriminate. }
      cbn [bind]. rewrite Wof. cbn [blockstart set_mtdoffset set_baderaseblock set_trace].
      rewrite Wbs.
      destruct (Z.ltb_spec (offs + eb_size (mtd fr)) (blockstart st + ebsize_aligned fr)) as [Hin | Hout].
      * assert (Hj' : 0 <= j + 1 < blockalign (opts fr)) by (subst offs; nia).
        specialize (IH (set_mtdoffset (blockstart st + ebsize_aligned fr)
                          (set_baderaseblock true (set_trace (trace st ++ tr1) st)))
                       (j + 1) Hbs Hj').
        cbv zeta in IH. cbn [blockstart set_mtdoffset set_baderaseblock set_trace] in IH.
        replace (blockstart st + (j + 1) * eb_size (mtd fr))
          with (offs + eb_size (mtd fr)) in IH by (subst offs; lia).
        destruct IH as (m & b & tr & E & Q & Hm & Hr & _).
        exists m, b, (tr1 ++ tr). rewrite E.
        split; [| split; [| split; [| split]]].
        -- clear. state_eq st.
        -- rewrite forallb_app, Q1, Q. reflexivity.
        -- right. cbn [mtdoffset set_mtdoffset] in Hm. lia.
        -- destruct (scan_subunits fuel fr _ (offs + eb_size (mtd fr))); auto.
           ++ right. cbn [mtdoffset set_mtdoffset] in Hr, Hm. lia.
           ++ lia.
        -- intros Hg Hf. specialize (Hgood Hg Hf). discriminate.
      * exists (blockstart st + ebsize_aligned fr), true, tr1.
        cbn. repeat split; auto; specialize (Hgood H H0); discriminate.
    + cbn [bind]. rewrite Wof. cbn [blockstart set_mtdoffset set_baderaseblock set_trace].
      rewrite ?Wbs.
      destruct (Z.ltb_spec (offs + eb_size (mtd fr)) (blockstart st + ebsize_aligned fr)) as [Hin | Hout].
      * assert (Hj' : 0 <= j + 1 < blockalign (opts fr)) by (subst offs; nia).
        specialize (IH (set_baderaseblock false (set_trace (trace st ++ tr1) st))
                       (j + 1) Hbs Hj').
        cbv zeta in IH. cbn [blockstart set_mtdoffset set_baderaseblock set_trace] in IH.
        replace (blockstart st + (j + 1) * eb_size (mtd fr))
          with (offs + eb_size (mtd fr)) in IH by (subst offs; lia).
        destruct IH as (m & b & tr & E & Q & Hm & Hr & Hgd).
        exists m, b, (tr1 ++ tr). rewrite E.
        split; [| split; [| split; [| split]]].
        -- clear. state_eq st.
        -- rewrite forallb_app, Q1, Q. reflexivity.
        -- exact Hm.
        -- destruct (scan_subunits fuel fr _ (offs + eb_size (mtd fr))); auto. lia.
        -- intros Hg Hf. apply Hgd; [exact Hg | reflexivity].
      * exists (mtdoffset st), false, tr1.
        split; [clear; state_eq st |]. cbn. repeat split; auto.
Qed.

Lemma mask_bounds (x : Z) :
  0 <= x ->
  0 <= blockstart_of fr x <= x
  /\ x < blockstart_of fr x + ebsize_aligned fr
  /\ (ebsize_aligned fr | blockstart_of fr x).
Proof.
  intros Hx. rewrite (geo_mask _ _ G). pose proof ebsize_aligned_pos as P.
  pose proof (Z.mul_div_le x _ P).
  pose proof (Z.mul_succ_div_gt x _ P).
  pose proof (Z.div_pos x _ Hx P).
  repeat split; try nia.
  exists (x / ebsize_aligned fr). lia.
Qed.

Lemma mask_multiple (x : Z) :
  (ebsize_aligned fr | x) -> blockstart_of fr x = x.
Proof.
  intros [k ->]. rewrite (geo_mask _ _ G). pose proof ebsize_aligned_pos as P.
  rewrite Z.div_mul by lia. lia.
Qed.

Lemma mask_next (x : Z) :
  0 <= x ->
  blockstart_of fr (blockstart_of fr x + ebsize_aligned fr)
  = blockstart_of fr x + ebsize_aligned fr.
Proof.
  intros Hx. apply mask_multiple.
  destruct (mask_bounds x Hx) as (_ & _ & [k E]). rewrite E.
  exists (k + 1). lia.
Qed.

Lemma page_divides_aligned : (min_io_size (mtd fr) | ebsize_aligned fr).
Proof. exists q. apply (geo_pages _ _ G). Qed.

Lemma pagelen_pos : min_io_size (mtd fr) <= pagelen fr.
Proof.
  rewrite (geo_pagelen _ _ G). pose proof (geo_oob _ _ G).
  destruct (writeoob (opts fr)); lia.
Qed.

(** The state a turn of the scan leaves satisfies the loop invariant again. *)
Lemma loop_inv_after_turn (st stb : state) (m : Z) (b : bool) (tr : list event) :
  loop_inv fr st ->
  mtdoffset st <= size (mtd fr) ->
  blockstart st <> blockstart_of fr (mtdoffset st) ->
  (writebuf st = filebuf fr /\ stb = st) \/ (writebuf st <> filebuf fr /\ stb = erased fr st) ->
  m = mtdoffset st \/ m = blockstart_of fr (mtdoffset st) + ebsize_aligned fr ->
  loop_inv fr (set_mtdoffset m (set_baderaseblock b
                 (set_blockstart (blockstart_of fr (mtdoffset st))
                    (set_trace tr stb)))).
Proof.
  intros (Ho & Hc) Hsz Hne Hb Hm.
  destruct Ho as (Ho1 & Ho2 & Ho3).
  pose proof (geo_start _ _ G) as Hs0.
  pose proof ebsize_aligned_pos as Pea.
  pose proof (geo_page _ _ G) as Ppg.
  pose proof (geo_filebuf _ _ G) as Pfb.
  destruct (mask_bounds (mtdoffset st) ltac:(lia)) as (Mb1 & Mb2 & Mb3).
  set (bs := blockstart_of fr (mtdoffset st)) in *.
  assert (Hbuf : buffer_ok fr stb /\ writebuf stb = filebuf fr).
  { destruct Hb as [[Hw ->] | [Hw ->]].
    - destruct Hc as [(Hn & _) | (Hbf & _)].
      + unfold NULL in Hn. lia.
      + split; assumption.
    - assert (Hlen : filebuf_len st <= Z.of_nat (length (mem st)) /\ 0 <= filebuf_len st
                     /\ Z.of_nat (length (mem st)) = filebuf_max fr).
      { destruct Hc as [(_ & _ & Hl & _ & Hmm) | ((Hmm & Hcu & Hl & _) & _)]; lia. }
      unfold buffer_ok, cursor. proj.
      rewrite splice_length by (rewrite repeat_length; lia).
      repeat split; try lia.
      + replace (filebuf fr - filebuf fr) with 0 by lia. apply Z.divide_0_r.
      + apply Z.divide_0_r. }
  destruct Hbuf as (Hbuf & Hwb).
  assert (Hcur : cursor fr stb = 0) by (unfold cursor; lia).
  split.
  - unfold offset_ok. proj. destruct Hm as [-> | ->]; repeat split; try lia.
    + exact Ho3.
    + apply Z.divide_add_r; [| apply page_divides_aligned].
      eapply Z.divide_trans; [apply page_divides_aligned | exact Mb3].
  - right. split.
    + unfold buffer_ok, cursor in *. proj. exact Hbuf.
    + destruct Hm as [-> | ->].
      * left. unfold at_block, cursor, pages_staged. proj. fold bs. split; [reflexivity |].
        unfold cursor in Hcur. rewrite Hcur.
        assert (E : mtdoffset st - Z.max bs (o_mtdoffset (opts fr)) = 0).
        { destruct Hc as [(_ & _ & _ & Hms & _) | (_ & [(Hab & _) | (Hn1 & Hn2 & Hn3 & Hn4)])].
          - lia.
          - contradiction.
          - assert (bs = mtdoffset st).
            { subst bs. apply mask_multiple. rewrite Hn1.
              apply Z.divide_add_r; [exact Hn2 | apply Z.divide_refl]. }
            lia. }
        rewrite E. reflexivity.
      * right. unfold at_new_block. proj. repeat split; try lia. exact Mb3.
Qed.

(** One turn of the scan. *)
Lemma scan_turn_spec (fuel : nat) (st : state) :
  loop_inv fr st ->
  mtdoffset st <= size (mtd fr) ->
  blockstart st <> blockstart_of fr (mtdoffset st) ->
  let r := scan_turn fuel fr st in
  exists m b tr stb,
    state_of r = set_mtdoffset m (set_baderaseblock b
                   (set_blockstart (blockstart_of fr (mtdoffset st))
                      (set_trace (trace st ++ tr) stb)))
    /\ ((writebuf st = filebuf fr /\ stb = st)
        \/ (writebuf st <> filebuf fr /\ stb = erased fr st))
    /\ forallb is_scan_event tr = true
    /\ (m = mtdoffset st \/ m = blockstart_of fr (mtdoffset st) + ebsize_aligned fr)
    /\ match r with
       | Next st' => (m = mtdoffset st \/ m <= size (mtd fr)) /\ loop_inv fr st'
       | Closeall _ => True
       | Fuel _ => Z.of_nat fuel < blockalign (opts fr)
       | _ => False
       end
    /\ (no_bad_blocks (dev fr) ->
        m = mtdoffset st /\ match r with Closeall _ => False | _ => True end).
Proof.
  intros Hinv Hsz Hne. cbv zeta.
  pose proof ebsize_aligned_pos as Pea.
  pose proof (geo_filebuf _ _ G) as Pfb.
  destruct (mask_bounds (mtdoffset st)) as (Mb1 & Mb2 & Mb3).
  { destruct Hinv as ((? & _) & _). pose proof (geo_start _ _ G). lia. }
  set (bs := blockstart_of fr (mtdoffset st)) in *.
  (* the buffer part *)
  assert (Hb : exists stb,
             ((writebuf st = filebuf fr /\ stb = st)
              \/ (writebuf st <> filebuf fr /\ stb = erased fr st))
             /\ (if writebuf (set_blockstart bs st) =? filebuf fr
                 then Next (set_blockstart bs st)
                 else
                   st1 <- erase_buffer fr (filebuf fr) (filebuf_len (set_blockstart bs st))
                            (set_blockstart bs st) ;;
                   Next (set_writebuf (filebuf fr) (set_filebuf_len 0 st1)))
                = Next (set_blockstart bs stb)).
  { proj. destruct (Z.eqb_spec (writebuf st) (filebuf fr)) as [E | N].
    - exists st. split; [left; auto | reflexivity].
    - exists (erased fr st). split; [right; auto |].
      rewrite erase_buffer_inside; proj; try lia.
      + replace (filebuf fr - filebuf fr) with 0 by lia. reflexivity.
      + destruct Hinv as (_ & [(_ & _ & Hl & _) | ((_ & Hcu & _) & _)]); lia.
      + destruct Hinv as (_ & [(_ & _ & Hl & _ & Hmm) | ((Hmm & Hcu & Hl & _) & _)]); lia. }
  destruct Hb as (stb & Hstb & Eb).
  unfold scan_turn. fold bs. rewrite Eb. cbn [bind].
  (* the message *)
  set (st2 := set_baderaseblock false (set_blockstart bs stb)).
  assert (Hmsg : exists tr0,
             (if quiet (opts fr) then Next st2
              else if ebsize_aligned fr =? 0 then Crash DivisionByZero st2
                   else Next (log (EvMsg (MsgWritingBlock
                                            (Z.quot (blockstart st2) (ebsize_aligned fr))
                                            (blockstart st2))) st2))
             = Next (set_trace (trace st ++ tr0) st2)
             /\ forallb is_scan_event tr0 = true).
  { assert (Etr : trace st2 = trace st).
    { subst st2. destruct Hstb as [[_ ->] | [_ ->]]; reflexivity. }
    destruct (quiet (opts fr)).
    - exists []. rewrite app_nil_r, <- Etr, set_trace_same. split; reflexivity.
    - replace (ebsize_aligned fr =? 0) with false by (symmetry; apply Z.eqb_neq; lia).
      eexists [_]. unfold log. rewrite Etr. split; reflexivity. }
  destruct Hmsg as (tr0 & Emsg & Q0). rewrite Emsg. cbn [bind].
  assert (Hfin : forall m b tr,
             m = mtdoffset st \/ m = bs + ebsize_aligned fr ->
             loop_inv fr (set_mtdoffset m (set_baderaseblock b
                            (set_blockstart bs (set_trace tr stb))))).
  { intros m b tr Hm. apply loop_inv_after_turn; assumption. }
  destruct (noskipbad (opts fr)).
  - exists (mtdoffset st), false, tr0, stb.
    assert (Emo : mtdoffset stb = mtdoffset st)
      by (destruct Hstb as [[_ ->] | [_ ->]]; reflexivity).
    assert (E : set_trace (trace st ++ tr0) st2
                = set_mtdoffset (mtdoffset st) (set_baderaseblock false
                    (set_blockstart bs (set_trace (trace st ++ tr0) stb)))).
    { subst st2. rewrite <- Emo. clear. state_eq stb. }
    proj. rewrite E.
    split; [reflexivity |]. split; [exact Hstb |]. split; [exact Q0 |].
    split; [left; reflexivity |].
    split; [split; [left; reflexivity | apply Hfin; left; reflexivity] |].
    intros _. split; [reflexivity | exact I].
  - pose proof (scan_subunits_spec fuel (set_trace (trace st ++ tr0) st2) 0) as S.
    cbv zeta in S. subst st2. proj.
    replace (bs + 0 * eb_size (mtd fr)) with bs in S by lia.
    destruct S as (m & b & tr & E & Q & Hm & Hr & Hgd).
    { pose proof (geo_size _ _ G). lia. }
    { pose proof (geo_align _ _ G). lia. }
    assert (Emo : mtdoffset stb = mtdoffset st)
      by (destruct Hstb as [[_ ->] | [_ ->]]; reflexivity).
    rewrite Emo in Hm, Hr, Hgd.
    exists m, b, (tr0 ++ tr), stb. rewrite E.
    split; [clear; state_eq stb |].
    split; [exact Hstb |].
    split; [rewrite forallb_app, Q0, Q; reflexivity |].
    split; [exact Hm |].
    split.
    + destruct (scan_subunits fuel fr _ bs) as [st' | | | st' | |]; auto; try lia.
      split; [exact Hr |].
      proj. subst st'.
      replace (set_mtdoffset m (set_baderaseblock b (set_trace _ _)))
        with (set_mtdoffset m (set_baderaseblock b
                (set_blockstart bs (set_trace ((trace st ++ tr0) ++ tr) stb))))
        by (clear; state_eq stb).
      apply Hfin. exact Hm.
    + intros Hg. destruct (Hgd Hg eq_refl) as (Hm' & _ & Hc). split; assumption.
Qed.

(** Once the scan condition fails, the loop invariant is the one of the
    fills. *)
Lemma loop_inv_scanned (st : state) :
  loop_inv fr st -> blockstart st = blockstart_of fr (mtdoffset st) -> fill_inv fr st.
Proof.
  intros (Ho & Hc) E.
  pose proof (geo_start _ _ G) as Hs0. pose proof ebsize_aligned_pos as Pea.
  destruct Ho as (Ho1 & Ho2 & Ho3).
  destruct (mask_bounds (mtdoffset st) ltac:(lia)) as (Mb1 & Mb2 & Mb3).
  destruct Hc as [(_ & Hn & _) | (Hb & [Ha | (Hn1 & Hn2 & _)])].
  - lia.
  - split; [repeat split; assumption | split; assumption].
  - exfalso.
    assert (M : blockstart_of fr (mtdoffset st) = mtdoffset st).
    { apply mask_multiple. rewrite Hn1.
      apply Z.divide_add_r; [exact Hn2 | apply Z.divide_refl]. }
    lia.
Qed.

Lemma scan_blocks_done (fuel : nat) (st : state) :
  blockstart st = blockstart_of fr (mtdoffset st) ->
  scan_blocks (S fuel) fr st = Next st.
Proof. intros E. cbn [scan_blocks]. rewrite E, Z.eqb_refl. reflexivity. Qed.

(** The scan as a whole: it ends with the invariant of the fills, it moves
    the offset only forward and only to the start of an aligned block, it
    keeps the staged bytes when the cursor is at the start of the buffer,
    and on a device without bad blocks it moves nothing. *)
Lemma scan_blocks_spec (fuel : nat) :
  forall st : state,
    loop_inv fr st ->
    mtdoffset st <= size (mtd fr) ->
    let r := scan_blocks fuel fr st in
    exists m b bs tr stb,
      state_of r = set_mtdoffset m (set_baderaseblock b
                     (set_blockstart bs (set_trace (trace st ++ tr) stb)))
      /\ (stb = st \/ (writebuf st <> filebuf fr /\ stb = erased fr st))
      /\ forallb is_scan_event tr = true
      /\ (m = mtdoffset st \/ (mtdoffset st < m /\ (ebsize_aligned fr | m)))
      /\ match r with
         | Next st' =>
             fill_inv fr st' /\ m <= size (mtd fr)
             /\ (st' = st \/ writebuf st' = filebuf fr)
         | Closeall _ => True
         | Fuel _ =>
             Z.of_nat fuel < size (mtd fr) / ebsize_aligned fr
                             - mtdoffset st / ebsize_aligned fr
                             + 2 + blockalign (opts fr)
         | _ => False
         end
      /\ (no_bad_blocks (dev fr) ->
          m = mtdoffset st /\ match r with Closeall _ => False | _ => True end).
Proof.
  pose proof ebsize_aligned_pos as Pea. pose proof (geo_align _ _ G) as Pa.
  pose proof (geo_start _ _ G) as Hs0.
  assert (Hnu : forall st, loop_inv fr st -> mtdoffset st <= size (mtd fr) ->
                  0 <= size (mtd fr) / ebsize_aligned fr - mtdoffset st / ebsize_aligned fr).
  { intros st _ Hsz. pose proof (Z.div_le_mono _ _ (ebsize_aligned fr) Pea Hsz). lia. }
  induction fuel as [| fuel IH]; intros st Hinv Hsz; cbv zeta.
  - exists (mtdoffset st), (baderaseblock st), (blockstart st), [], st.
    split; [clear; state_eq st |]. cbn [scan_blocks].
    split; [left; reflexivity |]. split; [reflexivity |]. split; [left; reflexivity |].
    split; [specialize (Hnu st Hinv Hsz); lia | intros _; split; [reflexivity | exact I]].
  - cbn [scan_blocks].
    destruct (Z.eqb_spec (blockstart st) (blockstart_of fr (mtdoffset st))) as [E | N].
    { exists (mtdoffset st), (baderaseblock st), (blockstart st), [], st.
      split; [clear; state_eq st |].
      split; [left; reflexivity |]. split; [reflexivity |]. split; [left; reflexivity |].
      split; [| intros _; split; [reflexivity | exact I]].
      split; [apply loop_inv_scanned; assumption |]. split; [exact Hsz | left; reflexivity]. }
    pose proof (scan_turn_spec fuel st Hinv Hsz N) as T. cbv zeta in T.
    destruct T as (m1 & b1 & tr1 & stb & E1 & Hstb & Q1 & Hm1 & Hr1 & Hg1).
    assert (Hob : stb = st \/ (writebuf st <> filebuf fr /\ stb = erased fr st)).
    { destruct Hstb as [[_ ->] | [? ->]]; auto. }
    assert (Hwb : writebuf stb = filebuf fr).
    { destruct Hstb as [[? ->] | [_ ->]]; [assumption | reflexivity]. }
    destruct (mask_bounds (mtdoffset st)) as (Mb1 & Mb2 & Mb3).
    { destruct Hinv as ((? & _) & _). lia. }
    set (bs1 := blockstart_of fr (mtdoffset st)) in *.
    assert (Hfw : m1 = mtdoffset st \/ (mtdoffset st < m1 /\ (ebsize_aligned fr | m1))).
    { destruct Hm1 as [-> | ->]; [left; reflexivity | right]. split; [lia |].
      apply Z.divide_add_r; [exact Mb3 | apply Z.divide_refl]. }
    destruct (scan_turn fuel fr st) as [st1 | | | st1 | |] eqn:ET; try contradiction.
    + (* the turn is over: the loop goes on from [st1] *)
      cbn [bind state_of] in *. destruct Hr1 as (Hle1 & Hinv1).
      assert (Hsz1 : mtdoffset st1 <= size (mtd fr)) by (rewrite E1; proj; lia).
      destruct Hm1 as [Hsame | Hskip].
      * (* no bad block: the scan condition now fails *)
        assert (Ebs : blockstart st1 = blockstart_of fr (mtdoffset st1)).
        { rewrite E1. proj. rewrite Hsame. reflexivity. }
        destruct fuel as [| fuel'].
        -- exists m1, b1, bs1, tr1, stb. cbn [scan_blocks state_of].
           split; [exact E1 |]. split; [exact Hob |]. split; [exact Q1 |].
           split; [exact Hfw |].
           split; [specialize (Hnu st Hinv Hsz); lia |].
           intros Hg. split; [apply Hg1; exact Hg | exact I].
        -- rewrite scan_blocks_done by exact Ebs.
           exists m1, b1, bs1, tr1, stb. cbn [state_of].
           split; [exact E1 |]. split; [exact Hob |]. split; [exact Q1 |].
           split; [exact Hfw |].
           split; [| intros Hg; split; [apply Hg1; exact Hg | exact I]].
           split; [apply loop_inv_scanned; assumption |].
           split; [lia |]. right. rewrite E1. proj. exact Hwb.
      * (* a bad block was skipped: the scan goes on in the next block *)
        specialize (IH st1 Hinv1 Hsz1). cbv zeta in IH.
        destruct IH as (m2 & b2 & bs2 & tr2 & stb2 & E2 & Hstb2 & Q2 & Hm2 & Hr2 & Hg2).
        assert (stb2 = st1).
        { destruct Hstb2 as [-> | [Hne _]]; [reflexivity |].
          exfalso. apply Hne. rewrite E1. proj. exact Hwb. }
        subst stb2.
        exists m2, b2, bs2, (tr1 ++ tr2), stb.
        split; [rewrite E2, E1; clear; state_eq stb |].
        split; [exact Hob |].
        split; [rewrite forallb_app, Q1, Q2; reflexivity |].
        assert (Em1 : mtdoffset st1 = m1) by (rewrite E1; reflexivity).
        rewrite Em1 in Hm2, Hg2.
        split; [destruct Hm2 as [-> | [? ?]]; [exact Hfw | right; split; [lia | assumption]] |].
        split.
        -- destruct (scan_blocks fuel fr st1) as [st2 | | | st2 | |]; auto.
           ++ destruct Hr2 as (Hf2 & Hle2 & Hw2). split; [exact Hf2 |]. split; [exact Hle2 |].
              right. destruct Hw2 as [-> | Hw2]; [| exact Hw2].
              rewrite E1. proj. exact Hwb.
           ++ rewrite Em1 in Hr2.
              assert (Ediv : m1 / ebsize_aligned fr = mtdoffset st / ebsize_aligned fr + 1).
              { rewrite Hskip. subst bs1. rewrite (geo_mask _ _ G).
                replace (ebsize_aligned fr * (mtdoffset st / ebsize_aligned fr) + ebsize_aligned fr)
                  with ((mtdoffset st / ebsize_aligned fr + 1) * ebsize_aligned fr) by lia.
                apply Z.div_mul. lia. }
              lia.
        -- intros Hg. destruct (Hg1 Hg) as (Hm1' & _). exfalso. lia.
    + exists m1, b1, bs1, tr1, stb. cbn [bind state_of] in *.
      split; [exact E1 |]. split; [exact Hob |]. split; [exact Q1 |].
      split; [exact Hfw |]. split; [exact I |]. exact Hg1.
    + exists m1, b1, bs1, tr1, stb. cbn [bind state_of] in *.
      split; [exact E1 |]. split; [exact Hob |]. split; [exact Q1 |].
      split; [exact Hfw |].
      split; [specialize (Hnu st Hinv Hsz); lia | exact Hg1].
Qed.

End Scan.


(** * The fills *)

Section Fill.

Variable fr : frame.
Variable q : Z.
Hypothesis G : geometry fr q.

(** Inside an aligned block there is room for the page at the cursor. *)
Lemma pages_staged_bound (st : state) :
  offset_ok fr st -> at_block fr st -> 0 <= pages_staged fr st <= q - 1.
Proof.
  intros (Ho1 & Ho2 & Ho3) (Hb & _).
  pose proof (geo_start _ _ G) as Hs0. pose proof (geo_page _ _ G) as Ppg.
  destruct (mask_bounds fr q G (mtdoffset st) ltac:(lia)) as (Mb1 & Mb2 & _).
  rewrite <- Hb in Mb1, Mb2. unfold pages_staged.
  rewrite (geo_pages _ _ G) in Mb2.
  split.
  - apply Z.div_pos; lia.
  - assert ((mtdoffset st - Z.max (blockstart st) (o_mtdoffset (opts fr)))
            / min_io_size (mtd fr) < q); [| lia].
    apply Z.div_lt_upper_bound; nia.
Qed.

Lemma cursor_room (st : state) :
  offset_ok fr st -> at_block fr st ->
  0 <= cursor fr st /\ cursor fr st + pagelen fr <= filebuf_max fr.
Proof.
  intros Ho Hb. pose proof (pages_staged_bound st Ho Hb) as P.
  destruct Hb as (_ & ->). rewrite (geo_max _ _ G).
  pose proof (pagelen_pos fr q G). pose proof (geo_page _ _ G). nia.
Qed.

(** What [fill_page] does, in terms of what its read loop returns. *)
Lemma fill_page_spec (st : state) :
  fill_inv fr st ->
  (cursor fr st + pagelen fr <= filebuf_len st /\ fill_page fr st = Next st)
  \/ (filebuf_len st = cursor fr st
      /\ exists got i' t c,
          read_loop (Z.to_nat (min_io_size (mtd fr))) fr st (writebuf st) 0
                    (min_io_size (mtd fr)) 0
          = Next (set_mem (splice (Z.to_nat (cursor fr st)) got (mem st))
                    (set_input i' st), t, c)
          /\ Z.of_nat (length got) = t /\ 0 <= t <= min_io_size (mtd fr)
          /\ bytes_of (input st) = got ++ bytes_of i'
          /\ total_bytes (input st) = t + total_bytes i'
          /\ (t < min_io_size (mtd fr) -> c = 0)
          /\ (t = min_io_size (mtd fr) -> c <> 0)
          /\ (plain_input (input st) = true ->
              plain_input i' = true /\ (t < min_io_size (mtd fr) -> i' = []))
          /\ let stb := set_input i' st in
             let at_cursor bs := splice (Z.to_nat (cursor fr st)) bs (mem st) in
             fill_page fr st =
               if t =? 0 then
                 Break (if ifd fr =? STDIN_FILENO then set_imglen 0 stb else stb)
               else if (t <? min_io_size (mtd fr)) && negb (pad (opts fr)) then
                 Closeall (log (EvMsg (MsgUnexpectedEof (min_io_size (mtd fr) - t)))
                             (set_mem (at_cursor got) stb))
               else
                 let stf :=
                   set_filebuf_len (filebuf_len st + min_io_size (mtd fr))
                     (set_mem (at_cursor
                                 (got ++ repeat kEraseByte
                                           (Z.to_nat (min_io_size (mtd fr) - t))))
                        stb) in
                 if negb (ifd fr =? STDIN_FILENO) then
                   let sti := set_imglen (wrap_ll (imglen st - t)) stf in
                   if ofg_imglen fr =? 0 then Crash DivisionByZero sti
                   else Next (log (EvProgress (progress_of fr (imglen sti))) sti)
                 else if c =? 0 then Next (set_imglen 0 stf)
                 else Next stf)
  \/ (filebuf_len st = cursor fr st
      /\ plain_input (input st) = false
      /\ exists i' m',
          read_loop (Z.to_nat (min_io_size (mtd fr))) fr st (writebuf st) 0
                    (min_io_size (mtd fr)) 0
          = Closeall (log (EvMsg MsgReadError) (set_input i' (set_mem m' st)))
          /\ fill_page fr st
             = Closeall (log (EvMsg MsgReadError) (set_input i' (set_mem m' st)))).
Proof.
  intros (Ho & Hb & Ha).
  destruct (cursor_room st Ho Ha) as (Hc0 & Hroom).
  destruct Hb as (Hmm & Hcu & Hl & Hd1 & Hd2).
  pose proof (pagelen_pos fr q G) as Ppl. pose proof (geo_page _ _ G) as Ppg.
  pose proof (geo_int _ _ G) as Pint. pose proof (geo_pages _ _ G) as Epg.
  pose proof (geo_q _ _ G) as Pq. pose proof (geo_filebuf _ _ G) as Pfb.
  assert (Psz : min_io_size (mtd fr) < 2 ^ 31) by nia.
  pose proof (geo_max_int _ _ G) as Pmi.
  assert (Hk : filebuf_len st = cursor fr st \/ cursor fr st + pagelen fr <= filebuf_len st).
  { destruct Hd1 as [a Ea]. destruct Hd2 as [b Eb].
    destruct (Z.eq_dec a b) as [-> | N]; [left; lia | right]. nia. }
  unfold cursor in *. unfold fill_page.
  destruct Hk as [Heq | Hge].
  2:{ left. split; [exact Hge |].
      replace (writebuf st + min_io_size (mtd fr) >? filebuf fr + filebuf_len st)
        with false by (symmetry; rewrite Z.gtb_ltb; apply Z.ltb_ge; lia).
      reflexivity. }
  replace (writebuf st + min_io_size (mtd fr) >? filebuf fr + filebuf_len st)
    with true by (symmetry; rewrite Z.gtb_ltb; apply Z.ltb_lt; lia).
  rewrite (to_size_t_small (min_io_size (mtd fr))) by lia.
  replace (filebuf fr + filebuf_len st - writebuf st) with 0 by lia.
  rewrite (to_size_t_small 0) by lia.
  pose proof (read_loop_spec (Z.to_nat (min_io_size (mtd fr))) fr st (writebuf st)
                0 (min_io_size (mtd fr)) 0) as R.
  specialize (R ltac:(lia) ltac:(lia) ltac:(lia) ltac:(lia) ltac:(lia)).
  destruct (read_loop _ fr st (writebuf st) 0 (min_io_size (mtd fr)) 0)
    as [[[st1 t] c] | | | st1 | |] eqn:ER; try contradiction.
  - right. left. split; [exact Heq |].
    destruct R as (got & E1 & Hg & Hle & Hby & Htb & Hc1 & Hc2 & _ & Hpl).
    replace (writebuf st + 0 - filebuf fr) with (writebuf st - filebuf fr) in E1 by lia.
    remember (input st1) as i' eqn:Ei. clear Ei. subst st1.
    exists got, i', t, c.
    split; [reflexivity |].
    split; [lia |]. split; [lia |]. split; [exact Hby |]. split; [lia |].
    split; [exact Hc1 |]. split; [intros; apply Hc2; lia |]. split; [exact Hpl |].
    cbv zeta. cbn [bind].
    destruct (Z.eqb_spec t 0) as [-> | Ht0].
    { assert (got = []) by (destruct got; [reflexivity | simpl in Hg; lia]).
      subst got. rewrite splice_nil, set_mem_same. reflexivity. }
    rewrite !Z.sub_0_r.
    rewrite (to_size_t_small (min_io_size (mtd fr))) by lia.
    rewrite (to_size_t_small t) by lia.
    rewrite (to_size_t_small (min_io_size (mtd fr) - t)) by lia.
    assert (Hsp : length (splice (Z.to_nat (writebuf st - filebuf fr)) got (mem st))
                  = length (mem st)) by (apply splice_length; lia).
    unfold progress_of.
    destruct (Z.ltb_spec t (min_io_size (mtd fr))) as [Hlt | Hfull].
    + destruct (pad (opts fr)); cbn [andb negb].
      * rewrite erase_buffer_inside by (proj; lia). cbn [bind]. proj.
        rewrite (to_size_t_small (filebuf_len st + min_io_size (mtd fr))) by lia.
        replace (Z.to_nat (writebuf st + t - filebuf fr))
          with (Z.to_nat (writebuf st - filebuf fr) + length got)%nat by lia.
        rewrite splice_splice by lia.
        reflexivity.
      * cbn [bind]. reflexivity.
    + assert (t = min_io_size (mtd fr)) by lia. subst t.
      cbn [andb bind]. proj.
      rewrite (to_size_t_small (filebuf_len st + min_io_size (mtd fr))) by lia.
      rewrite Z.sub_diag. cbn [Z.to_nat repeat]. rewrite app_nil_r.
      reflexivity.
  - right. right. split; [exact Heq |].
    destruct R as (Hnp & i' & m' & E). split; [exact Hnp |].
    exists i', m'. cbn [bind]. rewrite E. split; reflexivity.
Qed.

(** What [fill_oob] does, in terms of what its read loop returns. *)
Lemma fill_oob_spec (st : state) :
  half_inv fr st ->
  (writeoob (opts fr) = false /\ fill_oob fr st = Next st)
  \/ (writeoob (opts fr) = true
      /\ cursor fr st + pagelen fr <= filebuf_len st
      /\ fill_oob fr st = Next (set_oobbuf (writebuf st + min_io_size (mtd fr)) st))
  \/ (writeoob (opts fr) = true
      /\ filebuf_len st = cursor fr st + min_io_size (mtd fr)
      /\ 0 < oob_size (mtd fr)
      /\ exists got i' t c,
          read_loop (Z.to_nat (oob_size (mtd fr))) fr
                    (set_oobbuf (writebuf st + min_io_size (mtd fr)) st)
                    (writebuf st + min_io_size (mtd fr)) 0 (oob_size (mtd fr))
                    (cnt_garbage fr)
          = Next (set_mem (splice (Z.to_nat (cursor fr st + min_io_size (mtd fr)))
                             got (mem st))
                    (set_input i' (set_oobbuf (writebuf st + min_io_size (mtd fr)) st)),
                  t, c)
          /\ Z.of_nat (length got) = t /\ 0 <= t <= oob_size (mtd fr)
          /\ bytes_of (input st) = got ++ bytes_of i'
          /\ total_bytes (input st) = t + total_bytes i'
          /\ (t = oob_size (mtd fr) -> c <> 0)
          /\ (plain_input (input st) = true -> plain_input i' = true)
          /\ let stb := set_mem (splice (Z.to_nat (cursor fr st + min_io_size (mtd fr)))
                                  got (mem st))
                          (set_input i' (set_oobbuf (writebuf st + min_io_size (mtd fr)) st)) in
             fill_oob fr st =
               if t <? oob_size (mtd fr) then
                 Closeall (log (EvMsg (MsgUnexpectedEofOob (oob_size (mtd fr) - t))) stb)
               else
                 let stf := set_filebuf_len (filebuf_len st + oob_size (mtd fr)) stb in
                 if negb (ifd fr =? STDIN_FILENO)
                 then Next (set_imglen (wrap_ll (imglen st - t)) stf)
                 else if c =? 0 then Next (set_imglen 0 stf)
                 else Next stf)
  \/ (writeoob (opts fr) = true
      /\ plain_input (input st) = false
      /\ exists i' m',
          read_loop (Z.to_nat (oob_size (mtd fr))) fr
                    (set_oobbuf (writebuf st + min_io_size (mtd fr)) st)
                    (writebuf st + min_io_size (mtd fr)) 0 (oob_size (mtd fr))
                    (cnt_garbage fr)
          = Closeall (log (EvMsg MsgReadError)
                        (set_input i' (set_mem m'
                           (set_oobbuf (writebuf st + min_io_size (mtd fr)) st))))
          /\ fill_oob fr st
             = Closeall (log (EvMsg MsgReadError)
                          (set_input i' (set_mem m'
                             (set_oobbuf (writebuf st + min_io_size (mtd fr)) st))))).
Proof.
  intros (Ho & Ha & Hmm & Hc0 & Hd & Hl & Hk).
  destruct (cursor_room st Ho Ha) as (_ & Hroom).
  pose proof (geo_pagelen _ _ G) as Epl. pose proof (geo_page _ _ G) as Ppg.
  pose proof (geo_oob _ _ G) as Poob. pose proof (geo_max_int _ _ G) as Pmi.
  pose proof (geo_filebuf _ _ G) as Pfb.
  unfold cursor in *. unfold fill_oob.
  destruct (writeoob (opts fr)) eqn:Ew; [| left; split; reflexivity].
  right. proj. rewrite ?Ew in Epl.
  assert (Hk' : (filebuf_len st = writebuf st - filebuf fr + min_io_size (mtd fr)
                 /\ 0 < oob_size (mtd fr))
                \/ writebuf st - filebuf fr + pagelen fr <= filebuf_len st).
  { destruct Hk as [E | [L _]]; [| right; exact L].
    destruct (Z.eq_dec (oob_size (mtd fr)) 0); [right | left]; lia. }
  destruct Hk' as [[Heq Hpos] | Hge].
  2:{ left. split; [reflexivity |]. split; [exact Hge |].
      replace (writebuf st + min_io_size (mtd fr) + oob_size (mtd fr)
               >? filebuf fr + filebuf_len st)
        with false by (symmetry; rewrite Z.gtb_ltb; apply Z.ltb_ge; lia).
      reflexivity. }
  right.
  replace (writebuf st + min_io_size (mtd fr) + oob_size (mtd fr)
           >? filebuf fr + filebuf_len st)
    with true by (symmetry; rewrite Z.gtb_ltb; apply Z.ltb_lt; lia).
  rewrite (to_size_t_small (oob_size (mtd fr))) by lia.
  replace (filebuf fr + filebuf_len st - (writebuf st + min_io_size (mtd fr))) with 0 by lia.
  rewrite (to_size_t_small 0) by lia.
  set (st0 := set_oobbuf (writebuf st + min_io_size (mtd fr)) st).
  pose proof (read_loop_spec (Z.to_nat (oob_size (mtd fr))) fr st0
                (writebuf st + min_io_size (mtd fr)) 0 (oob_size (mtd fr))
                (cnt_garbage fr)) as R.
  specialize (R ltac:(lia) ltac:(lia) ltac:(lia) ltac:(subst st0; proj; lia) ltac:(lia)).
  destruct (read_loop _ fr st0 _ 0 (oob_size (mtd fr)) (cnt_garbage fr))
    as [[[st1 t] c] | | | st1 | |] eqn:ER; try contradiction.
  - left. split; [reflexivity |]. split; [exact Heq |]. split; [exact Hpos |].
    destruct R as (got & E1 & Hg & Hle & Hby & Htb & Hc1 & Hc2 & _ & Hpl).
    replace (writebuf st + min_io_size (mtd fr) + 0 - filebuf fr)
      with (writebuf st - filebuf fr + min_io_size (mtd fr)) in E1 by lia.
    remember (input st1) as i' eqn:Ei. clear Ei. subst st1.
    exists got, i', t, c. subst st0. proj.
    split; [reflexivity |].
    split; [lia |]. split; [lia |]. split; [exact Hby |]. split; [lia |].
    split; [intros; apply Hc2; lia |]. split; [intros P; apply Hpl; exact P |].
    cbv zeta. cbn [bind].
    rewrite !Z.sub_0_r.
    rewrite (to_size_t_small (oob_size (mtd fr))) by lia.
    rewrite (to_size_t_small t) by lia.
    destruct (Z.ltb_spec t (oob_size (mtd fr))) as [Hlt | Hfull].
    + rewrite (to_size_t_small (oob_size (mtd fr) - t)) by lia.
      reflexivity.
    + proj.
      rewrite (to_size_t_small (filebuf_len st + oob_size (mtd fr))) by lia.
      assert (Est : set_filebuf_len (filebuf_len st + oob_size (mtd fr))
                      (set_input i'
                         (set_mem (splice (Z.to_nat (writebuf st - filebuf fr
                                                     + min_io_size (mtd fr))) got (mem st))
                            (set_oobbuf (writebuf st + min_io_size (mtd fr)) st)))
                    = set_filebuf_len (filebuf_len st + oob_size (mtd fr))
                        (set_mem (splice (Z.to_nat (writebuf st - filebuf fr
                                                    + min_io_size (mtd fr))) got (mem st))
                           (set_input i'
                              (set_oobbuf (writebuf st + min_io_size (mtd fr)) st))))
        by (clear; state_eq st).
      rewrite Est. reflexivity.
  - right. split; [reflexivity |].
    destruct R as (Hnp & i' & m' & E). split; [exact Hnp |].
    exists i', m'. cbn [bind]. rewrite E. split; reflexivity.
Qed.

End Fill.


(** * The invariants through the fills *)

Lemma offset_ok_ext (fr : frame) (st st' : state) :
  mtdoffset st' = mtdoffset st -> offset_ok fr st -> offset_ok fr st'.
Proof. unfold offset_ok. intros ->. auto. Qed.

Lemma at_block_ext (fr : frame) (st st' : state) :
  mtdoffset st' = mtdoffset st -> blockstart st' = blockstart st ->
  writebuf st' = writebuf st -> at_block fr st -> at_block fr st'.
Proof.
  unfold at_block, cursor, pages_staged. intros -> -> ->. auto.
Qed.

Lemma quiet_step_refl (st : state) : quiet_step st st.
Proof.
  repeat split. exists []. rewrite app_nil_r. split; reflexivity.
Qed.

Lemma quiet_step_trans (a b c : state) :
  quiet_step a b -> quiet_step b c -> quiet_step a c.
Proof.
  intros (A1 & A2 & A3 & ta & Ta & Qa) (B1 & B2 & B3 & tb & Tb & Qb).
  repeat split; try congruence.
  exists (ta ++ tb). rewrite Tb, Ta, app_assoc, forallb_app, Qa, Qb. split; reflexivity.
Qed.

Section FillInv.

Variable fr : frame.
Variable q : Z.
Hypothesis G : geometry fr q.

(** [fill_page] keeps offsets and cursor, stages the page at the cursor, and
    can only fail on the input or on the division of the progress report. *)
Lemma fill_page_step (st : state) :
  fill_inv fr st ->
  quiet_step st (state_of (fill_page fr st))
  /\ match fill_page fr st with
     | Next st' => half_inv fr st'
     | Break st' => filebuf_len st' = cursor fr st' /\ filebuf_len st' = filebuf_len st
     | Closeall _ => True
     | Crash why _ => why = DivisionByZero /\ ofg_imglen fr = 0
                      /\ ifd fr <> STDIN_FILENO
     | _ => False
     end.
Proof.
  intros Hinv. pose proof Hinv as (Ho & Hb & Ha).
  destruct (cursor_room fr q G st Ho Ha) as (Hc0 & Hroom).
  pose proof Hb as (Hmm & Hcu & Hl & Hd1 & Hd2).
  pose proof (pagelen_pos fr q G) as Ppl. pose proof (geo_page _ _ G) as Ppg.
  destruct (fill_page_spec fr q G st Hinv)
    as [(Hge & ->) | [(Heq & got & i' & t & c & _ & Hg & Ht & _ & _ & _ & _ & _ & E)
                     | (Heq & _ & i' & m' & _ & ->)]].
  - split; [apply quiet_step_refl |].
    split; [exact Ho |]. split; [exact Ha |]. split; [exact Hmm |].
    split; [lia |]. split; [exact Hd1 |]. split; [exact Hl |].
    right. split; assumption.
  - cbv zeta in E. rewrite E. clear E.
    assert (Hsp : forall bs, Z.of_nat (length bs) <= min_io_size (mtd fr) ->
                    length (splice (Z.to_nat (cursor fr st)) bs (mem st)) = length (mem st)).
    { intros bs Hbs. apply splice_length. lia. }
    assert (Hhalf : forall il tr bs,
               Z.of_nat (length bs) <= min_io_size (mtd fr) ->
               half_inv fr (set_trace tr (set_imglen il
                              (set_filebuf_len (filebuf_len st + min_io_size (mtd fr))
                                 (set_mem (splice (Z.to_nat (cursor fr st)) bs (mem st))
                                    (set_input i' st)))))).
    { intros il tr bs Hbs. unfold half_inv. proj.
      split; [exact Ho |]. split; [exact Ha |].
      rewrite (Hsp bs Hbs). unfold cursor in *. proj.
      split; [exact Hmm |]. split; [lia |]. split; [exact Hd1 |].
      split; [lia |]. left. lia. }
    assert (Hpadlen : Z.of_nat (length (got ++ repeat kEraseByte
                                          (Z.to_nat (min_io_size (mtd fr) - t))))
                      <= min_io_size (mtd fr)).
    { rewrite length_app, repeat_length. lia. }
    destruct (Z.eqb_spec t 0) as [-> | Ht0].
    { destruct (ifd fr =? STDIN_FILENO); unfold cursor in *; proj.
      - split; [| split; lia]. repeat split. exists []. rewrite app_nil_r. split; reflexivity.
      - split; [| split; lia]. repeat split. exists []. rewrite app_nil_r. split; reflexivity. }
    destruct ((t <? min_io_size (mtd fr)) && negb (pad (opts fr))).
    { split; [| exact I]. proj. repeat split. eexists [_]. split; reflexivity. }
    destruct (Z.eqb_spec (ifd fr) STDIN_FILENO) as [Es | Ns]; cbn [negb].
    + destruct (c =? 0).
      * split.
        -- proj. repeat split. exists []. rewrite app_nil_r. split; reflexivity.
        -- specialize (Hhalf 0 (trace st) _ Hpadlen). exact Hhalf.
      * split.
        -- proj. repeat split. exists []. rewrite app_nil_r. split; reflexivity.
        -- specialize (Hhalf (imglen st) (trace st) _ Hpadlen). exact Hhalf.
    + destruct (Z.eqb_spec (ofg_imglen fr) 0) as [E0 | N0].
      * split; [| repeat split; assumption].
        proj. repeat split. exists []. rewrite app_nil_r. split; reflexivity.
      * split.
        -- proj. repeat split. eexists [_]. split; reflexivity.
        -- unfold log. proj. apply Hhalf. exact Hpadlen.
  - split; [| exact I]. proj. repeat split. eexists [_]. split; reflexivity.
Qed.

(** [fill_oob] keeps offsets and cursor, stages the OOB bytes of the page at
    the cursor, and can only fail on the input. *)
Lemma fill_oob_step (st : state) :
  half_inv fr st ->
  quiet_step st (state_of (fill_oob fr st))
  /\ match fill_oob fr st with
     | Next st' => ready_inv fr st'
     | Closeall _ => True
     | _ => False
     end.
Proof.
  intros Hinv. pose proof Hinv as (Ho & Ha & Hmm & Hc0 & Hd & Hl & Hk).
  destruct (cursor_room fr q G st Ho Ha) as (_ & Hroom).
  pose proof (geo_pagelen _ _ G) as Epl. pose proof (geo_page _ _ G) as Ppg.
  pose proof (geo_oob _ _ G) as Poob.
  assert (Hready : forall st',
             mtdoffset st' = mtdoffset st -> blockstart st' = blockstart st ->
             writebuf st' = writebuf st ->
             Z.of_nat (length (mem st')) = filebuf_max fr ->
             filebuf_len st' = cursor fr st + pagelen fr
             \/ (filebuf_len st' = filebuf_len st
                 /\ cursor fr st + pagelen fr <= filebuf_len st) ->
             (writeoob (opts fr) = true ->
              oobbuf st' = writebuf st' + min_io_size (mtd fr)) ->
             ready_inv fr st').
  { intros st' E1 E2 E3 E4 E5 E6.
    assert (Ec : cursor fr st' = cursor fr st) by (unfold cursor; congruence).
    assert (Hlen : cursor fr st + pagelen fr <= filebuf_len st'
                   /\ filebuf_len st' <= filebuf_max fr
                   /\ (pagelen fr | filebuf_len st')).
    { destruct E5 as [E5 | [E5 L]].
      - rewrite E5. split; [lia |]. split; [lia |].
        apply Z.divide_add_r; [exact Hd | apply Z.divide_refl].
      - rewrite E5. split; [lia |]. split; [lia |].
        destruct Hk as [Hk | [_ Hk]]; [| exact Hk].
        assert (pagelen fr = min_io_size (mtd fr))
          by (destruct (writeoob (opts fr)); lia).
        rewrite Hk. apply Z.divide_add_r; [exact Hd |].
        exists 1. lia. }
    split; [| split; [rewrite Ec; lia | exact E6]].
    split; [eapply offset_ok_ext; eassumption |].
    split; [| eapply at_block_ext; eassumption].
    unfold buffer_ok. rewrite Ec.
    pose proof (pagelen_pos fr q G).
    repeat split; try lia; tauto. }
  destruct (fill_oob_spec fr q G st Hinv)
    as [(Ew & ->) | [(Ew & Hge & ->)
       | [(Ew & Heq & Hpos & got & i' & t & c & _ & Hg & Ht & _ & _ & _ & _ & E)
         | (Ew & _ & i' & m' & _ & ->)]]].
  - split; [apply quiet_step_refl |]. rewrite Ew in Epl.
    apply Hready; auto; [| congruence].
    destruct Hk as [Hk | [Hk _]]; [left; lia | right; split; lia].
  - split.
    + proj. repeat split. exists []. rewrite app_nil_r. split; reflexivity.
    + apply Hready; auto.
  - cbv zeta in E. rewrite E. clear E. rewrite Ew in Epl.
    destruct (Z.ltb_spec t (oob_size (mtd fr))) as [Hlt | Hfull].
    { split; [| exact I]. proj. repeat split. eexists [_]. split; reflexivity. }
    assert (Hsp : Z.of_nat (length (splice (Z.to_nat (cursor fr st + min_io_size (mtd fr)))
                                      got (mem st))) = filebuf_max fr).
    { rewrite splice_length; lia. }
    destruct (negb (ifd fr =? STDIN_FILENO)); [| destruct (c =? 0)].
    + split.
      * proj. repeat split. exists []. rewrite app_nil_r. split; reflexivity.
      * apply Hready; proj; auto. left. lia.
    + split.
      * proj. repeat split. exists []. rewrite app_nil_r. split; reflexivity.
      * apply Hready; proj; auto. left. lia.
    + split.
      * proj. repeat split. exists []. rewrite app_nil_r. split; reflexivity.
      * apply Hready; proj; auto. left. lia.
  - split; [| exact I]. proj. repeat split. eexists [_]. split; reflexivity.
Qed.

End FillInv.


(** * The page write and the recovery *)

Section Write.

Variable fr : frame.
Variable q : Z.
Hypothesis G : geometry fr q.

(** The erase loop erases the sub-units of the aligned block one after the
    other, whatever [EIO] errors it meets. *)
Lemma erase_loop_spec (fuel : nat) :
  forall (st : state) (j : Z),
    0 <= j <= blockalign (opts fr) ->
    0 <= blockstart st <= 2 ^ 61 ->
    let r := erase_loop fuel fr st (blockstart st + j * eb_size (mtd fr)) in
    exists tr,
      state_of r = set_trace (trace st ++ tr) st
      /\ forallb is_erase_event tr = true
      /\ match r with
         | Next _ =>
             erases_of tr
             = subunits fr (blockstart st) j (Z.to_nat (blockalign (opts fr) - j))
         | Closeall _ => True
         | Fuel _ => Z.of_nat fuel < blockalign (opts fr) - j
         | _ => False
         end.
Proof.
  pose proof (ebsize_aligned_pos fr q G) as Pea. pose proof (geo_eb _ _ G) as Pe.
  pose proof (geo_int _ _ G) as Pi. pose proof (geo_aligned _ _ G) as Ea.
  pose proof (eb_size_small fr q G) as Peb.
  assert (Hend : forall st j, 0 <= j <= blockalign (opts fr) ->
                   0 <= blockstart st <= 2 ^ 61 ->
                   (blockstart st + j * eb_size (mtd fr)
                    <? wrap_ll (blockstart st + ebsize_aligned fr))
                   = (j <? blockalign (opts fr))).
  { intros st j Hj Hbs. rewrite wrap_ll_small by lia.
    destruct (Z.ltb_spec j (blockalign (opts fr))).
    - apply Z.ltb_lt. nia.
    - apply Z.ltb_ge. nia. }
  induction fuel as [| fuel IH]; intros st j Hj Hbs; cbv zeta.
  - cbn [erase_loop]. rewrite Hend by assumption.
    destruct (Z.ltb_spec j (blockalign (opts fr))) as [L | L].
    + exists []. split; [clear; state_eq st |]. split; [reflexivity | lia].
    + exists []. split; [clear; state_eq st |]. split; [reflexivity |].
      replace (blockalign (opts fr) - j) with 0 by lia. reflexivity.
  - cbn [erase_loop]. rewrite Hend by assumption.
    destruct (Z.ltb_spec j (blockalign (opts fr))) as [L | L].
    2:{ exists []. split; [clear; state_eq st |]. split; [reflexivity |].
        replace (blockalign (opts fr) - j) with 0 by lia. reflexivity. }
    replace (eb_size (mtd fr) =? 0) with false by (symmetry; apply Z.eqb_neq; lia).
    set (i := blockstart st + j * eb_size (mtd fr)).
    set (eb := wrap_int (Z.quot i (eb_size (mtd fr)))).
    set (r := mtd_erase (dev fr) (trace st) eb).
    assert (Wi : wrap_ll (i + eb_size (mtd fr)) = blockstart st + (j + 1) * eb_size (mtd fr)).
    { rewrite wrap_ll_small; subst i; nia. }
    rewrite Wi.
    assert (Hsub : subunits fr (blockstart st) j (Z.to_nat (blockalign (opts fr) - j))
                   = eb :: subunits fr (blockstart st) (j + 1)
                             (Z.to_nat (blockalign (opts fr) - (j + 1)))).
    { replace (Z.to_nat (blockalign (opts fr) - j))
        with (S (Z.to_nat (blockalign (opts fr) - (j + 1)))) by lia.
      reflexivity. }
    assert (Hrec : forall ev,
               forallb is_erase_event ev = true ->
               erases_of ev = [eb] ->
               let r' := erase_loop fuel fr (set_trace (trace st ++ ev) st)
                           (blockstart st + (j + 1) * eb_size (mtd fr)) in
               exists tr,
                 state_of r' = set_trace (trace st ++ tr) st
                 /\ forallb is_erase_event tr = true
                 /\ match r' with
                    | Next _ =>
                        erases_of tr
                        = subunits fr (blockstart st) j (Z.to_nat (blockalign (opts fr) - j))
                    | Closeall _ => True
                    | Fuel _ => Z.of_nat (S fuel) < blockalign (opts fr) - j
                    | _ => False
                    end).
    { intros ev Qev Eev. cbv zeta.
      specialize (IH (set_trace (trace st ++ ev) st) (j + 1) ltac:(lia) Hbs).
      cbv zeta in IH. proj. destruct IH as (tr & E & Q & Hr).
      exists (ev ++ tr). rewrite E.
      split; [clear; state_eq st |].
      split; [rewrite forallb_app, Qev, Q; reflexivity |].
      destruct (erase_loop fuel fr _ _); auto; try lia.
      unfold erases_of in *. rewrite flat_map_app, Eev, Hr, Hsub. reflexivity. }
    destruct r as [| e] eqn:Er.
    + specialize (Hrec [EvErase eb IoOk] eq_refl eq_refl). exact Hrec.
    + destruct (Z.eqb_spec e EIO) as [-> | Ne].
      * specialize (Hrec [EvErase eb (IoErr EIO); EvMsg MsgEraseFailure] eq_refl eq_refl).
        cbv zeta in Hrec.
        replace (log (EvMsg MsgEraseFailure) (log (EvErase eb (IoErr EIO)) st))
          with (set_trace (trace st ++ [EvErase eb (IoErr EIO); EvMsg MsgEraseFailure]) st)
          by (clear; state_eq st).
        exact Hrec.
      * exists [EvErase eb (IoErr e); EvMsg MsgEraseFailure].
        split; [clear; state_eq st |]. split; reflexivity.
Qed.

(** The recovery from a failed write: rewind, erase every sub-unit, mark the
    block bad when asked to, and move behind the aligned block. *)
Lemma recover_spec (fuel : nat) (st : state) (eb : Z) :
  0 <= blockstart st <= 2 ^ 61 ->
  let r := recover fuel fr st eb in
  exists tr,
    match r with
    | Continue st' =>
        exists tre,
          tr = erasing_msg fr st :: tre ++ mark_events fr st eb
          /\ forallb is_erase_event tre = true
          /\ erases_of tre = subunits fr (blockstart st) 0 (Z.to_nat (blockalign (opts fr)))
          /\ st' = set_mtdoffset (blockstart st + ebsize_aligned fr)
                     (set_trace (trace st ++ tr) (set_writebuf (filebuf fr) st))
    | Closeall st' =>
        st' = set_trace (trace st ++ tr) (set_writebuf (filebuf fr) st)
    | Fuel st' =>
        st' = set_trace (trace st ++ tr) (set_writebuf (filebuf fr) st)
        /\ Z.of_nat fuel < blockalign (opts fr)
    | _ => False
    end.
Proof.
  intros Hbs. cbv zeta. unfold recover.
  pose proof (ebsize_aligned_pos fr q G) as Pea. pose proof (geo_int _ _ G) as Pi.
  pose proof (geo_align _ _ G) as Pa.
  set (st1 := log _ (set_writebuf (filebuf fr) st)).
  assert (E1 : st1 = set_trace (trace st ++ [erasing_msg fr st]) (set_writebuf (filebuf fr) st)).
  { subst st1. reflexivity. }
  clearbody st1.
  pose proof (erase_loop_spec fuel st1 0 ltac:(lia)) as L. cbv zeta in L.
  replace (blockstart st1 + 0 * eb_size (mtd fr)) with (blockstart st1) in L by lia.
  specialize (L ltac:(rewrite E1; exact Hbs)).
  destruct L as (tre & E & Q & Hr).
  destruct (erase_loop fuel fr st1 (blockstart st1)) as [st2 | | | st2 | | st2];
    try contradiction; cbn [bind state_of] in *.
  - rewrite Z.sub_0_r in Hr.
    assert (E2 : st2 = set_trace (trace st ++ erasing_msg fr st :: tre)
                         (set_writebuf (filebuf fr) st)).
    { rewrite E, E1. clear. state_eq st. }
    assert (Ebs : blockstart st1 = blockstart st) by (rewrite E1; reflexivity).
    rewrite Ebs in Hr.
    clear E E1 Ebs. subst st2. proj. unfold mark_events.
    destruct (markbad (opts fr)).
    + destruct (mtd_mark_bad (dev fr) _ eb) as [| e] eqn:Em; cbn [bind]; proj.
      * rewrite wrap_ll_small by lia.
        eexists. exists tre. split; [reflexivity |]. split; [exact Q |].
        split; [exact Hr |]. clear. state_eq st.
      * exists (erasing_msg fr st :: tre
                ++ [EvMsg (MsgMarkingBad (Z.land (mtdoffset st)
                                            (wrap_int (Z.lnot (eb_size (mtd fr)) + 1))));
                    EvMarkBad eb (IoErr e); EvMsg MsgMarkBadFailure]).
        clear. state_eq st.
    + cbn [bind]. proj. rewrite wrap_ll_small by lia.
      eexists. exists tre. split; [reflexivity |]. split; [exact Q |].
      split; [exact Hr |]. rewrite app_nil_r. clear. state_eq st.
  - exists (erasing_msg fr st :: tre). rewrite E, E1. clear. state_eq st.
  - exists (erasing_msg fr st :: tre). split; [| lia]. rewrite E, E1. clear. state_eq st.
Qed.

(** The arguments of the page write. *)
Lemma write_args_ready (st : state) :
  ready_inv fr st ->
  write_args fr st = Some (page_data fr st, page_oob fr st).
Proof.
  intros ((Ho & Hb & Ha) & Hr & Hoob).
  destruct Hb as (Hmm & Hcu & Hl & _).
  pose proof (geo_pagelen _ _ G) as Epl. pose proof (geo_page _ _ G) as Ppg.
  pose proof (geo_oob _ _ G) as Poob. pose proof (geo_filebuf _ _ G) as Pfb.
  unfold write_args, page_data, page_oob, cursor in *.
  assert (Hd : load fr (writebuf st) (min_io_size (mtd fr)) st
               = Some (firstn (Z.to_nat (min_io_size (mtd fr)))
                         (skipn (Z.to_nat (writebuf st - filebuf fr)) (mem st)))).
  { apply load_inside; destruct (writeoob (opts fr)); lia. }
  rewrite Hd.
  destruct (writeoob (opts fr)) eqn:Ew.
  - rewrite (Hoob eq_refl).
    rewrite load_inside by lia.
    replace (writebuf st + min_io_size (mtd fr) - filebuf fr)
      with (writebuf st - filebuf fr + min_io_size (mtd fr)) by lia.
    destruct (onlyoob (opts fr)); reflexivity.
  - destruct (onlyoob (opts fr)); reflexivity.
Qed.

(** The device offset a page write is issued at is [mtdoffset]. *)
Lemma write_offset (m : Z) :
  0 <= m <= size (mtd fr) ->
  wrap_int (Z.quot m (eb_size (mtd fr))) * eb_size (mtd fr)
  + wrap_int (Z.rem m (eb_size (mtd fr))) = m.
Proof.
  intros Hm. pose proof (geo_eb _ _ G) as Pe. pose proof (geo_cnt _ _ G) as Pc.
  pose proof (eb_size_small fr q G). pose proof (geo_int _ _ G).
  rewrite Z.quot_div_nonneg, Z.rem_mod_nonneg by lia.
  pose proof (Z.mod_pos_bound m _ Pe).
  assert (0 <= m / eb_size (mtd fr)) by (apply Z.div_pos; lia).
  pose proof (Z.div_le_mono m (size (mtd fr)) (eb_size (mtd fr)) Pe ltac:(lia)).
  rewrite !wrap_int_small by lia.
  pose proof (Z.div_mod m (eb_size (mtd fr)) ltac:(lia)). lia.
Qed.

(** What [write_out] does, in terms of the answer of the device. *)
Lemma write_out_spec (fuel : nat) (st : state) :
  ready_inv fr st ->
  mtdoffset st <= size (mtd fr) ->
  let ret := mtd_write (dev fr) (trace st)
               (wrap_int (Z.quot (mtdoffset st) (eb_size (mtd fr))))
               (wrap_int (Z.rem (mtdoffset st) (eb_size (mtd fr))))
               (page_data fr st) (page_oob fr st) (write_mode fr) in
  let st1 := log (write_event fr st ret) st in
  write_out fuel fr st =
    match ret with
    | IoOk =>
        Continue (set_writebuf (writebuf st + pagelen fr)
                    (set_mtdoffset (mtdoffset st + min_io_size (mtd fr)) st1))
    | IoErr errno =>
        if negb (errno =? EIO) then Closeall (log (EvMsg MsgWriteFailure) st1)
        else recover fuel fr st1 (wrap_int (Z.quot (mtdoffset st) (eb_size (mtd fr))))
    end.
Proof.
  intros Hr Hsz. cbv zeta. unfold write_out.
  pose proof (geo_eb _ _ G) as Pe. pose proof (geo_page _ _ G) as Ppg.
  pose proof (geo_size _ _ G) as Ps. pose proof (geo_int _ _ G) as Pi.
  pose proof (geo_pages _ _ G) as Epg. pose proof (geo_q _ _ G) as Pq.
  replace (eb_size (mtd fr) =? 0) with false by (symmetry; apply Z.eqb_neq; lia).
  rewrite (write_args_ready st Hr).
  destruct Hr as (((Ho1 & _) & _) & _). pose proof (geo_start _ _ G).
  fold (write_event fr st (mtd_write (dev fr) (trace st)
          (wrap_int (Z.quot (mtdoffset st) (eb_size (mtd fr))))
          (wrap_int (Z.rem (mtdoffset st) (eb_size (mtd fr))))
          (page_data fr st) (page_oob fr st) (write_mode fr))).
  destruct (mtd_write _ _ _ _ _ _ _); [| reflexivity].
  proj. rewrite wrap_ll_small by nia. reflexivity.
Qed.

(** After the write the loop invariant holds again, and the device offset
    has moved forward: by a page, or behind the aligned block. *)
Lemma write_out_step (fuel : nat) (st : state) :
  ready_inv fr st ->
  mtdoffset st <= size (mtd fr) ->
  match write_out fuel fr st with
  | Continue st' =>
      loop_inv fr st'
      /\ blockstart st' = blockstart st
      /\ mtdoffset st < mtdoffset st'
      /\ (mtdoffset st' = mtdoffset st + min_io_size (mtd fr)
          \/ mtdoffset st' = blockstart st + ebsize_aligned fr)
  | Closeall st' | Fuel st' => mtdoffset st' = mtdoffset st
  | _ => False
  end.
Proof.
  intros Hr Hsz. rewrite (write_out_spec fuel st Hr Hsz). cbv zeta.
  destruct Hr as ((Ho & Hb & Ha) & Hready & _).
  destruct Ho as (Ho1 & Ho2 & Ho3).
  destruct Hb as (Hmm & Hcu & Hl & Hd1 & Hd2).
  pose proof (geo_start _ _ G) as Hs0. pose proof (geo_page _ _ G) as Ppg.
  pose proof (ebsize_aligned_pos fr q G) as Pea.
  pose proof (geo_size _ _ G) as Ps. pose proof (geo_int _ _ G) as Pi.
  pose proof (geo_start_page _ _ G) as Hsp.
  pose proof (page_divides_aligned fr q G) as Hpa.
  assert (Hpe : min_io_size (mtd fr) <= ebsize_aligned fr).
  { pose proof (geo_pages _ _ G). pose proof (geo_q _ _ G). nia. }
  pose proof (pagelen_pos fr q G) as Ppl.
  destruct (mask_bounds fr q G (mtdoffset st) ltac:(lia)) as (Mb1 & Mb2 & Mb3).
  pose proof Ha as (Hbs & Hcur). rewrite <- Hbs in Mb1, Mb2, Mb3.
  assert (Hpb : (min_io_size (mtd fr) | blockstart st))
    by (eapply Z.divide_trans; eassumption).
  set (ret := mtd_write _ _ _ _ _ _ _).
  destruct ret as [| e].
  - (* the page is written *)
    split; [| split; [reflexivity | split; [proj; lia | left; reflexivity]]].
    split.
    { unfold offset_ok. proj. split; [lia |]. split; [lia |].
      apply Z.divide_add_r; [exact Ho3 | apply Z.divide_refl]. }
    right. split.
    { unfold buffer_ok, cursor in *. proj.
      split; [exact Hmm |]. split; [lia |]. split; [exact Hl |].
      split; [| exact Hd2].
      replace (writebuf st + pagelen fr - filebuf fr)
        with (writebuf st - filebuf fr + pagelen fr) by lia.
      apply Z.divide_add_r; [exact Hd1 | apply Z.divide_refl]. }
    (* the next page is in the same aligned block, or the block is full *)
    assert (Hnext : mtdoffset st + min_io_size (mtd fr) <= blockstart st + ebsize_aligned fr).
    { destruct Ho3 as [a Ea]. destruct Hpb as [b Eb]. destruct Hpa as [c Ec].
      assert (a < b + c) by nia.
      assert ((a + 1) * min_io_size (mtd fr) <= (b + c) * min_io_size (mtd fr))
        by (apply Z.mul_le_mono_nonneg_r; lia).
      lia. }
    destruct (Z.eq_dec (mtdoffset st + min_io_size (mtd fr))
                       (blockstart st + ebsize_aligned fr)) as [Efull | Nfull].
    + right. unfold at_new_block. proj. repeat split; try lia. exact Mb3.
    + left. unfold at_block, cursor, pages_staged in *. proj.
      assert (Em : blockstart_of fr (mtdoffset st + min_io_size (mtd fr)) = blockstart st).
      { rewrite (geo_mask _ _ G). destruct Mb3 as [k Ek].
        assert ((mtdoffset st + min_io_size (mtd fr)) / ebsize_aligned fr = k); [| lia].
        symmetry.
        apply (Z.div_unique _ _ k (mtdoffset st + min_io_size (mtd fr) - blockstart st)); lia. }
      split; [symmetry; exact Em |].
      replace (writebuf st + pagelen fr - filebuf fr)
        with (writebuf st - filebuf fr + pagelen fr) by lia.
      rewrite Hcur.
      replace (mtdoffset st + min_io_size (mtd fr)
               - Z.max (blockstart st) (o_mtdoffset (opts fr)))
        with (mtdoffset st - Z.max (blockstart st) (o_mtdoffset (opts fr))
              + 1 * min_io_size (mtd fr)) by lia.
      rewrite Z.div_add by lia. lia.
  - destruct (e =? EIO); cbn [negb].
    2:{ reflexivity. }
    (* the recovery *)
    pose proof (recover_spec fuel (log (write_event fr st (IoErr e)) st)
                  (wrap_int (Z.quot (mtdoffset st) (eb_size (mtd fr))))) as R.
    cbv zeta in R. specialize (R ltac:(proj; lia)). destruct R as (tr & R).
    destruct (recover fuel fr _ _) as [| st' | | st' | | st']; try contradiction.
    + destruct R as (tre & _ & _ & _ & ->). proj.
      split; [| split; [reflexivity | split; [lia | right; reflexivity]]].
      split.
      { unfold offset_ok. proj. split; [lia |]. split; [lia |].
        apply Z.divide_add_r; assumption. }
      right. split.
      { unfold buffer_ok, cursor in *. proj.
        split; [exact Hmm |]. split; [lia |]. split; [exact Hl |].
        split; [| exact Hd2].
        replace (filebuf fr - filebuf fr) with 0 by lia. apply Z.divide_0_r. }
      right. unfold at_new_block. proj. repeat split; try lia. exact Mb3.
    + rewrite R. reflexivity.
    + destruct R as (-> & _). reflexivity.
Qed.

End Write.


(** * One turn of the write loop *)

Section Body.

Variable fr : frame.
Variable q : Z.
Hypothesis G : geometry fr q.

(** What the scan does to a state that satisfies the loop invariant, for
    the way it ends with [Next]. *)
Lemma scan_blocks_next (fuel : nat) (st st1 : state) :
  loop_inv fr st -> mtdoffset st <= size (mtd fr) ->
  scan_blocks fuel fr st = Next st1 ->
  fill_inv fr st1 /\ mtdoffset st1 <= size (mtd fr)
  /\ (mtdoffset st1 = mtdoffset st
      \/ (mtdoffset st < mtdoffset st1 /\ mtdoffset st1 = blockstart st1))
  /\ imglen st1 = imglen st /\ input st1 = input st
  /\ (exists tr, trace st1 = trace st ++ tr /\ forallb is_scan_event tr = true)
  /\ (st1 = st
      \/ (writebuf st1 = filebuf fr
          /\ (writebuf st = filebuf fr ->
              mem st1 = mem st /\ filebuf_len st1 = filebuf_len st)))
  /\ (no_bad_blocks (dev fr) -> mtdoffset st1 = mtdoffset st).
Proof.
  intros Hinv Hsz E.
  pose proof (scan_blocks_spec fr q G fuel st Hinv Hsz) as S. cbv zeta in S.
  rewrite E in S. cbn [state_of] in S.
  destruct S as (m & b & bs & tr & stb & E1 & Hstb & Q & Hm & (Hf & Hle & Hw) & Hg).
  assert (Eio : imglen stb = imglen st /\ input stb = input st)
    by (destruct Hstb as [-> | [_ ->]]; split; reflexivity).
  assert (Em : mtdoffset st1 = m) by (rewrite E1; reflexivity).
  split; [exact Hf |]. split; [lia |].
  split.
  { destruct Hm as [-> | [Hlt Hdiv]]; [left; exact Em | right]. split; [lia |].
    destruct Hf as (_ & _ & (Hbs & _)). rewrite Hbs, Em.
    symmetry. apply (mask_multiple fr q G). exact Hdiv. }
  split; [rewrite E1; proj; tauto |]. split; [rewrite E1; proj; tauto |].
  split.
  { exists tr. split; [| exact Q]. rewrite E1. proj.
    destruct Hstb as [-> | [_ ->]]; reflexivity. }
  split.
  { destruct Hw as [-> | Hw]; [left; reflexivity | right]. split; [exact Hw |].
    intros Hfb. destruct Hstb as [-> | [Hne _]]; [| contradiction].
    rewrite E1. split; reflexivity. }
  intros Hgd. rewrite Em. apply Hg. exact Hgd.
Qed.

(** A turn of the loop either reaches the page write, through the scan and
    the two fills, or ends before it without having moved the offset
    backwards. *)
Lemma loop_body_cases (fuel : nat) (st : state) :
  loop_inv fr st -> mtdoffset st < size (mtd fr) ->
  (exists st1 st2 st3,
      scan_blocks fuel fr st = Next st1
      /\ fill_page fr st1 = Next st2
      /\ fill_oob fr st2 = Next st3
      /\ loop_body fuel fr st = write_out fuel fr st3
      /\ fill_inv fr st1 /\ half_inv fr st2 /\ ready_inv fr st3
      /\ quiet_step st1 st2 /\ quiet_step st2 st3
      /\ mtdoffset st1 <= size (mtd fr))
  \/ (mtdoffset st <= mtdoffset (state_of (loop_body fuel fr st))
      /\ match loop_body fuel fr st with
         | Break _ | Closeall _ | Fuel _ => True
         | Crash why _ => why = DivisionByZero /\ ofg_imglen fr = 0
                          /\ ifd fr <> STDIN_FILENO
         | _ => False
         end).
Proof.
  intros Hinv Hsz. unfold loop_body.
  pose proof (scan_blocks_spec fr q G fuel st Hinv ltac:(lia)) as S. cbv zeta in S.
  destruct S as (m & b & bs & tr & stb & E1 & _ & _ & Hm & Hr & _).
  assert (Hmono : mtdoffset st <= m) by (destruct Hm as [-> | [? _]]; lia).
  destruct (scan_blocks fuel fr st) as [st1 | | | s | | s] eqn:Es;
    try contradiction; cbn [bind state_of] in *.
  2:{ right. rewrite E1. proj. split; [lia | exact I]. }
  2:{ right. rewrite E1. proj. split; [lia | exact I]. }
  destruct Hr as (Hf & Hle & _).
  assert (Em : mtdoffset st1 = m) by (rewrite E1; reflexivity).
  destruct (fill_page_step fr q G st1 Hf) as (Hq1 & Hp).
  destruct (fill_page fr st1) as [st2 | | s | s | why s |] eqn:Ep;
    try contradiction; cbn [bind state_of] in *.
  2:{ right. destruct Hq1 as (-> & _). split; [lia | exact I]. }
  2:{ right. destruct Hq1 as (-> & _). split; [lia | exact I]. }
  2:{ right. destruct Hq1 as (-> & _). split; [lia | exact Hp]. }
  destruct (fill_oob_step fr q G st2 Hp) as (Hq2 & Ho).
  destruct (fill_oob fr st2) as [st3 | | | s | |] eqn:Eo;
    try contradiction; cbn [bind state_of] in *.
  2:{ right. destruct Hq2 as (-> & _). destruct Hq1 as (-> & _). split; [lia | exact I]. }
  left. exists st1, st2, st3.
  split; [first [reflexivity | assumption] |].
  split; [first [reflexivity | assumption] |].
  split; [first [reflexivity | assumption] |].
  split; [first [reflexivity | rewrite ?Ep, ?Eo; reflexivity] |].
  split; [exact Hf |]. split; [exact Hp |].
  split; [exact Ho |]. split; [exact Hq1 |]. split; [exact Hq2 | lia].
Qed.

(** The loop invariant is kept, and the device offset never moves back. *)
Lemma loop_body_step (fuel : nat) (st : state) :
  loop_inv fr st -> mtdoffset st < size (mtd fr) ->
  mtdoffset st <= mtdoffset (state_of (loop_body fuel fr st))
  /\ match loop_body fuel fr st with
     | Continue st' => loop_inv fr st' /\ mtdoffset st < mtdoffset st'
     | Next _ => False
     | Crash why _ => why = DivisionByZero /\ ofg_imglen fr = 0
                      /\ ifd fr <> STDIN_FILENO
     | _ => True
     end.
Proof.
  intros Hinv Hsz.
  destruct (loop_body_cases fuel st Hinv Hsz)
    as [(st1 & st2 & st3 & Es & Ep & Eo & -> & Hf & Hh & Hr & Q1 & Q2 & Hle) | (Hm & Hc)].
  - assert (Hm3 : mtdoffset st3 = mtdoffset st1)
      by (destruct Q1 as (? & _); destruct Q2 as (? & _); congruence).
    destruct (scan_blocks_next fuel st st1 Hinv ltac:(lia) Es) as (_ & _ & Hm1 & _).
    assert (mtdoffset st <= mtdoffset st1) by (destruct Hm1 as [-> | [? _]]; lia).
    pose proof (write_out_step fr q G fuel st3 Hr ltac:(lia)) as W.
    destruct (write_out fuel fr st3) as [| st' | | s | | s]; try contradiction;
      cbn [state_of].
    + destruct W as (Hi & _ & Hlt & _). split; [lia |]. split; [exact Hi | lia].
    + split; [lia | exact I].
    + split; [lia | exact I].
  - split; [exact Hm |]. destruct (loop_body fuel fr st); auto; contradiction.
Qed.

End Body.


(** * From the start of the loop on *)

Lemma open_input_inl (e : env) (o : options) (img : string) (pl : Z)
    (tr : list event) (ifd_v imglen_v ofg : Z) (src : list read_ret) :
  open_input e o img pl tr = inl (ifd_v, imglen_v, ofg, src) ->
  (String.eqb img "-" = true -> ifd_v = STDIN_FILENO /\ src = stdin e)
  /\ (String.eqb img "-" = false -> ifd_v <> STDIN_FILENO).
Proof.
  unfold open_input. destruct (String.eqb img "-").
  - destruct (negb (inputskip o =? 0)); [discriminate |].
    intros H. inversion H. split; [auto | discriminate].
  - destruct (image e) as [f |]; [| discriminate].
    destruct (if inputsize o =? 0 then _ else _) as [[a b] |]; [| discriminate].
    destruct (_ && _); [discriminate |].
    intros H. inversion H. split; [discriminate |]. intros _. unfold STDIN_FILENO. lia.
Qed.

(** What [prelude] hands to the loop. *)
Lemma prelude_start (e : env) (o : options) (img : string) (fr : frame) (st0 : state) :
  prelude e o img = inl (fr, st0) ->
  opts fr = o /\ dev fr = device e /\ dev_info e = Some (mtd fr)
  /\ filebuf fr = heap e
  /\ at_start fr st0 /\ baderaseblock st0 = false
  /\ (forall ev, In ev (trace st0) -> modifies_flash ev = false)
  /\ (String.eqb img "-" = true -> ifd fr = STDIN_FILENO /\ input st0 = stdin e)
  /\ (String.eqb img "-" = false -> ifd fr <> STDIN_FILENO).
Proof.
  unfold prelude. intros H.
  destruct (device_opens e); [cbn [negb] in H | discriminate].
  destruct (libmtd_opens e); [cbn [negb] in H | discriminate].
  destruct (dev_info e) as [m |]; [| discriminate].
  destruct (negb (Z.land _ _ =? 0)); [discriminate |].
  destruct (if noecc o then _ else _) as [tr | tr] eqn:Etr; [| discriminate].
  assert (Htr : forall ev, In ev tr -> modifies_flash ev = false).
  { destruct (noecc o).
    - destruct (ioctl_filemode (device e) []); inversion Etr.
      intros ev [<- | []]. reflexivity.
    - inversion Etr. intros ev []. }
  destruct (open_input e o img _ tr) as [[[[ifd_v imglen_v] ofg] src] | [[? ?] ?]] eqn:Eoi;
    [| discriminate].
  destruct (open_input_inl _ _ _ _ _ _ _ _ _ Eoi) as (Hin1 & Hin2).
  destruct (_ =? 0); [discriminate |].
  destruct (_ && _); [discriminate |].
  destruct (_ >? _); [discriminate |].
  destruct (_ =? 0); [discriminate |].
  destruct (Z.ltb_spec (wrap_int (wrap_int (Z.quot (wrap_int (eb_size m * blockalign o))
                                              (min_io_size m))
                                  * wrap_int (min_io_size m
                                              + (if writeoob o then oob_size m else 0)))) 0)
    as [| Hnn]; [discriminate |].
  inversion H. subst fr st0. clear H. unfold at_start, locals0. proj. cbn [opts dev mtd filebuf ifd filebuf_max].
  repeat split; auto.
  - rewrite repeat_length. lia.
  - apply Hin1; assumption.
  - apply Hin1; assumption.
Qed.

Section Run.

Variable fr : frame.
Variable q : Z.
Hypothesis G : geometry fr q.

Lemma loop_cond_size (st : state) :
  loop_cond fr st = true -> mtdoffset st < size (mtd fr).
Proof.
  unfold loop_cond. rewrite andb_true_iff, Z.ltb_lt. tauto.
Qed.

Lemma start_loop_inv (st0 : state) :
  at_start fr st0 -> mtdoffset st0 < size (mtd fr) -> loop_inv fr st0.
Proof.
  intros H Hsz. split; [| left; exact H].
  destruct H as (_ & _ & _ & Hm & _). unfold offset_ok. rewrite Hm in *.
  pose proof (ebsize_aligned_pos fr q G).
  repeat split; try lia. apply (geo_start_page _ _ G).
Qed.

(** Every state the loop goes through after its first turn satisfies the
    loop invariant, and the device offset only grows. *)
Lemma reaches_inv (fuel : nat) (st0 st : state) :
  at_start fr st0 -> reaches fuel fr st0 st ->
  mtdoffset st0 <= mtdoffset st /\ (st = st0 \/ loop_inv fr st).
Proof.
  intros H0 R. induction R as [st | st st' st'' R IH Hc Hb].
  - split; [lia | left; reflexivity].
  - specialize (IH H0). destruct IH as (Hm & Hi).
    pose proof (loop_cond_size st' Hc) as Hsz.
    assert (Hinv : loop_inv fr st').
    { destruct Hi as [-> | Hi]; [apply start_loop_inv; assumption | exact Hi]. }
    pose proof (loop_body_step fr q G fuel st' Hinv Hsz) as S.
    rewrite Hb in S. destruct S as (_ & Hi'' & Hlt).
    split; [lia | right; exact Hi''].
Qed.

Lemma reaches_loop_inv (fuel : nat) (st0 st : state) :
  at_start fr st0 -> reaches fuel fr st0 st -> loop_cond fr st = true ->
  loop_inv fr st.
Proof.
  intros H0 R Hc. destruct (reaches_inv fuel st0 st H0 R) as (_ & [-> | Hi]).
  - apply start_loop_inv; [exact H0 | apply loop_cond_size; exact Hc].
  - exact Hi.
Qed.


End Run.


(** * The byte accounting of the staging buffer *)

(** C10, as stated, fails when the run starts inside an aligned block: the
    cursor starts at the beginning of the buffer although the block already
    holds a page. *)
Lemma spec_cursor_fails_mid_block :
  prelude (env_of good_flash (file_of two_pages) []) from_second_page "img"
  = inl (frame_of good_flash from_second_page, start_of from_second_page 16384)
  /\ sane_frame (frame_of good_flash from_second_page) = true
  /\ loop_cond (frame_of good_flash from_second_page)
               (start_of from_second_page 16384) = true
  /\ scan_blocks 8 (frame_of good_flash from_second_page)
                 (start_of from_second_page 16384) = Next after_first_scan
  /\ cursor (frame_of good_flash from_second_page) after_first_scan = 0
  /\ spec_cursor (frame_of good_flash from_second_page) after_first_scan = 512.
Proof.
  repeat split; vm_compute; reflexivity.
Qed.

(** C10, amended. At the start of every fill step the cursor offset is the
    number of pages between the device offset and the point the staging of
    the current aligned block began (the block start, or the start offset of
    the run when that lies inside the block) times the stride of a page in
    the buffer; it is the formula of the specification as soon as the
    block start is not below the start offset.  The page at the cursor
    lies inside the allocation, the filled length does not exceed it, and
    no turn of the loop accesses memory outside of it. *)
Theorem cursor_accounting (e : env) (o : options) (img : string)
    (fr : frame) (st0 st st1 : state) (fuel : nat) :
  prelude e o img = inl (fr, st0) ->
  sane_frame fr = true ->
  reaches fuel fr st0 st ->
  loop_cond fr st = true ->
  scan_blocks fuel fr st = Next st1 ->
  writebuf st1 - filebuf fr
  = (mtdoffset st1 - Z.max (blockstart st1) (o_mtdoffset o))
    / min_io_size (mtd fr) * pagelen fr
  /\ (o_mtdoffset o <= blockstart st1 -> cursor fr st1 = spec_cursor fr st1)
  /\ 0 <= writebuf st1 - filebuf fr
  /\ writebuf st1 - filebuf fr + pagelen fr <= filebuf_max fr
  /\ writebuf st1 - filebuf fr <= filebuf_len st1 <= filebuf_max fr
  /\ (forall s, loop_body fuel fr st <> Crash OutOfBounds s).
Proof.
  intros Hp Hs R Hc Es.
  destruct (sane_geometry fr Hs) as (q & G).
  destruct (prelude_start e o img fr st0 Hp) as (Eo & _ & _ & _ & H0 & _).
  pose proof (reaches_loop_inv fr q G fuel st0 st H0 R Hc) as Hinv.
  pose proof (loop_cond_size fr st Hc) as Hsz.
  destruct (scan_blocks_next fr q G fuel st st1 Hinv ltac:(lia) Es) as (Hf & _).
  destruct Hf as (Ho & Hb & Ha).
  destruct (cursor_room fr q G st1 Ho Ha) as (Hc0 & Hroom).
  destruct Ha as (_ & Hcur). destruct Hb as (_ & Hcu & Hl & _).
  unfold cursor, pages_staged, spec_cursor in *. rewrite Eo in Hcur.
  split; [exact Hcur |].
  split; [intros Hle; rewrite Hcur, Z.max_l by lia; reflexivity |].
  split; [lia |]. split; [lia |]. split; [lia |].
  intros s Ecr.
  pose proof (loop_body_step fr q G fuel st Hinv Hsz) as (_ & S).
  rewrite Ecr in S. destruct S as (S & _). discriminate.
Qed.

Lemma cursor_accounting_witness :
  writebuf after_first_scan - filebuf (frame_of good_flash from_second_page)
  = (mtdoffset after_first_scan
     - Z.max (blockstart after_first_scan) (o_mtdoffset from_second_page))
    / min_io_size (mtd (frame_of good_flash from_second_page))
    * pagelen (frame_of good_flash from_second_page).
Proof.
  refine (proj1 (cursor_accounting (env_of good_flash (file_of two_pages) [])
                   from_second_page "img" (frame_of good_flash from_second_page)
                   (start_of from_second_page 16384) (start_of from_second_page 16384)
                   after_first_scan 8 _ _ _ _ _)).
  - vm_compute. reflexivity.
  - vm_compute. reflexivity.
  - apply reaches_refl.
  - vm_compute. reflexivity.
  - vm_compute. reflexivity.
Defined.


(** * The start of the aligned block *)

(** When the aligned block size is a power of two, the mask computes the
    block start of the specification. *)
Lemma blockstart_of_floor (fr : frame) (offset : Z) :
  sane_frame fr = true -> blockstart_of fr offset = spec_blockstart fr offset.
Proof.
  intros Hs. destruct (sane_geometry fr Hs) as (q & G).
  rewrite (geo_mask _ _ G). unfold spec_blockstart. lia.
Qed.

(** C7. [process_options] accepts the block alignment 3, which the usage
    text does not list; the aligned block size is then no power of two and
    the mask does not compute the block start of the specification: at
    offset 49152, the start of the second aligned block of 3 * 16384 bytes,
    the code finds the block start 16384. *)
Theorem blockstart_of_three_blocks :
  process_options initial_options [opt_b 3; opt_s 49152 true]
                  ["/dev/mtd0"; "img"]%string
  = inl (three_blocks, "/dev/mtd0"%string, "img"%string)
  /\ prelude (env_of good_flash (file_of two_pages) []) three_blocks "img"
     = inl (frame_of good_flash three_blocks, start_of three_blocks 49152)
  /\ ebsize_aligned (frame_of good_flash three_blocks) = 3 * 16384
  /\ blockstart_of (frame_of good_flash three_blocks) 49152 = 16384
  /\ spec_blockstart (frame_of good_flash three_blocks) 49152 = 49152.
Proof.
  repeat split; vm_compute; reflexivity.
Qed.

(** * Bad sub-units of an aligned block *)

(** C3. With four erase blocks to the aligned block and the erase blocks 2
    and 3 marked bad, the scan asks four times for erase block 0 (the
    index is [offs / ebsize_aligned], not [offs / mtd.eb_size]), finds it
    good and the pages are written into the aligned block; started at
    offset 32768, the run writes its pages into the bad erase block 2. *)
Theorem bad_subunits_not_seen :
  mtd_is_bad (flash_with_bad [2; 3]) [] 2 = 1
  /\ nandwrite_main 40 (env_of (flash_with_bad [2; 3]) (file_of two_pages) [])
       initial_options [opt_b 4] ["/dev/mtd0"; "img"]%string
     = (Returned 0,
        [EvMsg (MsgWritingBlock 0 0);
         EvIsBad 0 0; EvIsBad 0 0; EvIsBad 0 0; EvIsBad 0 0;
         EvProgress 50;
         EvWrite 0 0 (Some (repeat x01 512)) None MTD_OPS_PLACE_OOB IoOk;
         EvProgress 100;
         EvWrite 0 512 (Some (repeat x02 512)) None MTD_OPS_PLACE_OOB IoOk])
  /\ nandwrite_main 40 (env_of (flash_with_bad [2; 3]) (file_of two_pages) [])
       initial_options [opt_b 4; opt_s 32768 true] ["/dev/mtd0"; "img"]%string
     = (Returned 0,
        [EvMsg (MsgWritingBlock 0 0);
         EvIsBad 0 0; EvIsBad 0 0; EvIsBad 0 0; EvIsBad 0 0;
         EvProgress 50;
         EvWrite 2 0 (Some (repeat x01 512)) None MTD_OPS_PLACE_OOB IoOk;
         EvProgress 100;
         EvWrite 2 512 (Some (repeat x02 512)) None MTD_OPS_PLACE_OOB IoOk]).
Proof.
  repeat split; vm_compute; reflexivity.
Qed.

(** * The value returned *)

Lemma closeall_returns (failed : bool) (fd_in filebuf_addr : Z) (st : state) :
  fst (closeall failed fd_in filebuf_addr st) = Returned EXIT_SUCCESS.
Proof. reflexivity. Qed.

(** C4. Once the loop is reached, [nandwrite_main] returns [EXIT_SUCCESS]
    however the loop ended (the model can also crash or run out of fuel):
    a failed run only differs by its last message.  On a chip whose first
    page write fails with [EINVAL] the run prints "Data was only partially
    written due to error" and returns 0. *)
Theorem failed_run_returns_success :
  (forall fuel fr st,
      fst (write_image fuel fr st) = Returned EXIT_SUCCESS
      \/ fst (write_image fuel fr st) = Crashed
      \/ fst (write_image fuel fr st) = OutOfFuel)
  /\ nandwrite_main 40 (env_of (flash_failing_once 22) (file_of two_pages) [])
       initial_options [] ["/dev/mtd0"; "img"]%string
     = (Returned EXIT_SUCCESS,
        [EvMsg (MsgWritingBlock 0 0); EvIsBad 0 0; EvProgress 50;
         EvWrite 0 0 (Some (repeat x01 512)) None MTD_OPS_PLACE_OOB (IoErr 22);
         EvMsg MsgWriteFailure; EvMsg MsgPartiallyWritten]).
Proof.
  split.
  - intros fuel fr st. unfold write_image.
    destruct (main_loop fuel fuel fr st); cbn [fst]; auto using closeall_returns.
  - vm_compute. reflexivity.
Qed.


(** * Configuration errors *)

(** C6, as stated, fails for an image read from standard input: its length
    is not known before the loop, so an image of one page and a half,
    written without padding, has its first page written before the
    remainder is found to be short. *)
Lemma unaligned_stdin_image_written :
  Z.of_nat (length page_and_half) mod min_io_size nand_small <> 0
  /\ pad initial_options = false
  /\ nandwrite_main 40 (env_of good_flash (file_of []) [RdData page_and_half])
       initial_options [] ["/dev/mtd0"%string]
     = (Returned 0,
        [EvMsg (MsgWritingBlock 0 0); EvIsBad 0 0;
         EvWrite 0 0 (Some (repeat x01 512)) None MTD_OPS_PLACE_OOB IoOk;
         EvMsg (MsgUnexpectedEof 256); EvMsg MsgPartiallyWritten]).
Proof.
  repeat split; vm_compute; try reflexivity. discriminate.
Qed.

Lemma open_input_trace (e : env) (o : options) (img : string) (pl : Z)
    (tr : list event) (x : Z * Z * Z * list read_ret) :
  open_input e o img pl tr = inl x -> open_input e o img pl [] = inl x.
Proof.
  unfold open_input. destruct (String.eqb img "-").
  - destruct (negb (inputskip o =? 0)); [discriminate | auto].
  - destruct (image e) as [f |]; [| discriminate].
    destruct (if inputsize o =? 0 then _ else _) as [[a b] |]; [| discriminate].
    destruct (_ && _); [discriminate | auto].
Qed.

(** Whatever ends a run before the loop leaves the flash alone and is
    reported. *)
Lemma prelude_inr (e : env) (o : options) (img : string) (r : outcome * list event) :
  prelude e o img = inr r ->
  flash_untouched (snd r) = true /\ rejected r.
Proof.
  unfold prelude, rejected, flash_untouched. intros H.
  destruct (device_opens e); cbn [negb] in H;
    [| inversion H; split; [reflexivity | left; discriminate]].
  destruct (libmtd_opens e); cbn [negb] in H;
    [| inversion H; split; [reflexivity | left; discriminate]].
  destruct (dev_info e) as [m |];
    [| inversion H; split; [reflexivity | left; discriminate]].
  destruct (negb (Z.land _ _ =? 0));
    [inversion H; split; [reflexivity | left; discriminate] |].
  destruct (if noecc o then _ else _) as [tr | tr] eqn:Etr.
  2:{ inversion H. split; [| left; discriminate]. cbn [snd].
      destruct (noecc o); [| discriminate].
      destruct (ioctl_filemode (device e) []); inversion Etr. reflexivity. }
  assert (Htr : forallb (fun ev => negb (modifies_flash ev)) tr = true).
  { destruct (noecc o).
    - destruct (ioctl_filemode (device e) []); inversion Etr. reflexivity.
    - inversion Etr. reflexivity. }
  assert (Hclose : forall ifd_v len src ev,
             flash_untouched (snd (closeall true ifd_v NULL (locals0 o len src (tr ++ ev))))
             = forallb (fun ev => negb (modifies_flash ev)) ev
             /\ In (EvMsg MsgPartiallyWritten)
                   (snd (closeall true ifd_v NULL (locals0 o len src (tr ++ ev))))).
  { intros. unfold closeall, flash_untouched. cbn [orb snd locals0 trace].
    rewrite !forallb_app, Htr. cbn. rewrite andb_true_r. split; [reflexivity |].
    apply in_or_app. right. left. reflexivity. }
  unfold flash_untouched in Hclose.
  destruct (open_input e o img _ tr) as [[[[ifd_v len] ofg] src] | [[ifd_v len] tr']] eqn:Eoi.
  2:{ inversion H. clear H.
      assert (exists ev, tr' = tr ++ ev
                         /\ forallb (fun ev => negb (modifies_flash ev)) ev = true)
        as (ev & -> & Qev).
      { unfold open_input in Eoi. destruct (String.eqb img "-").
        - destruct (negb (inputskip o =? 0)); inversion Eoi.
          eexists [_]. split; reflexivity.
        - destruct (image e) as [f |]; [| inversion Eoi; eexists [_]; split; reflexivity].
          destruct (if inputsize o =? 0 then _ else _) as [[a b] |];
            [| inversion Eoi; eexists [_]; split; reflexivity].
          destruct (_ && _); inversion Eoi. eexists [_]. split; reflexivity. }
      destruct (Hclose ifd_v len [] ev) as (Hq & Hin).
      split; [rewrite Hq; exact Qev | right; exact Hin]. }
  destruct (_ =? 0).
  { inversion H. split; [exact Htr | left; discriminate]. }
  destruct (_ && _).
  { inversion H. destruct (Hclose ifd_v len src [EvMsg MsgInputNotPageAligned]) as (Hq & Hin).
    split; [rewrite Hq; reflexivity | right; exact Hin]. }
  destruct (_ >? _).
  { inversion H. destruct (Hclose ifd_v len src [EvMsg MsgDoesNotFit]) as (Hq & Hin).
    split; [rewrite Hq; reflexivity | right; exact Hin]. }
  destruct (_ =? 0).
  { inversion H. split; [exact Htr | left; discriminate]. }
  destruct (_ <? 0); [| discriminate].
  inversion H. split; [exact Htr | left; discriminate].
Qed.

(** A configuration [preflight_error] turns down does not reach the loop. *)
Lemma prelude_preflight (e : env) (o : options) (img : string) (m : mtd_dev_info)
    (fr : frame) (st0 : state) :
  dev_info e = Some m ->
  is_pow2 (min_io_size m) = true -> min_io_size m < 2 ^ 31 ->
  prelude e o img = inl (fr, st0) ->
  negb (o_mtdoffset o mod min_io_size m =? 0)
  || match declared_imglen e o img m with
     | Some len =>
         (negb (pad o) && negb (Z.rem len (pagelen_of m o) =? 0))
         || (wrap_ll (Z.quot len (pagelen_of m o) * min_io_size m)
             >? wrap_ll (size m - o_mtdoffset o))
     | None => false
     end = false.
Proof.
  intros Hm Hp Hlt. unfold prelude. rewrite Hm. intros H.
  destruct (device_opens e); [cbn [negb] in H | discriminate].
  destruct (libmtd_opens e); [cbn [negb] in H | discriminate].
  destruct (Z.eqb_spec (Z.land (o_mtdoffset o) (wrap_int (min_io_size m - 1))) 0)
    as [Eal | ]; [cbn [negb] in H | discriminate].
  destruct (if noecc o then _ else _) as [tr | tr]; [| discriminate].
  fold (pagelen_of m o) in H.
  destruct (open_input e o img (pagelen_of m o) tr) as [[[[ifd_v len] ofg] src] | [[? ?] ?]] eqn:Eoi;
    [| discriminate].
  apply open_input_trace in Eoi. unfold declared_imglen. rewrite Eoi.
  destruct (pagelen_of m o =? 0); [discriminate |].
  destruct (negb (pad o) && negb (Z.rem len (pagelen_of m o) =? 0)); [discriminate |].
  destruct (_ >? _); [discriminate |].
  rewrite orb_false_r.
  destruct (is_pow2_spec _ Hp) as (k & Hk & Ek).
  pose proof (pow2_pos k Hk).
  rewrite wrap_int_small in Eal by lia.
  rewrite Ek, land_pow2_pred in Eal by exact Hk.
  rewrite Ek, Eal. reflexivity.
Qed.

(** C6, amended. A negative start offset, a negative block alignment,
    autoplacement together with no-ECC, padding together with OOB data
    (unless only the OOB is written), a start offset that is not
    page-aligned, an image whose declared length (the file size less the
    skipped bytes, the --input-size, one page for standard input) is not a
    multiple of the page length while padding is off, or whose whole pages
    do not fit between the start offset and the end of the device: each is
    turned down before any page write, erase or bad block mark, and the run
    is reported as failed. *)
Theorem preflight_errors_rejected (fuel : nat) (e : env) (o0 o : options)
    (args : list parsed_option) (positional : list string) (error : Z)
    (m : mtd_dev_info) :
  option_loop args (set_o_mtdoffset 0 o0) 0 = inl (o, error) ->
  dev_info e = Some m ->
  is_pow2 (min_io_size m) = true -> min_io_size m < 2 ^ 31 ->
  preflight_error e o (image_of positional) m = true ->
  flash_untouched (snd (nandwrite_main fuel e o0 args positional)) = true
  /\ rejected (nandwrite_main fuel e o0 args positional).
Proof.
  intros Hol Hm Hp Hlt Herr.
  unfold nandwrite_main, process_options. rewrite Hol.
  unfold preflight_error in Herr.
  destruct (o_mtdoffset o <? 0); [split; [reflexivity | left; discriminate] |].
  destruct (blockalign o <? 0); [split; [reflexivity | left; discriminate] |].
  destruct (autoplace o && noecc o); [split; [reflexivity | left; discriminate] |].
  destruct (negb (onlyoob o) && (pad o && writeoob o));
    [split; [reflexivity | left; discriminate] |].
  cbn [orb] in Herr.
  assert (Hpre : forall img, img = image_of positional ->
                   let r := match prelude e o img with
                            | inl (fr, st) => write_image fuel fr st
                            | inr r => r
                            end in
                   flash_untouched (snd r) = true /\ rejected r).
  { intros img ->. cbv zeta.
    destruct (prelude e o (image_of positional)) as [[fr st0] | r] eqn:Epre.
    - pose proof (prelude_preflight e o _ m fr st0 Hm Hp Hlt Epre) as Hno.
      rewrite Hno in Herr. discriminate.
    - apply (prelude_inr e o _ r Epre). }
  destruct positional as [| d [| i [| ? ?]]];
    try (split; [reflexivity | left; discriminate]).
  - destruct (error =? 0); [| split; [reflexivity | left; discriminate]].
    apply Hpre. reflexivity.
  - destruct (error =? 0); [| split; [reflexivity | left; discriminate]].
    apply Hpre. reflexivity.
Qed.

Lemma preflight_errors_rejected_witness :
  flash_untouched
    (snd (nandwrite_main 40 (env_of good_flash (file_of page_and_half) [])
            initial_options [] ["/dev/mtd0"; "img"]%string)) = true.
Proof.
  refine (proj1 (preflight_errors_rejected 40
                   (env_of good_flash (file_of page_and_half) [])
                   initial_options initial_options [] ["/dev/mtd0"; "img"]%string
                   0 nand_small _ _ _ _ _)).
  - reflexivity.
  - reflexivity.
  - reflexivity.
  - vm_compute. reflexivity.
  - vm_compute. reflexivity.
Defined.


(** * Input accounting and the progress report *)

Section Account.

Variable fr : frame.
Variable q : Z.
Hypothesis G : geometry fr q.

(** The write and the recovery leave input and buffer contents alone. *)
Lemma write_out_keeps (fuel : nat) (st st' : state) :
  ready_inv fr st -> mtdoffset st <= size (mtd fr) ->
  write_out fuel fr st = Continue st' ->
  imglen st' = imglen st /\ input st' = input st /\ mem st' = mem st
  /\ filebuf_len st' = filebuf_len st
  /\ exists r tr, trace st' = trace st ++ write_event fr st r :: tr
                  /\ forallb (fun e => negb (is_progress e) && negb (is_write e)) tr = true
                  /\ ((r = IoOk /\ tr = []
                       /\ writebuf st' = writebuf st + pagelen fr
                       /\ mtdoffset st' = mtdoffset st + min_io_size (mtd fr))
                      \/ (r = IoErr EIO /\ writebuf st' = filebuf fr
                          /\ mtdoffset st' = blockstart st + ebsize_aligned fr)).
Proof.
  intros Hr Hsz. rewrite (write_out_spec fr q G fuel st Hr Hsz). cbv zeta.
  destruct Hr as (((Ho1 & _) & _ & (Hbs & _)) & _).
  pose proof (geo_start _ _ G) as Hs0. pose proof (geo_size _ _ G) as Ps.
  destruct (mask_bounds fr q G (mtdoffset st) ltac:(lia)) as (Mb1 & _).
  rewrite <- Hbs in Mb1.
  set (ret := mtd_write _ _ _ _ _ _ _).
  destruct ret as [| e].
  - intros H. inversion H. proj. repeat split.
    exists IoOk, []. split; [reflexivity |]. split; [reflexivity |].
    left. repeat split.
  - destruct (Z.eqb_spec e EIO) as [-> | Ne]; cbn [negb]; [| discriminate].
    pose proof (recover_spec fr q G fuel (log (write_event fr st (IoErr EIO)) st)
                  (wrap_int (Z.quot (mtdoffset st) (eb_size (mtd fr))))) as R.
    cbv zeta in R. specialize (R ltac:(proj; lia)). destruct R as (tr & R).
    intros H. rewrite H in R. destruct R as (tre & -> & Q & _ & ->). proj.
    repeat split.
    exists (IoErr EIO), (erasing_msg fr (log (write_event fr st (IoErr EIO)) st)
                         :: tre ++ mark_events fr (log (write_event fr st (IoErr EIO)) st)
                                     (wrap_int (Z.quot (mtdoffset st) (eb_size (mtd fr))))).
    split; [rewrite <- app_assoc; reflexivity |].
    split; [| right; repeat split].
    cbn [forallb]. rewrite forallb_app. cbn [erasing_msg is_progress is_write negb andb].
    apply andb_true_iff. split.
    + clear - Q. induction tre as [| ev tre IH]; [reflexivity |].
      cbn [forallb] in *. apply andb_true_iff in Q. destruct Q as (Q1 & Q2).
      rewrite (IH Q2), andb_true_r. destruct ev; try discriminate; reflexivity.
    + unfold mark_events. destruct (markbad (opts fr)); reflexivity.
Qed.

(** What a fill of the page does to the input and to the image length
    that is left, for an image read from a file. *)
Lemma fill_page_file (st st' : state) :
  fill_inv fr st -> ifd fr <> STDIN_FILENO ->
  fill_page fr st = Next st' ->
  (st' = st /\ cursor fr st + pagelen fr <= filebuf_len st)
  \/ (filebuf_len st = cursor fr st
      /\ total_bytes (input st') < total_bytes (input st)
      /\ imglen st' = wrap_ll (imglen st - (total_bytes (input st) - total_bytes (input st')))
      /\ trace st' = trace st ++ [EvProgress (progress_of fr (imglen st'))]).
Proof.
  intros Hinv Hfile E.
  destruct (fill_page_spec fr q G st Hinv)
    as [(Hge & E1) | [(Heq & got & i' & t & c & _ & Hg & Ht & _ & Htb & _ & _ & _ & E1)
                     | (_ & _ & i' & m' & _ & E1)]];
    rewrite E1 in E; try discriminate.
  - injection E as <-. left. split; [reflexivity | exact Hge].
  - cbv zeta in E. right. split; [exact Heq |].
    destruct (t =? 0) eqn:Et0; [discriminate |].
    apply Z.eqb_neq in Et0.
    destruct (_ && _); [discriminate |].
    replace (ifd fr =? STDIN_FILENO) with false in E
      by (symmetry; apply Z.eqb_neq; exact Hfile).
    cbn [negb] in E. destruct (ofg_imglen fr =? 0); [discriminate |].
    inversion E. proj.
    replace (total_bytes (input st) - total_bytes i') with t by lia.
    repeat split. lia.
Qed.

Lemma fill_oob_file (st st' : state) :
  half_inv fr st -> ifd fr <> STDIN_FILENO ->
  fill_oob fr st = Next st' ->
  total_bytes (input st') <= total_bytes (input st)
  /\ (imglen st' = imglen st /\ total_bytes (input st') = total_bytes (input st)
      \/ imglen st'
         = wrap_ll (imglen st - (total_bytes (input st) - total_bytes (input st'))))
  /\ trace st' = trace st.
Proof.
  intros Hinv Hfile E.
  destruct (fill_oob_spec fr q G st Hinv)
    as [(Ew & E1) | [(Ew & Hge & E1)
       | [(Ew & Heq & Hpos & got & i' & t & c & _ & Hg & Ht & _ & Htb & _ & _ & E1)
         | (Ew & _ & i' & m' & _ & E1)]]];
    rewrite E1 in E; try discriminate.
  - inversion E. split; [lia |]. split; [left; split; reflexivity | reflexivity].
  - inversion E. proj. split; [lia |]. split; [left; split; reflexivity | reflexivity].
  - cbv zeta in E. destruct (t <? oob_size (mtd fr)); [discriminate |].
    replace (ifd fr =? STDIN_FILENO) with false in E
      by (symmetry; apply Z.eqb_neq; exact Hfile).
    cbn [negb] in E. inversion E. proj.
    replace (total_bytes (input st) - total_bytes i') with t by lia.
    split; [lia |]. split; [right; reflexivity | reflexivity].
Qed.

(** Along a run that reads a file, the image length that is left is the
    declared length less the bytes consumed. *)
Lemma loop_body_account (fuel : nat) (st st' : state) (total left_over : Z) :
  loop_inv fr st -> mtdoffset st < size (mtd fr) ->
  ifd fr <> STDIN_FILENO ->
  - 2 ^ 61 <= left_over <= 2 ^ 61 -> total <= 2 ^ 61 ->
  total_bytes (input st) <= total ->
  imglen st = left_over + total_bytes (input st) ->
  loop_body fuel fr st = Continue st' ->
  total_bytes (input st') <= total_bytes (input st)
  /\ imglen st' = left_over + total_bytes (input st').
Proof.
  intros Hinv Hsz Hfile Hlo Htot Hle Hacc Eb.
  destruct (loop_body_cases fr q G fuel st Hinv Hsz)
    as [(st1 & st2 & st3 & Es & Ep & Eo & Ew & Hf & Hh & Hr & Q1 & Q2 & Hle1) | (_ & Hx)].
  2:{ rewrite Eb in Hx. contradiction. }
  destruct (scan_blocks_next fr q G fuel st st1 Hinv ltac:(lia) Es)
    as (_ & _ & _ & Ei1 & Ein1 & _).
  assert (Hm3 : mtdoffset st3 = mtdoffset st1)
    by (destruct Q1 as (? & _); destruct Q2 as (? & _); congruence).
  rewrite Ew in Eb.
  destruct (write_out_keeps fuel st3 st' Hr ltac:(lia) Eb) as (Ei' & Ein' & _).
  pose proof (total_bytes_nonneg (input st2)). pose proof (total_bytes_nonneg (input st3)).
  destruct (fill_oob_file st2 st3 Hh Hfile Eo) as (Hle3 & Hacc3 & _).
  rewrite Ei', Ein'. rewrite <- Ein1, <- Ei1 in *.
  pose proof (total_bytes_nonneg (input st1)).
  assert (A2 : total_bytes (input st2) <= total_bytes (input st1)
               /\ imglen st2 = left_over + total_bytes (input st2)).
  { destruct (fill_page_file st1 st2 Hf Hfile Ep) as [(E21 & _) | (_ & Hlt & Ei2 & _)].
    - rewrite E21. split; [lia | exact Hacc].
    - split; [lia |]. rewrite Ei2. rewrite wrap_ll_small by lia. lia. }
  destruct A2 as (A2 & A2').
  destruct Hacc3 as [(Ei3 & Et3) | Ei3].
  - split; lia.
  - split; [lia |]. rewrite Ei3. rewrite wrap_ll_small by lia. lia.
Qed.

Lemma reaches_account (fuel : nat) (st0 st : state) (left_over : Z) :
  at_start fr st0 -> ifd fr <> STDIN_FILENO ->
  - 2 ^ 61 <= left_over <= 2 ^ 61 -> total_bytes (input st0) <= 2 ^ 61 ->
  imglen st0 = left_over + total_bytes (input st0) ->
  reaches fuel fr st0 st ->
  total_bytes (input st) <= total_bytes (input st0)
  /\ imglen st = left_over + total_bytes (input st).
Proof.
  intros H0 Hfile Hlo Htot Hacc R.
  induction R as [st | st st' st'' R IH Hc Hb].
  - split; [lia | exact Hacc].
  - specialize (IH H0 Htot Hacc). destruct IH as (Hle & Ha).
    pose proof (reaches_loop_inv fr q G fuel st st' H0 R Hc) as Hinv.
    destruct (loop_body_account fuel st' st'' (total_bytes (input st)) left_over
                Hinv (loop_cond_size fr st' Hc) Hfile Hlo Htot Hle Ha Hb) as (Hle' & Ha').
    split; [lia | exact Ha'].
Qed.

End Account.

Lemma prelude_file_length (e : env) (o : options) (img : string) (fr : frame) (st0 : state) :
  prelude e o img = inl (fr, st0) ->
  String.eqb img "-" = false -> inputsize o = 0 ->
  imglen st0 = ofg_imglen fr.
Proof.
  unfold prelude. intros H Himg Hsz.
  destruct (device_opens e); [cbn [negb] in H | discriminate].
  destruct (libmtd_opens e); [cbn [negb] in H | discriminate].
  destruct (dev_info e) as [m |]; [| discriminate].
  destruct (negb (Z.land _ _ =? 0)); [discriminate |].
  destruct (if noecc o then _ else _) as [tr | tr]; [| discriminate].
  destruct (open_input e o img _ tr) as [[[[ifd_v imglen_v] ofg] src] | [[? ?] ?]] eqn:Eoi;
    [| discriminate].
  destruct (_ =? 0); [discriminate |].
  destruct (_ && _); [discriminate |].
  destruct (_ >? _); [discriminate |].
  destruct (_ =? 0); [discriminate |].
  destruct (_ <? 0); [discriminate |].
  inversion H. subst fr st0. clear H. proj. cbn [ofg_imglen].
  unfold open_input in Eoi. rewrite Himg, Hsz in Eoi. cbn [Z.eqb] in Eoi.
  destruct (image e) as [f |]; [| discriminate].
  destruct (st_size f); [| discriminate].
  destruct (_ && _); [discriminate |].
  inversion Eoi. reflexivity.
Qed.

(** C9. With --input-size the total the percentage is computed from is a
    local that is never assigned: [ofg_imglen] is only set where the length
    is taken from the file.  For an image of two pages and --input-size=1024
    the run reports 87 and 100 when that local happens to hold 4096, where
    the same image without the option reports 50 and 100; when it holds 0
    the run ends in the division, before anything is reported. *)
Theorem progress_of_unset_total :
  filter is_progress (snd (plain_run 4096)) = [EvProgress 50; EvProgress 100]
  /\ filter is_progress (snd (sized_run 4096)) = [EvProgress 87; EvProgress 100]
  /\ fst (sized_run 0) = Crashed
  /\ filter is_progress (snd (sized_run 0)) = [].
Proof.
  repeat split; vm_compute; reflexivity.
Qed.

(** X17. For an image read from a file whose length is taken from
    the file (no --input-size), and which holds no more bytes than that
    length: after each fill of a page that consumes new input bytes the
    progress reported is [consumed * 100 / total], the multiplication done
    before the truncating division, where [total] is the file size less the
    skipped bytes; a fill that finds the page already staged, one that finds
    the input at its end, and one that fails report nothing. *)
Theorem progress_after_fill (e : env) (o : options) (img : string)
    (fr : frame) (st0 st st1 : state) (fuel : nat) :
  prelude e o img = inl (fr, st0) ->
  sane_frame fr = true ->
  String.eqb img "-" = false -> inputsize o = 0 ->
  0 < ofg_imglen fr ->
  total_bytes (input st0) <= ofg_imglen fr -> ofg_imglen fr <= 2 ^ 56 ->
  reaches fuel fr st0 st ->
  loop_cond fr st = true ->
  scan_blocks fuel fr st = Next st1 ->
  match fill_page fr st1 with
  | Next st2 =>
      (consumed st0 st2 = consumed st0 st1 /\ trace st2 = trace st1)
      \/ (consumed st0 st1 < consumed st0 st2
          /\ trace st2
             = trace st1 ++ [EvProgress (Z.quot (consumed st0 st2 * 100) (ofg_imglen fr))])
  | Break st2 => consumed st0 st2 = consumed st0 st1 /\ trace st2 = trace st1
  | Closeall st2 => exists m, trace st2 = trace st1 ++ [EvMsg m]
  | _ => False
  end.
Proof.
  intros Hp Hs Himg Hsz Hofg Htot Hmax R Hc Es.
  destruct (sane_geometry fr Hs) as (q & G).
  destruct (prelude_start e o img fr st0 Hp) as (_ & _ & _ & _ & H0 & _ & _ & _ & Hfile).
  specialize (Hfile Himg).
  pose proof (prelude_file_length e o img fr st0 Hp Himg Hsz) as Hlen.
  pose proof (reaches_loop_inv fr q G fuel st0 st H0 R Hc) as Hinv.
  pose proof (loop_cond_size fr st Hc) as Hsize.
  pose proof (total_bytes_nonneg (input st0)) as Hnn0.
  destruct (reaches_account fr q G fuel st0 st (ofg_imglen fr - total_bytes (input st0))
              H0 Hfile ltac:(lia) ltac:(lia) ltac:(lia) R) as (Hle & Hacc).
  destruct (scan_blocks_next fr q G fuel st st1 Hinv ltac:(lia) Es)
    as (Hf & _ & _ & Ei1 & Ein1 & _).
  unfold consumed. rewrite <- Ei1, <- Ein1 in *.
  pose proof (total_bytes_nonneg (input st1)) as Hnn1.
  destruct (fill_page_spec fr q G st1 Hf)
    as [(Hge & ->) | [(Heq & got & i' & t & c & _ & Hg & Ht & _ & Htb & _ & _ & _ & ->)
                     | (_ & _ & i' & m' & _ & ->)]].
  - left. split; reflexivity.
  - cbv zeta. pose proof (total_bytes_nonneg i') as Hnn'.
    destruct (Z.eqb_spec t 0) as [-> | Ht0].
    { destruct (ifd fr =? STDIN_FILENO); proj; split; try reflexivity; lia. }
    destruct (_ && _).
    { eexists. reflexivity. }
    replace (ifd fr =? STDIN_FILENO) with false
      by (symmetry; apply Z.eqb_neq; exact Hfile).
    cbn [negb].
    replace (ofg_imglen fr =? 0) with false by (symmetry; apply Z.eqb_neq; lia).
    right. proj. split; [lia |].
    do 3 f_equal. unfold progress_of.
    rewrite (wrap_ll_small (imglen st1 - t)) by lia.
    replace (ofg_imglen fr - (imglen st1 - t))
      with (total_bytes (input st0) - total_bytes i') by lia.
    rewrite (wrap_ll_small (total_bytes (input st0) - total_bytes i')) by lia.
    rewrite wrap_ll_small by lia.
    rewrite Z.quot_div_nonneg by lia.
    assert (0 <= (total_bytes (input st0) - total_bytes i') * 100 / ofg_imglen fr <= 100).
    { split; [apply Z.div_pos; lia |].
      apply Z.div_le_upper_bound; lia. }
    apply wrap_int_small. lia.
  - eexists. reflexivity.
Qed.

Lemma progress_after_fill_witness :
  match fill_page (frame_of good_flash initial_options) after_scan_plain with
  | Next st2 =>
      (consumed (start_of initial_options 16384) st2
       = consumed (start_of initial_options 16384) after_scan_plain
       /\ trace st2 = trace after_scan_plain)
      \/ (consumed (start_of initial_options 16384) after_scan_plain
          < consumed (start_of initial_options 16384) st2
          /\ trace st2
             = trace after_scan_plain
               ++ [EvProgress (Z.quot (consumed (start_of initial_options 16384) st2 * 100)
                                      (ofg_imglen (frame_of good_flash initial_options)))])
  | Break st2 =>
      consumed (start_of initial_options 16384) st2
      = consumed (start_of initial_options 16384) after_scan_plain
      /\ trace st2 = trace after_scan_plain
  | Closeall st2 => exists m, trace st2 = trace after_scan_plain ++ [EvMsg m]
  | _ => False
  end.
Proof.
  refine (progress_after_fill (env_of good_flash (file_of two_pages) [])
            initial_options "img" (frame_of good_flash initial_options)
            (start_of initial_options 16384) (start_of initial_options 16384)
            after_scan_plain 8 _ _ _ _ _ _ _ _ _ _).
  - vm_compute. reflexivity.
  - vm_compute. reflexivity.
  - reflexivity.
  - reflexivity.
  - reflexivity.
  - vm_compute. discriminate.
  - vm_compute. discriminate.
  - apply reaches_refl.
  - vm_compute. reflexivity.
  - vm_compute. reflexivity.
Defined.


(** * Short reads *)

(** C5, as stated, fails when padding is combined with OOB data (which
    [process_options] allows with -O): the short page is padded, but the
    OOB bytes that must follow are missing from the input, the run fails
    and the padded page is never written. *)
Lemma padded_page_not_written_with_oob :
  option_loop [opt_p; opt_O] (set_o_mtdoffset 0 initial_options) 0
  = inl ({| o_mtdoffset := 0; inputskip := 0; inputsize := 0; quiet := false;
            writeoob := true; onlyoob := true; markbad := false; noecc := false;
            autoplace := false; noskipbad := false; pad := true; blockalign := 1 |}, 0)
  /\ 0 < Z.of_nat (length short_image) < min_io_size nand_small
  /\ nandwrite_main 40 (env_of good_flash (file_of short_image) [])
       initial_options [opt_p; opt_O] ["/dev/mtd0"; "img"]%string
     = (Returned 0,
        [EvMsg (MsgWritingBlock 0 0); EvIsBad 0 0; EvProgress 100;
         EvMsg (MsgUnexpectedEofOob 16); EvMsg MsgPartiallyWritten]).
Proof.
  repeat split; vm_compute; reflexivity.
Qed.

Section Short.

Variable fr : frame.
Variable q : Z.
Hypothesis G : geometry fr q.

(** Whatever the device answers, the turn that reaches the write logs it
    first. *)
Lemma write_out_logs (fuel : nat) (st : state) :
  ready_inv fr st -> mtdoffset st <= size (mtd fr) ->
  exists r tr,
    trace (state_of (write_out fuel fr st)) = trace st ++ write_event fr st r :: tr.
Proof.
  intros Hr Hsz. rewrite (write_out_spec fr q G fuel st Hr Hsz). cbv zeta.
  destruct Hr as (((Ho1 & _) & _ & (Hbs & _)) & _).
  pose proof (geo_start _ _ G) as Hs0. pose proof (geo_size _ _ G) as Ps.
  destruct (mask_bounds fr q G (mtdoffset st) ltac:(lia)) as (Mb1 & _).
  rewrite <- Hbs in Mb1.
  set (ret := mtd_write _ _ _ _ _ _ _).
  destruct ret as [| e].
  - exists IoOk, []. reflexivity.
  - exists (IoErr e). destruct (negb (e =? EIO)).
    + eexists [_]. proj. rewrite <- app_assoc. reflexivity.
    + pose proof (recover_spec fr q G fuel (log (write_event fr st (IoErr e)) st)
                    (wrap_int (Z.quot (mtdoffset st) (eb_size (mtd fr))))) as R.
      cbv zeta in R. specialize (R ltac:(proj; lia)). destruct R as (tr & R).
      destruct (recover fuel fr _ _) as [| st' | | st' | | st']; try contradiction.
      * destruct R as (tre & _ & _ & _ & ->). exists tr. proj.
        rewrite <- app_assoc. reflexivity.
      * rewrite R. exists tr. proj. rewrite <- app_assoc. reflexivity.
      * destruct R as (-> & _). exists tr. proj. rewrite <- app_assoc. reflexivity.
Qed.

End Short.

(** C5, amended. On a sane geometry (page and erase block sizes and the
    block alignment powers of two), when the fill of a page reads a short,
    non-zero count of bytes: without padding the run fails with "Unexpected EOF" and the turn
    ends before the write; with padding the rest of the page is filled with
    0xff, and when no OOB data is written the turn goes on to issue the page
    write with the padded page.  For an image file the progress report
    stands between the fill and the write: the padded page is written when
    the image is standard input, when the length of the image was taken
    from the file (no --input-size) and is not 0, and generally when the
    original length the report divides by is not 0.  When OOB data is
    written, the OOB fill that follows must still find its bytes: a short
    read of the OOB region fails with "Unexpected EOF" whatever the padding
    option says, and nothing is stored in the buffer besides the bytes
    read. *)
Theorem short_reads (e : env) (o : options) (img : string)
    (fr : frame) (st0 st st1 : state) (fuel : nat) :
  prelude e o img = inl (fr, st0) ->
  sane_frame fr = true ->
  reaches fuel fr st0 st ->
  loop_cond fr st = true ->
  scan_blocks fuel fr st = Next st1 ->
  (forall s t c,
      filebuf_len st1 = cursor fr st1 ->
      read_loop (Z.to_nat (min_io_size (mtd fr))) fr st1 (writebuf st1) 0
                (min_io_size (mtd fr)) 0 = Next (s, t, c) ->
      0 < t < min_io_size (mtd fr) ->
      (pad o = false ->
       fill_page fr st1
       = Closeall (log (EvMsg (MsgUnexpectedEof (min_io_size (mtd fr) - t))) s)
       /\ loop_body fuel fr st
          = Closeall (log (EvMsg (MsgUnexpectedEof (min_io_size (mtd fr) - t))) s)
       /\ trace s = trace st1)
      /\ (pad o = true ->
          ifd fr = STDIN_FILENO
          \/ (String.eqb img "-" = false /\ inputsize o = 0 /\ imglen st0 <> 0)
          \/ ofg_imglen fr <> 0 ->
          exists st2,
            fill_page fr st1 = Next st2
            /\ load fr (writebuf st1) (min_io_size (mtd fr)) st2
               = Some (padded_page fr st1 t)
            /\ (writeoob o = false ->
                page_data fr st2
                = (if onlyoob o then None else Some (padded_page fr st1 t))
                /\ exists r tr,
                    trace (state_of (loop_body fuel fr st))
                    = trace st2 ++ write_event fr st2 r :: tr)))
  /\ (forall st2 s' t' c',
        fill_page fr st1 = Next st2 ->
        writeoob o = true ->
        filebuf_len st2 = cursor fr st2 + min_io_size (mtd fr) ->
        read_loop (Z.to_nat (oob_size (mtd fr))) fr
                  (set_oobbuf (writebuf st2 + min_io_size (mtd fr)) st2)
                  (writebuf st2 + min_io_size (mtd fr)) 0 (oob_size (mtd fr))
                  (cnt_garbage fr) = Next (s', t', c') ->
        0 <= t' < oob_size (mtd fr) ->
        fill_oob fr st2
        = Closeall (log (EvMsg (MsgUnexpectedEofOob (oob_size (mtd fr) - t'))) s')
        /\ loop_body fuel fr st
           = Closeall (log (EvMsg (MsgUnexpectedEofOob (oob_size (mtd fr) - t'))) s')).
Proof.
  intros Hp Hs R Hc Es.
  destruct (sane_geometry fr Hs) as (q & G).
  destruct (prelude_start e o img fr st0 Hp) as (Eo & _ & _ & _ & H0 & _).
  pose proof (reaches_loop_inv fr q G fuel st0 st H0 R Hc) as Hinv.
  pose proof (loop_cond_size fr st Hc) as Hsz.
  destruct (scan_blocks_next fr q G fuel st st1 Hinv ltac:(lia) Es) as (Hf & Hle1 & _).
  subst o. split.
  - intros s t c Hdue Er Ht.
    destruct (fill_page_spec fr q G st1 Hf)
      as [(Hge & _) | [(Heq & got & i' & t0 & c0 & Er0 & Hg & Ht0 & Hby & _ & _ & _ & _ & E)
                       | (_ & _ & i' & m' & E0 & E)]].
    + pose proof (pagelen_pos fr q G). pose proof (geo_page _ _ G). lia.
    + rewrite Er0 in Er. injection Er as Es' Et' Ec'.
      subst t0 c0. rewrite <- Es' in *. clear Es'.
      cbv zeta in E.
      replace (t =? 0) with false in E by (symmetry; apply Z.eqb_neq; lia).
      replace (t <? min_io_size (mtd fr)) with true in E
        by (symmetry; apply Z.ltb_lt; lia).
      split.
      * intros Hpad. rewrite Hpad in E. cbn [andb negb] in E.
        split; [exact E |]. split; [| reflexivity].
        unfold loop_body. rewrite Es. cbn [bind]. rewrite E. reflexivity.
      * intros Hpad Hlen. rewrite Hpad in E. cbn [andb negb] in E.
        assert (Hdiv : ifd fr = STDIN_FILENO \/ ofg_imglen fr <> 0).
        { destruct Hlen as [Hi | [(Hi & Hz & Hn) | Hn]];
            [left; exact Hi | right | right; exact Hn].
          rewrite <- (prelude_file_length e (opts fr) img fr st0 Hp Hi Hz). exact Hn. }
        assert (Hgot : got = firstn (Z.to_nat t) (bytes_of (input st1))).
        { rewrite Hby. symmetry. apply firstn_exact. lia. }
        assert (Hpage : padded_page fr st1 t
                        = got ++ repeat kEraseByte (Z.to_nat (min_io_size (mtd fr) - t))).
        { unfold padded_page. rewrite <- Hgot. reflexivity. }
        pose proof Hf as Hf0. destruct Hf as (Ho & Hb & Ha).
        destruct (cursor_room fr q G st1 Ho Ha) as (Hc0 & Hroom).
        destruct Hb as (Hmm & _).
        pose proof (pagelen_pos fr q G) as Ppl. pose proof (geo_filebuf _ _ G) as Pfb.
        assert (Hlenp : length (got ++ repeat kEraseByte (Z.to_nat (min_io_size (mtd fr) - t)))
                        = Z.to_nat (min_io_size (mtd fr))).
        { rewrite length_app, repeat_length. lia. }
        assert (Hfin : forall st2,
                   mem st2 = splice (Z.to_nat (cursor fr st1))
                               (got ++ repeat kEraseByte (Z.to_nat (min_io_size (mtd fr) - t)))
                               (mem st1) ->
                   writebuf st2 = writebuf st1 ->
                   fill_page fr st1 = Next st2 ->
                   load fr (writebuf st1) (min_io_size (mtd fr)) st2
                   = Some (padded_page fr st1 t)
                   /\ (writeoob (opts fr) = false ->
                       page_data fr st2
                       = (if onlyoob (opts fr) then None else Some (padded_page fr st1 t))
                       /\ exists r tr,
                           trace (state_of (loop_body fuel fr st))
                           = trace st2 ++ write_event fr st2 r :: tr)).
        { intros st2 Em Ew Ef.
          assert (Hread : firstn (Z.to_nat (min_io_size (mtd fr)))
                            (skipn (Z.to_nat (writebuf st1 - filebuf fr)) (mem st2))
                          = padded_page fr st1 t).
          { rewrite Em, Hpage, <- Hlenp. unfold cursor in *. apply splice_read. lia. }
          assert (Hlen2 : length (mem st2) = length (mem st1)).
          { rewrite Em. apply splice_length. unfold cursor in *. lia. }
          split.
          - unfold cursor in *. rewrite load_inside by lia. rewrite Hread. reflexivity.
          - intros Hw. split.
            + unfold page_data, cursor. rewrite Ew, Hread. reflexivity.
            + pose proof (fill_page_step fr q G st1 Hf0) as Hstep.
              rewrite Ef in Hstep. cbn [state_of] in Hstep.
              destruct Hstep as (Q1 & Hh).
              pose proof (fill_oob_step fr q G st2 Hh) as (_ & Hr).
              assert (Eoob : fill_oob fr st2 = Next st2)
                by (unfold fill_oob; rewrite Hw; reflexivity).
              rewrite Eoob in Hr.
              unfold loop_body. rewrite Es. cbn [bind]. rewrite Ef. cbn [bind].
              rewrite Eoob. cbn [bind].
              apply (write_out_logs fr q G fuel st2 Hr).
              destruct Q1 as (-> & _). exact Hle1. }
        destruct Hdiv as [Hstd | Hofg].
        -- rewrite Hstd in E. cbn [Z.eqb STDIN_FILENO negb] in E.
           destruct (c =? 0); eexists; (split; [exact E |]); apply Hfin;
             solve [reflexivity | exact E].
        -- destruct (ifd fr =? STDIN_FILENO); cbn [negb] in E.
           ++ destruct (c =? 0); eexists; (split; [exact E |]); apply Hfin;
                solve [reflexivity | exact E].
           ++ replace (ofg_imglen fr =? 0) with false in E
                by (symmetry; apply Z.eqb_neq; exact Hofg).
              eexists; (split; [exact E |]); apply Hfin; solve [reflexivity | exact E].
    + rewrite Er in E0. discriminate E0.
  - intros st2 s' t' c' Ef Hw Hdue Er Ht.
    pose proof (fill_page_step fr q G st1 Hf) as Hstep.
    rewrite Ef in Hstep. cbn [state_of] in Hstep. destruct Hstep as (Q1 & Hh).
    destruct (fill_oob_spec fr q G st2 Hh)
      as [(Ew & _) | [(Ew & Hge & _)
         | [(Ew & Heq & Hpos & got & i' & t0 & c0 & Er0 & Hg & Ht0 & _ & _ & _ & _ & E)
           | (Ew & Hnp & i' & m' & E0 & E)]]].
    + congruence.
    + pose proof (geo_pagelen _ _ G) as Epl. rewrite Hw in Epl.
      pose proof (geo_oob _ _ G). lia.
    + rewrite Er0 in Er. injection Er as Es' Et' Ec'.
      subst t0 c0. rewrite <- Es' in *. clear Es'.
      cbv zeta in E.
      replace (t' <? oob_size (mtd fr)) with true in E
        by (symmetry; apply Z.ltb_lt; lia).
      split; [exact E |].
      unfold loop_body. rewrite Es. cbn [bind]. rewrite Ef. cbn [bind].
      rewrite E. reflexivity.
    + rewrite Er in E0. discriminate E0.
Qed.

Lemma short_reads_witness :
  exists st2,
    fill_page short_frame short_scanned = Next st2
    /\ load short_frame (writebuf short_scanned) (min_io_size (mtd short_frame)) st2
       = Some (padded_page short_frame short_scanned 100)
    /\ (writeoob padding = false ->
        page_data short_frame st2
        = (if onlyoob padding then None
           else Some (padded_page short_frame short_scanned 100))
        /\ exists r tr,
            trace (state_of (loop_body 8 short_frame short_start))
            = trace st2 ++ write_event short_frame st2 r :: tr).
Proof.
  refine (proj2 (proj1 (short_reads (env_of good_flash (file_of short_image) [])
                          padding "img" short_frame short_start short_start
                          short_scanned 8 _ _ _ _ _)
                   short_read 100 0 _ _ _) _ _).
  - vm_compute. reflexivity.
  - vm_compute. reflexivity.
  - apply reaches_refl.
  - vm_compute. reflexivity.
  - vm_compute. reflexivity.
  - vm_compute. reflexivity.
  - vm_compute. reflexivity.
  - vm_compute. split; reflexivity.
  - reflexivity.
  - right. left. split; [reflexivity | split; [reflexivity | vm_compute; discriminate]].
Defined.


(** * The round trip *)

Lemma writes_of_app (m : mtd_dev_info) (a b : list event) :
  writes_of m (a ++ b) = writes_of m a ++ writes_of m b.
Proof. apply flat_map_app. Qed.

Lemma writes_of_scan (m : mtd_dev_info) (tr : list event) :
  forallb is_scan_event tr = true -> writes_of m tr = [].
Proof.
  induction tr as [| ev tr IH]; [reflexivity |].
  cbn [forallb]. intros H. apply andb_true_iff in H. destruct H as (H1 & H2).
  unfold writes_of in *. cbn [flat_map]. rewrite (IH H2).
  destruct ev; try discriminate; reflexivity.
Qed.

Lemma pages_at_read_back (pg : Z) (n : nat) :
  forall (off : Z) (bs : list byte),
    0 < pg -> Z.of_nat (length bs) = Z.of_nat n * pg ->
    read_back (pages_at pg off bs n) = bs.
Proof.
  induction n as [| n IH]; intros off bs Hpg Hlen.
  - destruct bs; [reflexivity | cbn [length] in Hlen; lia].
  - cbn [pages_at]. unfold read_back in *. cbn [flat_map snd].
    rewrite IH; [apply firstn_skipn | exact Hpg |].
    rewrite length_skipn. lia.
Qed.

Lemma pages_at_nth (pg : Z) (n : nat) :
  forall (off : Z) (bs : list byte) (k : nat),
    (k < n)%nat ->
    nth_error (pages_at pg off bs n) k
    = Some (off + Z.of_nat k * pg,
            Some (firstn (Z.to_nat pg) (skipn (k * Z.to_nat pg) bs))).
Proof.
  induction n as [| n IH]; intros off bs k Hk; [lia |].
  destruct k as [| k]; cbn [pages_at nth_error].
  - cbn [Nat.mul skipn]. replace (off + Z.of_nat 0 * pg) with off by lia. reflexivity.
  - rewrite IH by lia. rewrite skipn_skipn.
    replace (off + pg + Z.of_nat k * pg) with (off + Z.of_nat (S k) * pg) by lia.
    replace (k * Z.to_nat pg + Z.to_nat pg)%nat with (S k * Z.to_nat pg)%nat
      by (cbn [Nat.mul]; lia).
    reflexivity.
Qed.

Lemma plain_input_nil (src : list read_ret) :
  plain_input src = true -> bytes_of src = [] -> src = [].
Proof.
  destruct src as [| [[| b bs] |] rest]; cbn; try discriminate; reflexivity.
Qed.

Section RoundTrip.

Variable fr : frame.
Variable q : Z.
Hypothesis G : geometry fr q.
Hypothesis Hwo : writeoob (opts fr) = false.
Hypothesis Hoo : onlyoob (opts fr) = false.
Hypothesis Hnb : no_bad_blocks (dev fr).
Hypothesis Hws : writes_succeed (dev fr).
Variable fuel : nat.
Hypothesis Hfuel :
  size (mtd fr) / ebsize_aligned fr + 2 + blockalign (opts fr) <= Z.of_nat fuel.

(** The scan of a clean state finds the block good and leaves the device
    offset, the input and the accounting alone. *)
Lemma clean_scan (st : state) (rest : list byte) :
  clean fr st rest -> mtdoffset st < size (mtd fr) ->
  exists st1,
    scan_blocks fuel fr st = Next st1
    /\ fill_inv fr st1 /\ filebuf_len st1 = cursor fr st1
    /\ mtdoffset st1 = mtdoffset st /\ imglen st1 = imglen st
    /\ input st1 = input st
    /\ exists tr, trace st1 = trace st ++ tr /\ forallb is_scan_event tr = true.
Proof.
  intros (Hinv & Hcur & _) Hsz.
  pose proof (scan_blocks_spec fr q G fuel st Hinv ltac:(lia)) as S. cbv zeta in S.
  destruct S as (m & b & bs & tr & stb & E1 & Hstb & Q & _ & Hr & Hg).
  destruct (Hg Hnb) as (-> & Hnc).
  pose proof (geo_filebuf _ _ G) as Pfb.
  assert (Pdiv : 0 <= mtdoffset st / ebsize_aligned fr).
  { apply Z.div_pos; [| apply (ebsize_aligned_pos fr q G)].
    destruct Hinv as ((? & _) & _). pose proof (geo_start _ _ G). lia. }
  destruct (scan_blocks fuel fr st) as [st1 | | | s | | s] eqn:Es;
    try contradiction; cbn [state_of] in *; [| lia].
  exists st1. split; [reflexivity |].
  destruct Hr as (Hf & _ & _). split; [exact Hf |].
  assert (Hfl : filebuf_len st1 = filebuf_len stb /\ writebuf st1 = writebuf stb
                /\ imglen st1 = imglen stb /\ input st1 = input stb).
  { rewrite E1. proj. repeat split. }
  destruct Hfl as (Hfl & Hwb & Him & Hin).
  split.
  { unfold cursor in *. rewrite Hfl, Hwb.
    destruct Hstb as [-> | (_ & ->)]; [| unfold erased; proj; lia].
    destruct Hcur as [((Hnull & _) & _) | Hc]; [| exact Hc].
    destruct Hf as (_ & (_ & Hc0 & _) & _). unfold cursor, NULL in *. lia. }
  split; [rewrite E1; reflexivity |].
  split; [rewrite Him; destruct Hstb as [-> | (_ & ->)]; reflexivity |].
  split; [rewrite Hin; destruct Hstb as [-> | (_ & ->)]; reflexivity |].
  exists tr. split; [| exact Q]. rewrite E1. proj.
  destruct Hstb as [-> | (_ & ->)]; reflexivity.
Qed.

(** A page of input is read into the buffer at the cursor. *)
Lemma clean_fill (st1 : state) (rest : list byte) :
  fill_inv fr st1 -> filebuf_len st1 = cursor fr st1 ->
  plain_input (input st1) = true -> bytes_of (input st1) = rest ->
  min_io_size (mtd fr) <= Z.of_nat (length rest) ->
  (if ifd fr =? STDIN_FILENO then 0 < imglen st1
   else imglen st1 = Z.of_nat (length rest)
        /\ Z.of_nat (length rest) <= ofg_imglen fr) ->
  Z.of_nat (length rest) <= 2 ^ 60 ->
  exists st2,
    fill_page fr st1 = Next st2
    /\ page_data fr st2 = Some (firstn (Z.to_nat (min_io_size (mtd fr))) rest)
    /\ filebuf_len st2 = filebuf_len st1 + min_io_size (mtd fr)
    /\ plain_input (input st2) = true
    /\ bytes_of (input st2) = skipn (Z.to_nat (min_io_size (mtd fr))) rest
    /\ (if ifd fr =? STDIN_FILENO then imglen st2 = imglen st1
        else imglen st2 = imglen st1 - min_io_size (mtd fr))
    /\ exists tr, trace st2 = trace st1 ++ tr /\ writes_of (mtd fr) tr = [].
Proof.
  intros Hf Hfl Hpl Hby Hlen Hacc Hmax.
  pose proof (geo_page _ _ G) as Ppg. pose proof (pagelen_pos fr q G) as Ppl.
  pose proof (geo_filebuf _ _ G) as Pfb.
  destruct (fill_page_spec fr q G st1 Hf)
    as [(Hge & _) | [(_ & got & i' & t & c & _ & Hg & Ht & Hb & _ & _ & Hc & Hp & E)
                     | (_ & Hnp & _)]]; [lia | | congruence].
  destruct (Hp Hpl) as (Hpl' & Hend).
  rewrite Hby in Hb.
  assert (Et : t = min_io_size (mtd fr)).
  { destruct (Z.eq_dec t (min_io_size (mtd fr))) as [Et | Nt]; [exact Et | exfalso].
    rewrite (Hend ltac:(lia)) in Hb. cbn [bytes_of] in Hb. rewrite app_nil_r in Hb.
    rewrite Hb in Hlen. lia. }
  specialize (Hc Et). rewrite Et in Hg, E. clear Ht Hp Hend.
  assert (Hgot : got = firstn (Z.to_nat (min_io_size (mtd fr))) rest).
  { rewrite Hb. symmetry. apply firstn_exact. lia. }
  assert (Hrest : bytes_of i' = skipn (Z.to_nat (min_io_size (mtd fr))) rest).
  { rewrite Hb. symmetry. rewrite (skipn_exact got _ _ 0) by lia. reflexivity. }
  cbv zeta in E.
  replace (min_io_size (mtd fr) =? 0) with false in E
    by (symmetry; apply Z.eqb_neq; lia).
  rewrite Z.ltb_irrefl in E. cbn [andb] in E.
  rewrite Z.sub_diag in E. cbn [Z.to_nat repeat] in E. rewrite app_nil_r in E.
  destruct Hf as (Ho & (Hmm & Hc0 & _) & Ha).
  destruct (cursor_room fr q G st1 Ho Ha) as (_ & Hroom).
  assert (Hpage : forall st2,
             mem st2 = splice (Z.to_nat (cursor fr st1)) got (mem st1) ->
             writebuf st2 = writebuf st1 ->
             page_data fr st2 = Some (firstn (Z.to_nat (min_io_size (mtd fr))) rest)).
  { intros st2 Em Ew. unfold page_data. rewrite Hoo. f_equal.
    unfold cursor in *. rewrite Ew, Em, <- Hgot.
    replace (Z.to_nat (min_io_size (mtd fr))) with (length got) by lia.
    apply splice_read. lia. }
  destruct (Z.eqb_spec (ifd fr) STDIN_FILENO) as [Estd | Nstd]; cbn [negb] in E.
  - replace (c =? 0) with false in E by (symmetry; apply Z.eqb_neq; exact Hc).
    eexists. split; [exact E |]. proj.
    split; [apply Hpage; reflexivity |].
    split; [reflexivity |]. split; [exact Hpl' |]. split; [exact Hrest |].
    split; [reflexivity |]. exists []. split; [rewrite app_nil_r |]; reflexivity.
  - destruct Hacc as (Hacc & Hofg).
    replace (ofg_imglen fr =? 0) with false in E by (symmetry; apply Z.eqb_neq; lia).
    eexists. split; [exact E |]. proj.
    split; [apply Hpage; reflexivity |].
    split; [reflexivity |]. split; [exact Hpl' |]. split; [exact Hrest |].
    split; [apply wrap_ll_small; lia |].
    eexists. split; reflexivity.
Qed.

(** A turn of the loop in a clean state that still has a page to read
    writes that page at the device offset and leaves a clean state. *)
Lemma clean_turn (st : state) (rest : list byte) :
  clean fr st rest ->
  min_io_size (mtd fr) <= Z.of_nat (length rest) ->
  mtdoffset st + Z.of_nat (length rest) <= size (mtd fr) ->
  exists st',
    loop_cond fr st = true
    /\ loop_body fuel fr st = Continue st'
    /\ clean fr st' (skipn (Z.to_nat (min_io_size (mtd fr))) rest)
    /\ mtdoffset st' = mtdoffset st + min_io_size (mtd fr)
    /\ exists tr, trace st' = trace st ++ tr
                  /\ writes_of (mtd fr) tr
                     = [(mtdoffset st,
                         Some (firstn (Z.to_nat (min_io_size (mtd fr))) rest))].
Proof.
  intros Hcl Hlen Hcap. pose proof Hcl as (Hinv & Hcur & Hpl & Hby & Hacc).
  pose proof (geo_page _ _ G) as Ppg. pose proof (geo_size _ _ G) as Psz.
  pose proof (geo_pagelen _ _ G) as Epl. rewrite Hwo, Z.add_0_r in Epl.
  assert (Hsz : mtdoffset st < size (mtd fr)) by lia.
  assert (Hm0 : 0 <= mtdoffset st).
  { destruct Hinv as ((? & _) & _). pose proof (geo_start _ _ G). lia. }
  destruct (clean_scan st rest Hcl Hsz)
    as (st1 & Es & Hf & Hfl1 & Hm1 & Hi1 & Hin1 & trs & Et1 & Qs).
  rewrite <- Hin1 in Hpl, Hby. rewrite <- Hi1 in Hacc.
  destruct (clean_fill st1 rest Hf Hfl1 Hpl Hby Hlen Hacc ltac:(lia))
    as (st2 & Ep & Hpd & Hfl2 & Hpl2 & Hby2 & Hacc2 & trp & Et2 & Qp).
  pose proof (fill_page_step fr q G st1 Hf) as Hstep.
  rewrite Ep in Hstep. cbn [state_of] in Hstep. destruct Hstep as (Q1 & Hh).
  assert (Eo : fill_oob fr st2 = Next st2) by (unfold fill_oob; rewrite Hwo; reflexivity).
  pose proof (fill_oob_step fr q G st2 Hh) as Hstep.
  rewrite Eo in Hstep. destruct Hstep as (_ & Hr).
  destruct Q1 as (Em2 & Eb2 & Ew2 & _).
  pose proof (write_out_spec fr q G fuel st2 Hr ltac:(lia)) as Ewo. cbv zeta in Ewo.
  rewrite Hws in Ewo.
  pose proof (write_out_step fr q G fuel st2 Hr ltac:(lia)) as Hstep.
  rewrite Ewo in Hstep. destruct Hstep as (Hinv' & _).
  eexists. split.
  { unfold loop_cond.
    replace (mtdoffset st <? size (mtd fr)) with true by (symmetry; apply Z.ltb_lt; lia).
    replace (imglen st >? 0) with true; [reflexivity |].
    symmetry. rewrite Z.gtb_ltb. apply Z.ltb_lt. rewrite <- Hi1.
    destruct (ifd fr =? STDIN_FILENO); lia. }
  split.
  { unfold loop_body. rewrite Es. cbn [bind]. rewrite Ep. cbn [bind].
    rewrite Eo. cbn [bind]. exact Ewo. }
  split.
  { split; [exact Hinv' |]. proj. unfold cursor. proj.
    split; [right; unfold cursor in *; lia |].
    split; [exact Hpl2 |]. split; [exact Hby2 |].
    rewrite length_skipn.
    destruct (ifd fr =? STDIN_FILENO); lia. }
  split; [proj; lia |].
  exists (trs ++ trp ++ [write_event fr st2 IoOk]). proj. split.
  { rewrite Et2, Et1, <- !app_assoc. reflexivity. }
  rewrite !writes_of_app, (writes_of_scan _ _ Qs), Qp. cbn [app].
  unfold writes_of, write_event. cbn [flat_map write_of app].
  rewrite Hpd, (write_offset fr q G) by lia. rewrite Em2, Hm1. reflexivity.
Qed.

(** In a clean state whose input is at its end the loop is left, and the
    final check finds nothing to complain about. *)
Lemma clean_end (st : state) (N : nat) :
  clean fr st [] -> mtdoffset st <= size (mtd fr) ->
  exists st' tr,
    main_loop (S N) fuel fr st = Next st'
    /\ trace st' = trace st ++ tr
    /\ writes_of (mtd fr) tr = []
    /\ closeall false (ifd fr) (filebuf fr) st' = (Returned EXIT_SUCCESS, trace st').
Proof.
  intros Hcl Hle. pose proof Hcl as (Hinv & Hcur & Hpl & Hby & Hacc).
  pose proof (geo_page _ _ G) as Ppg. pose proof (pagelen_pos fr q G) as Ppl.
  pose proof (geo_filebuf _ _ G) as Pfb.
  assert (Hclose : forall s,
             filebuf_len s = cursor fr s ->
             (if ifd fr =? STDIN_FILENO then True else imglen s = 0) ->
             closeall false (ifd fr) (filebuf fr) s = (Returned EXIT_SUCCESS, trace s)).
  { intros s Hc Hi. unfold closeall, cursor in *. cbn [orb].
    replace (writebuf s <? filebuf fr + filebuf_len s) with false
      by (symmetry; apply Z.ltb_ge; lia).
    destruct (ifd fr =? STDIN_FILENO); cbn [negb andb orb]; [reflexivity |].
    rewrite Hi. reflexivity. }
  cbn [main_loop]. destruct (loop_cond fr st) eqn:Hc.
  - pose proof (loop_cond_size fr st Hc) as Hsz.
    destruct (clean_scan st [] Hcl Hsz)
      as (st1 & Es & Hf & Hfl1 & Hm1 & Hi1 & Hin1 & trs & Et1 & Qs).
    rewrite <- Hin1 in Hpl, Hby. rewrite <- Hi1 in Hacc.
    pose proof (plain_input_nil _ Hpl Hby) as Hnil.
    destruct (fill_page_spec fr q G st1 Hf)
      as [(Hge & _) | [(_ & got & i' & t & c & _ & Hg & Ht & Hb & _ & _ & _ & _ & E)
                       | (_ & Hnp & _)]]; [lia | | congruence].
    rewrite Hby in Hb. symmetry in Hb. apply app_eq_nil in Hb. destruct Hb as (-> & Hb).
    cbn [length] in Hg. subst t. cbv zeta in E. cbn [Z.eqb Z.of_nat] in E.
    unfold loop_body. rewrite Es. cbn [bind]. rewrite E. cbn [bind].
    eexists. exists trs. split; [reflexivity |].
    split; [destruct (ifd fr =? STDIN_FILENO); proj; exact Et1 |].
    split; [apply writes_of_scan; exact Qs |].
    apply Hclose.
    + destruct (ifd fr =? STDIN_FILENO); unfold cursor; proj; exact Hfl1.
    + destruct (ifd fr =? STDIN_FILENO); [exact I |]. proj. cbn [length] in Hacc. lia.
  - exists st, []. split; [reflexivity |]. split; [rewrite app_nil_r; reflexivity |].
    split; [reflexivity |]. apply Hclose.
    + destruct Hcur as [((Hnull & _ & Hfl & _) & Hsz) | Hc']; [exfalso | exact Hc'].
      unfold loop_cond in Hc.
      replace (writebuf st <? filebuf fr + filebuf_len st) with true in Hc
        by (symmetry; apply Z.ltb_lt; unfold NULL in *; lia).
      replace (mtdoffset st <? size (mtd fr)) with true in Hc
        by (symmetry; apply Z.ltb_lt; lia).
      rewrite orb_true_r in Hc. discriminate.
    + destruct (ifd fr =? STDIN_FILENO); [exact I |]. cbn [length] in Hacc. lia.
Qed.

(** The whole loop, from a clean state with [n] pages still to be read. *)
Lemma clean_run (n : nat) :
  forall (st : state) (rest : list byte) (N : nat),
    clean fr st rest ->
    Z.of_nat (length rest) = Z.of_nat n * min_io_size (mtd fr) ->
    mtdoffset st + Z.of_nat (length rest) <= size (mtd fr) ->
    (n < N)%nat ->
    exists st' tr,
      main_loop N fuel fr st = Next st'
      /\ trace st' = trace st ++ tr
      /\ writes_of (mtd fr) tr = pages_at (min_io_size (mtd fr)) (mtdoffset st) rest n
      /\ closeall false (ifd fr) (filebuf fr) st' = (Returned EXIT_SUCCESS, trace st').
Proof.
  pose proof (geo_page _ _ G) as Ppg.
  induction n as [| n IH]; intros st rest N Hcl Hlen Hcap HN;
    (destruct N as [| N]; [lia |]).
  - assert (rest = []) by (destruct rest; [reflexivity | cbn [length] in Hlen; lia]).
    subst rest. cbn [length Z.of_nat] in Hcap.
    exact (clean_end st N Hcl ltac:(lia)).
  - destruct (clean_turn st rest Hcl ltac:(lia) Hcap)
      as (st1 & Hc & Eb & Hcl1 & Hm1 & tr1 & Et1 & Ew1).
    destruct (IH st1 (skipn (Z.to_nat (min_io_size (mtd fr))) rest) N Hcl1)
      as (st' & tr & Em & Et & Ew & Ec).
    { rewrite length_skipn. lia. }
    { rewrite length_skipn. lia. }
    { lia. }
    exists st', (tr1 ++ tr). cbn [main_loop]. rewrite Hc, Eb.
    split; [exact Em |]. split; [rewrite Et, Et1, app_assoc; reflexivity |].
    split; [| exact Ec].
    rewrite writes_of_app, Ew1, Ew, Hm1. reflexivity.
Qed.

End RoundTrip.

(** C1. The round trip is lost with --input-size: on a good chip, without
    OOB data, for an image file of two whole pages, the run with
    --input-size=1024 ends in the division of the progress report by the
    local [ofg_imglen], which is never assigned on that path and here holds
    0, before a page is written; the same run without the option, where the
    local is assigned, writes the two pages and reading them back gives the
    image. *)
Theorem round_trip_lost_with_input_size :
  no_bad_blocks (device (env_with_garbage 0))
  /\ Z.of_nat (length two_pages) = 2 * min_io_size nand_small
  /\ sized_run 0 = (Crashed, [EvMsg (MsgWritingBlock 0 0); EvIsBad 0 0])
  /\ read_back (writes_of nand_small (snd (sized_run 0))) = []
  /\ fst (plain_run 0) = Returned EXIT_SUCCESS
  /\ read_back (writes_of nand_small (snd (plain_run 0))) = two_pages.
Proof.
  split; [intros tr eb; reflexivity |].
  repeat split; vm_compute; reflexivity.
Qed.

(** X16. A run on a device without bad blocks on which every page write
    succeeds, without OOB data, whose input delivers [n] whole pages without
    error (for a file, the image length the run works with being the number
    of bytes the file delivers), started inside the device with room for the
    image: the loop ends without failure and the final check prints nothing;
    the page writes the device accepted are [n], the [k]-th at the device
    offset [start + k * pagesize] with the bytes [k * pagesize, (k + 1) *
    pagesize) of the input as its main data, and reading the written pages
    back gives the input. *)
Theorem round_trip (fuel : nat) (e : env) (o : options) (img : string)
    (fr : frame) (st0 : state) (data : list byte) (n : nat) :
  prelude e o img = inl (fr, st0) ->
  sane_frame fr = true ->
  writeoob o = false -> onlyoob o = false ->
  no_bad_blocks (device e) -> writes_succeed (device e) ->
  plain_input (input st0) = true -> bytes_of (input st0) = data ->
  Z.of_nat (length data) = Z.of_nat n * min_io_size (mtd fr) ->
  declared_length fr st0 data ->
  o_mtdoffset o < size (mtd fr) ->
  o_mtdoffset o + Z.of_nat (length data) <= size (mtd fr) ->
  (n < fuel)%nat ->
  size (mtd fr) / ebsize_aligned fr + 2 + blockalign o <= Z.of_nat fuel ->
  exists tr,
    write_image fuel fr st0 = (Returned EXIT_SUCCESS, trace st0 ++ tr)
    /\ writes_of (mtd fr) tr
       = pages_at (min_io_size (mtd fr)) (o_mtdoffset o) data n
    /\ (forall k, (k < n)%nat ->
          nth_error (writes_of (mtd fr) tr) k
          = Some (o_mtdoffset o + Z.of_nat k * min_io_size (mtd fr),
                  Some (firstn (Z.to_nat (min_io_size (mtd fr)))
                          (skipn (k * Z.to_nat (min_io_size (mtd fr))) data))))
    /\ read_back (writes_of (mtd fr) tr) = data.
Proof.
  intros Hp Hs Hwo Hoo Hnb Hws Hpl Hby Hlen Hdecl Hstart Hcap Hn Hfuel.
  destruct (sane_geometry fr Hs) as (q & G).
  destruct (prelude_start e o img fr st0 Hp) as (Eo & Ed & _ & _ & H0 & _).
  subst o. rewrite <- Ed in Hnb, Hws.
  pose proof (geo_page _ _ G) as Ppg.
  assert (Hm0 : mtdoffset st0 = o_mtdoffset (opts fr)) by (destruct H0 as (_ & _ & _ & ? & _); assumption).
  assert (Hcl : clean fr st0 data).
  { split; [apply (start_loop_inv fr q G); [exact H0 | lia] |].
    split; [left; split; [exact H0 | lia] |].
    split; [exact Hpl |]. split; [exact Hby |].
    unfold declared_length in Hdecl.
    destruct (ifd fr =? STDIN_FILENO); [exact Hdecl | lia]. }
  destruct (clean_run fr q G Hwo Hoo Hnb Hws fuel Hfuel n st0 data fuel Hcl Hlen
              ltac:(lia) Hn) as (st' & tr & Em & Et & Ew & Ec).
  exists tr. unfold write_image. rewrite Em, Ec, Et, Ew, Hm0.
  split; [reflexivity |]. split; [reflexivity |].
  split; [intros k Hk; apply pages_at_nth; exact Hk |].
  apply pages_at_read_back; [exact Ppg | exact Hlen].
Qed.

Lemma round_trip_witness :
  exists tr,
    write_image 70 (frame_of good_flash initial_options) (start_of initial_options 16384)
    = (Returned EXIT_SUCCESS, trace (start_of initial_options 16384) ++ tr)
    /\ writes_of (mtd (frame_of good_flash initial_options)) tr
       = pages_at (min_io_size (mtd (frame_of good_flash initial_options)))
           (o_mtdoffset initial_options) two_pages 2
    /\ (forall k, (k < 2)%nat ->
          nth_error (writes_of (mtd (frame_of good_flash initial_options)) tr) k
          = Some (o_mtdoffset initial_options
                  + Z.of_nat k * min_io_size (mtd (frame_of good_flash initial_options)),
                  Some (firstn (Z.to_nat (min_io_size (mtd (frame_of good_flash
                                                               initial_options))))
                          (skipn (k * Z.to_nat (min_io_size (mtd (frame_of good_flash
                                                                    initial_options))))
                             two_pages))))
    /\ read_back (writes_of (mtd (frame_of good_flash initial_options)) tr) = two_pages.
Proof.
  refine (round_trip 70 (env_of good_flash (file_of two_pages) []) initial_options "img"
            (frame_of good_flash initial_options) (start_of initial_options 16384)
            two_pages 2 _ _ _ _ _ _ _ _ _ _ _ _ _ _).
  - vm_compute. reflexivity.
  - vm_compute. reflexivity.
  - reflexivity.
  - reflexivity.
  - intros tr eb. reflexivity.
  - intros tr eb offs d ob mode. reflexivity.
  - vm_compute. reflexivity.
  - vm_compute. reflexivity.
  - vm_compute. reflexivity.
  - vm_compute. split; reflexivity.
  - vm_compute. reflexivity.
  - vm_compute. discriminate.
  - lia.
  - vm_compute. discriminate.
Defined.


(** * The recovery from a failed write and the replay *)


Section Replay.

Variable fr : frame.
Variable q : Z.
Hypothesis G : geometry fr q.
Variable fuel : nat.




(** The erase loop only gives up on an error other than [EIO]. *)
Lemma erase_loop_no_abort :
  forall (n : nat) (st : state) (i : Z),
    erases_recoverable (dev fr) ->
    match erase_loop n fr st i with Closeall _ => False | _ => True end.
Proof.
  induction n as [| n IH]; intros st i He; cbn [erase_loop].
  - destruct (i <? _); exact I.
  - destruct (i <? _); [| exact I].
    destruct (eb_size (mtd fr) =? 0); [exact I |]. cbv zeta.
    destruct (He (trace st) (wrap_int (Z.quot i (eb_size (mtd fr))))) as [-> | ->].
    + apply IH. exact He.
    + rewrite Z.eqb_refl. apply IH. exact He.
Qed.

(** With fuel for the sub-units of the block, on a device whose erases are
    recoverable and which marks the block, the recovery goes through. *)
Lemma recover_goes_through (st : state) (eb : Z) :
  0 <= blockstart st <= 2 ^ 61 ->
  erases_recoverable (dev fr) ->
  (markbad (opts fr) = true -> marks_succeed (dev fr)) ->
  blockalign (opts fr) <= Z.of_nat fuel ->
  exists st', recover fuel fr st eb = Continue st'.
Proof.
  intros Hbs He Hm Hfuel. unfold recover.
  set (st1 := log _ (set_writebuf (filebuf fr) st)).
  pose proof (erase_loop_spec fr q G fuel st1 0) as L. cbv zeta in L.
  pose proof (geo_align _ _ G) as Pa.
  replace (blockstart st1 + 0 * eb_size (mtd fr)) with (blockstart st1) in L by lia.
  specialize (L ltac:(lia) Hbs). destruct L as (tre & _ & _ & Hr).
  pose proof (erase_loop_no_abort fuel st1 (blockstart st1) He) as Hn.
  destruct (erase_loop fuel fr st1 (blockstart st1)) as [st2 | | | st2 | | st2];
    try contradiction; [| lia].
  cbn [bind]. destruct (markbad (opts fr)).
  - rewrite (Hm eq_refl). cbn [bind]. eexists. reflexivity.
  - cbn [bind]. eexists. reflexivity.
Qed.

End Replay.




(** * The options *)

Lemma flags_kept_refl (o : options) : flags_kept o o = true.
Proof.
  unfold flags_kept.
  destruct (quiet o), (writeoob o), (onlyoob o), (markbad o), (noecc o),
    (autoplace o), (noskipbad o), (pad o); reflexivity.
Qed.

Lemma implb_trans (a b c : bool) :
  implb a b = true -> implb b c = true -> implb a c = true.
Proof. destruct a, b, c; auto. Qed.

Lemma flags_kept_trans (a b c : options) :
  flags_kept a b = true -> flags_kept b c = true -> flags_kept a c = true.
Proof.
  unfold flags_kept. rewrite !andb_true_iff.
  intros (((((((A1 & A2) & A3) & A4) & A5) & A6) & A7) & A8)
         (((((((B1 & B2) & B3) & B4) & B5) & B6) & B7) & B8).
  repeat split; eapply implb_trans; eassumption.
Qed.

(** One option: what it leaves alone, and what it does to the error count. *)
Lemma option_case_keeps (c : parsed_option) (o o' : options) (error error' : Z) :
  option_case c o error = inl (o', error') ->
  flags_kept o o' = true
  /\ (names_start c = false -> o_mtdoffset o' = o_mtdoffset o)
  /\ (names_blockalign c = false -> blockalign o' = blockalign o)
  /\ (names_input_skip c = false -> inputskip o' = inputskip o)
  /\ (names_input_size c = false -> inputsize o' = inputsize o)
  /\ error <= error'
  /\ (error' = error -> option_ok c = true).
Proof.
  pose proof (flags_kept_refl o) as F. unfold flags_kept in *.
  destruct c; cbn [option_case]; intros H; try discriminate; inversion H; subst;
    cbn [quiet writeoob onlyoob markbad noecc autoplace noskipbad pad o_mtdoffset
         blockalign inputskip inputsize set_o_mtdoffset names_start names_blockalign
         names_input_skip names_input_size option_ok];
    repeat split; try reflexivity; try discriminate; try lia; try exact F;
    try (destruct ok; cbn [err_of]; intros; solve [reflexivity | lia]);
    try (destruct ok; cbn [err_of]; lia);
    try solve [destruct (quiet o), (writeoob o), (onlyoob o), (markbad o), (noecc o),
                 (autoplace o), (noskipbad o), (pad o); reflexivity].
Qed.

Lemma option_loop_keeps (args : list parsed_option) :
  forall (o o' : options) (error error' : Z),
    option_loop args o error = inl (o', error') ->
    flags_kept o o' = true
    /\ (existsb names_start args = false -> o_mtdoffset o' = o_mtdoffset o)
    /\ (existsb names_blockalign args = false -> blockalign o' = blockalign o)
    /\ (existsb names_input_skip args = false -> inputskip o' = inputskip o)
    /\ (existsb names_input_size args = false -> inputsize o' = inputsize o)
    /\ error <= error'
    /\ (error' = error -> forallb option_ok args = true).
Proof.
  induction args as [| c rest IH]; intros o o' error error' H; cbn [option_loop] in H.
  - inversion H; subst. split; [apply flags_kept_refl |].
    repeat split; try reflexivity; lia.
  - destruct (option_case c o error) as [[o1 e1] | s] eqn:Ec; [| discriminate].
    destruct (option_case_keeps c o o1 error e1 Ec) as (F1 & S1 & B1 & K1 & Z1 & L1 & R1).
    destruct (IH o1 o' e1 error' H) as (F2 & S2 & B2 & K2 & Z2 & L2 & R2).
    cbn [existsb forallb].
    split; [exact (flags_kept_trans o o1 o' F1 F2) |].
    split; [intros E; apply orb_false_iff in E; destruct E as (E1 & E2);
            rewrite (S2 E2); exact (S1 E1) |].
    split; [intros E; apply orb_false_iff in E; destruct E as (E1 & E2);
            rewrite (B2 E2); exact (B1 E1) |].
    split; [intros E; apply orb_false_iff in E; destruct E as (E1 & E2);
            rewrite (K2 E2); exact (K1 E1) |].
    split; [intros E; apply orb_false_iff in E; destruct E as (E1 & E2);
            rewrite (Z2 E2); exact (Z1 E1) |].
    split; [lia |].
    intros E. rewrite (R1 ltac:(lia)), (R2 ltac:(lia)). reflexivity.
Qed.

(** X1. The option variables are file-scope: a call of [process_options]
    that returns only resets the device offset.  A flag that was set by an
    earlier call stays set, and the block alignment, the input skip and the
    input size keep the value of the earlier call unless an option of this
    call names them; the device offset is the one of the last [-s], or 0. *)
Theorem process_options_keeps (o o' : options) (args : list parsed_option)
    (positional : list string) (d i : string) :
  process_options o args positional = inl (o', d, i) ->
  flags_kept o o' = true
  /\ (existsb names_start args = false -> o_mtdoffset o' = 0)
  /\ (existsb names_blockalign args = false -> blockalign o' = blockalign o)
  /\ (existsb names_input_skip args = false -> inputskip o' = inputskip o)
  /\ (existsb names_input_size args = false -> inputsize o' = inputsize o).
Proof.
  unfold process_options. intros H.
  destruct (option_loop args (set_o_mtdoffset 0 o) 0) as [[o1 e1] | s] eqn:El;
    [| discriminate].
  destruct (option_loop_keeps args _ _ _ _ El) as (F & S & B & K & Z & _).
  assert (o1 = o').
  { destruct (o_mtdoffset o1 <? 0); [discriminate |].
    destruct (blockalign o1 <? 0); [discriminate |].
    destruct (autoplace o1 && noecc o1); [discriminate |].
    destruct (negb (onlyoob o1) && (pad o1 && writeoob o1)); [discriminate |].
    destruct positional as [| a [| b [| ? ?]]]; try discriminate;
      destruct (e1 =? 0); try discriminate; inversion H; reflexivity. }
  subst o1. split; [exact F |]. split; [exact S |]. split; [exact B |].
  split; [exact K | exact Z].
Qed.

Lemma process_options_keeps_witness :
  flags_kept first_call (set_o_mtdoffset 0 first_call) = true
  /\ (existsb names_start [] = false -> o_mtdoffset (set_o_mtdoffset 0 first_call) = 0)
  /\ (existsb names_blockalign [] = false ->
      blockalign (set_o_mtdoffset 0 first_call) = blockalign first_call)
  /\ (existsb names_input_skip [] = false ->
      inputskip (set_o_mtdoffset 0 first_call) = inputskip first_call)
  /\ (existsb names_input_size [] = false ->
      inputsize (set_o_mtdoffset 0 first_call) = inputsize first_call).
Proof.
  refine (process_options_keeps first_call (set_o_mtdoffset 0 first_call) []
            ["/dev/mtd0"; "img"]%string "/dev/mtd0"%string "img"%string _).
  reflexivity.
Defined.

(** X2. When [process_options] returns, every option was parsed without
    error and none was unknown, the device offset and the block alignment
    are not negative, autoplacement and no-ECC are not both set, padding and
    OOB data are only combined with only-OOB, and there are one or two
    positional arguments: the device and, unless it is left out and standard
    input is meant, the image. *)
Theorem process_options_accepts (o o' : options) (args : list parsed_option)
    (positional : list string) (d i : string) :
  process_options o args positional = inl (o', d, i) ->
  forallb option_ok args = true
  /\ 0 <= o_mtdoffset o' /\ 0 <= blockalign o'
  /\ autoplace o' && noecc o' = false
  /\ (pad o' = true -> writeoob o' = true -> onlyoob o' = true)
  /\ ((positional = [d] /\ i = "-"%string) \/ positional = [d; i]).
Proof.
  unfold process_options. intros H.
  destruct (option_loop args (set_o_mtdoffset 0 o) 0) as [[o1 e1] | s] eqn:El;
    [| discriminate].
  destruct (option_loop_keeps args _ _ _ _ El) as (_ & _ & _ & _ & _ & Le & Hok).
  destruct (Z.ltb_spec (o_mtdoffset o1) 0) as [| Hs]; [discriminate |].
  destruct (Z.ltb_spec (blockalign o1) 0) as [| Hb]; [discriminate |].
  destruct (autoplace o1 && noecc o1) eqn:Ha; [discriminate |].
  destruct (negb (onlyoob o1) && (pad o1 && writeoob o1)) eqn:Hp; [discriminate |].
  assert (Hfin : forall x y, (if e1 =? 0 then inl (o1, x, y) else inr (Exited EXIT_FAILURE))
                             = @inl _ outcome (o', d, i) ->
                             e1 = 0 /\ o1 = o' /\ x = d /\ y = i).
  { intros x y E. destruct (Z.eqb_spec e1 0); [| discriminate].
    inversion E. repeat split; assumption. }
  assert (Hall : e1 = 0 -> o1 = o' ->
                 forallb option_ok args = true
                 /\ 0 <= o_mtdoffset o' /\ 0 <= blockalign o'
                 /\ autoplace o' && noecc o' = false
                 /\ (pad o' = true -> writeoob o' = true -> onlyoob o' = true)).
  { intros E0 <-. split; [apply Hok; lia |]. split; [exact Hs |]. split; [exact Hb |].
    split; [exact Ha |]. intros P W. rewrite P, W in Hp.
    destruct (onlyoob o1); [reflexivity | discriminate]. }
  destruct positional as [| a [| b [| ? ?]]]; try discriminate.
  - destruct (Hfin _ _ H) as (E0 & Eo & -> & <-).
    destruct (Hall E0 Eo) as (A & B & C & D & E).
    repeat split; try assumption. left. split; reflexivity.
  - destruct (Hfin _ _ H) as (E0 & Eo & -> & ->).
    destruct (Hall E0 Eo) as (A & B & C & D & E).
    repeat split; try assumption. right. reflexivity.
Qed.

Lemma process_options_accepts_witness :
  forallb option_ok [opt_p; opt_O; opt_s 512 true] = true.
Proof.
  refine (proj1 (process_options_accepts initial_options _ [opt_p; opt_O; opt_s 512 true]
                   ["/dev/mtd0"]%string _ _ _)).
  reflexivity.
Defined.

(** * The erase of the buffer *)

Lemma nth_error_splice (off : nat) (bs m : list byte) (p : nat) :
  (off + length bs <= length m)%nat ->
  nth_error (splice off bs m) p
  = if (off <=? p)%nat && (p <? off + length bs)%nat
    then nth_error bs (p - off) else nth_error m p.
Proof.
  intros H. unfold splice.
  assert (Lf : length (firstn off m) = off) by (rewrite length_firstn; lia).
  destruct (Nat.leb_spec off p) as [L | L]; cbn [andb].
  - rewrite nth_error_app2 by lia. rewrite Lf.
    destruct (Nat.ltb_spec p (off + length bs)) as [L2 | L2].
    + rewrite nth_error_app1 by lia. reflexivity.
    + rewrite nth_error_app2 by lia. rewrite nth_error_skipn. f_equal. lia.
  - rewrite nth_error_app1 by lia. rewrite nth_error_firstn.
    replace (p <? off)%nat with true by (symmetry; apply Nat.ltb_lt; lia). reflexivity.
Qed.

(** X3. [erase_buffer] on a range inside the allocation sets every byte of
    the range to 0xff and leaves every other byte, and everything else, as
    it is. *)
Theorem erase_buffer_memset (fr : frame) (buffer sz : Z) (st : state) :
  0 < filebuf fr -> filebuf fr <= buffer -> 0 <= sz ->
  buffer + sz <= filebuf fr + Z.of_nat (length (mem st)) ->
  exists m',
    erase_buffer fr buffer sz st = Next (set_mem m' st)
    /\ length m' = length (mem st)
    /\ forall p : nat,
        nth_error m' p
        = if (buffer - filebuf fr <=? Z.of_nat p)
             && (Z.of_nat p <? buffer - filebuf fr + sz)
          then Some kEraseByte else nth_error (mem st) p.
Proof.
  intros H0 H1 H2 H3. eexists. split; [apply erase_buffer_inside; assumption |].
  split; [apply splice_length; rewrite repeat_length; lia |].
  intros p. rewrite nth_error_splice by (rewrite repeat_length; lia).
  rewrite repeat_length.
  destruct (Nat.leb_spec (Z.to_nat (buffer - filebuf fr)) p) as [L | L];
    destruct (Z.leb_spec (buffer - filebuf fr) (Z.of_nat p)) as [L' | L']; try lia;
    cbn [andb]; [| reflexivity].
  destruct (Nat.ltb_spec p (Z.to_nat (buffer - filebuf fr) + Z.to_nat sz)) as [M | M];
    destruct (Z.ltb_spec (Z.of_nat p) (buffer - filebuf fr + sz)) as [M' | M']; try lia;
    [| reflexivity].
  apply nth_error_repeat. lia.
Qed.

Lemma erase_buffer_memset_witness :
  exists m',
    erase_buffer short_frame 4100 8 short_start = Next (set_mem m' short_start)
    /\ length m' = length (mem short_start)
    /\ forall p : nat,
        nth_error m' p
        = if (4100 - filebuf short_frame <=? Z.of_nat p)
             && (Z.of_nat p <? 4100 - filebuf short_frame + 8)
          then Some kEraseByte else nth_error (mem short_start) p.
Proof.
  refine (erase_buffer_memset short_frame 4100 8 short_start _ _ _ _).
  - reflexivity.
  - vm_compute. discriminate.
  - lia.
  - vm_compute. discriminate.
Defined.


(** * The events a run logs *)

Section Emitted.

Variable P : event -> bool.

Lemma emitted_refl (st : state) : emitted P st st.
Proof. exists []. split; [rewrite app_nil_r |]; reflexivity. Qed.

Lemma emitted_trans (a b c : state) :
  emitted P a b -> emitted P b c -> emitted P a c.
Proof.
  intros (t1 & E1 & Q1) (t2 & E2 & Q2). exists (t1 ++ t2).
  split; [rewrite E2, E1, app_assoc; reflexivity |].
  rewrite forallb_app, Q1, Q2. reflexivity.
Qed.

Lemma emitted_same (a b c : state) :
  emitted P a b -> trace c = trace b -> emitted P a c.
Proof. intros (t & E & Q) H. exists t. split; [congruence | exact Q]. Qed.

Lemma emitted_log (a b : state) (ev : event) :
  emitted P a b -> P ev = true -> emitted P a (log ev b).
Proof.
  intros (t & E & Q) H. exists (t ++ [ev]).
  split; [cbn [log trace set_trace]; rewrite E, app_assoc; reflexivity |].
  rewrite forallb_app, Q. cbn [forallb]. rewrite H. reflexivity.
Qed.

Lemma emitted_set_mtdoffset (a b : state) (v : Z) :
  emitted P a b -> emitted P a (set_mtdoffset v b).
Proof. intros H. exact (emitted_same a b _ H eq_refl). Qed.

Lemma emitted_set_imglen (a b : state) (v : Z) :
  emitted P a b -> emitted P a (set_imglen v b).
Proof. intros H. exact (emitted_same a b _ H eq_refl). Qed.

Lemma emitted_set_baderaseblock (a b : state) (v : bool) :
  emitted P a b -> emitted P a (set_baderaseblock v b).
Proof. intros H. exact (emitted_same a b _ H eq_refl). Qed.

Lemma emitted_set_blockstart (a b : state) (v : Z) :
  emitted P a b -> emitted P a (set_blockstart v b).
Proof. intros H. exact (emitted_same a b _ H eq_refl). Qed.

Lemma emitted_set_filebuf_len (a b : state) (v : Z) :
  emitted P a b -> emitted P a (set_filebuf_len v b).
Proof. intros H. exact (emitted_same a b _ H eq_refl). Qed.

Lemma emitted_set_writebuf (a b : state) (v : Z) :
  emitted P a b -> emitted P a (set_writebuf v b).
Proof. intros H. exact (emitted_same a b _ H eq_refl). Qed.

Lemma emitted_set_oobbuf (a b : state) (v : Z) :
  emitted P a b -> emitted P a (set_oobbuf v b).
Proof. intros H. exact (emitted_same a b _ H eq_refl). Qed.

Lemma emitted_set_mem (a b : state) (v : list byte) :
  emitted P a b -> emitted P a (set_mem v b).
Proof. intros H. exact (emitted_same a b _ H eq_refl). Qed.

Lemma emitted_set_input (a b : state) (v : list read_ret) :
  emitted P a b -> emitted P a (set_input v b).
Proof. intros H. exact (emitted_same a b _ H eq_refl). Qed.

End Emitted.

Lemma emitted_weaken (P Q : event -> bool) (a b : state) :
  (forall ev, P ev = true -> Q ev = true) -> emitted P a b -> emitted Q a b.
Proof.
  intros H (t & E & F). exists t. split; [exact E |].
  rewrite forallb_forall in *. intros ev Hin. apply H, F, Hin.
Qed.

(** Goals [emitted P st st'] where [st'] is built from [st] by assignments
    and messages. *)
Ltac emit_side :=
  cbn [scan_emits fill_emits write_emits];
  repeat match goal with
         | H : ?b = _ |- context [?b] => rewrite H
         end;
  rewrite ?Z.eqb_refl;
  reflexivity.

Ltac emit :=
  repeat first
    [ assumption
    | apply emitted_refl
    | apply emitted_set_mtdoffset | apply emitted_set_imglen
    | apply emitted_set_baderaseblock | apply emitted_set_blockstart
    | apply emitted_set_filebuf_len | apply emitted_set_writebuf
    | apply emitted_set_oobbuf | apply emitted_set_mem | apply emitted_set_input
    | apply emitted_log; [| emit_side] ].

Section Events.

Variable fr : frame.

Lemma store_emitted (P : event -> bool) (addr : Z) (bs : list byte) (a st : state) :
  emitted P a st -> emitted P a (state_of (store fr addr bs st)).
Proof. intros H. unfold store. destruct (_ && _); cbn [state_of]; emit. Qed.

Lemma erase_buffer_emitted (P : event -> bool) (buffer sz : Z) (a st : state) :
  emitted P a st -> emitted P a (state_of (erase_buffer fr buffer sz st)).
Proof.
  intros H. unfold erase_buffer.
  destruct (_ && _); [apply store_emitted; exact H | exact H].
Qed.

(** The scan. *)
Lemma scan_subunits_emitted (fuel : nat) :
  forall (a st : state) (offs : Z),
    noskipbad (opts fr) = false ->
    emitted (scan_emits fr) a st ->
    emitted (scan_emits fr) a (state_of (scan_subunits fuel fr st offs)).
Proof.
  induction fuel as [| fuel IH]; intros a st offs Hn H; cbn [scan_subunits state_of];
    [exact H |].
  destruct (ebsize_aligned fr =? 0); [exact H |]. cbv zeta.
  set (eb := wrap_int (Z.quot offs (ebsize_aligned fr))).
  set (ret := mtd_is_bad (dev fr) (trace st) eb).
  destruct (ret <? 0); [cbn [state_of]; emit |].
  set (st1 := if ret =? 1 then _ else _).
  assert (H1 : emitted (scan_emits fr) a st1).
  { subst st1. destruct (ret =? 1); [destruct (quiet (opts fr)) eqn:Hq |]; emit. }
  clearbody st1. clear H.
  set (r2 := if baderaseblock st1 then _ else _).
  assert (H2 : emitted (scan_emits fr) a (state_of r2)).
  { subst r2. destruct (baderaseblock st1); [| exact H1].
    cbv zeta. destruct (_ >? _); cbn [state_of]; emit. }
  destruct r2 as [st2 | | | | |]; cbn [bind state_of] in *; try exact H2.
  destruct (blockalign (opts fr) =? 0); [exact H2 |].
  destruct (_ <? _); [apply IH; assumption | exact H2].
Qed.

Lemma scan_turn_emitted (fuel : nat) (a st : state) :
  emitted (scan_emits fr) a st ->
  emitted (scan_emits fr) a (state_of (scan_turn fuel fr st)).
Proof.
  intros H. unfold scan_turn. cbv zeta.
  set (st0 := set_blockstart _ st).
  assert (H0 : emitted (scan_emits fr) a st0) by (subst st0; emit).
  clearbody st0. clear H.
  set (r1 := if writebuf st0 =? filebuf fr then _ else _).
  assert (H1 : emitted (scan_emits fr) a (state_of r1)).
  { subst r1. destruct (_ =? _); [exact H0 |].
    pose proof (erase_buffer_emitted (scan_emits fr) (filebuf fr) (filebuf_len st0)
                  a st0 H0) as He.
    destruct (erase_buffer fr _ _ st0); cbn [bind state_of] in *; emit. }
  destruct r1 as [st1 | | | | |]; cbn [bind state_of] in *; try exact H1.
  set (r2 := if quiet (opts fr) then _ else _).
  assert (H2 : emitted (scan_emits fr) a (state_of r2)).
  { subst r2. destruct (quiet (opts fr)) eqn:Hq; [cbn [state_of]; emit |].
    destruct (_ =? 0); cbn [state_of]; emit. }
  destruct r2 as [st2 | | | | |]; cbn [bind state_of] in *; try exact H2.
  destruct (noskipbad (opts fr)) eqn:Hn; [exact H2 |].
  apply scan_subunits_emitted; assumption.
Qed.

Lemma scan_blocks_emitted (fuel : nat) :
  forall a st : state,
    emitted (scan_emits fr) a st ->
    emitted (scan_emits fr) a (state_of (scan_blocks fuel fr st)).
Proof.
  induction fuel as [| fuel IH]; intros a st H; cbn [scan_blocks state_of]; [exact H |].
  destruct (_ =? _); [exact H |].
  pose proof (scan_turn_emitted fuel a st H) as Ht.
  destruct (scan_turn fuel fr st); cbn [bind state_of] in *; try exact Ht.
  apply IH. exact Ht.
Qed.

(** The fills. *)
Lemma read_loop_emitted (n : nat) :
  forall (a st : state) (dst tinycnt readlen cnt : Z),
    emitted (fill_emits fr) a st ->
    emitted (fill_emits fr) a (read_state (read_loop n fr st dst tinycnt readlen cnt)).
Proof.
  induction n as [| n IH]; intros a st dst tinycnt readlen cnt H; cbn [read_loop].
  - destruct (_ <? _); exact H.
  - destruct (_ <? _); [| exact H].
    destruct (sys_read (input st) _) as [[c bs] rest].
    destruct (c =? 0); [cbn [read_state fst]; emit |].
    destruct (c <? 0); [cbn [read_state]; emit |].
    pose proof (store_emitted (fill_emits fr) (dst + tinycnt) bs a (set_input rest st)
                  ltac:(emit)) as Hs.
    destruct (store fr _ bs _); cbn [bind read_state state_of] in *; try exact Hs.
    apply IH. exact Hs.
Qed.

Lemma fill_page_emitted (a st : state) :
  emitted (fill_emits fr) a st ->
  emitted (fill_emits fr) a (state_of (fill_page fr st)).
Proof.
  intros H. unfold fill_page. destruct (_ >? _); [| exact H]. cbv zeta.
  pose proof (read_loop_emitted (Z.to_nat (to_size_t (min_io_size (mtd fr)))) a st
                (writebuf st) (to_size_t (filebuf fr + filebuf_len st - writebuf st))
                (to_size_t (min_io_size (mtd fr))) 0 H) as Hr.
  destruct (read_loop _ fr st _ _ _ 0) as [[[s t] c] | | | | |];
    cbn [bind read_state state_of fst] in *; try exact Hr.
  destruct (t =? 0).
  { destruct (ifd fr =? STDIN_FILENO); cbn [state_of]; emit. }
  set (r1 := if t <? _ then _ else _).
  assert (H1 : emitted (fill_emits fr) a (state_of r1)).
  { subst r1. destruct (_ <? _); [| exact Hr].
    destruct (pad (opts fr)) eqn:Hp; [apply erase_buffer_emitted; exact Hr |].
    cbn [state_of]. emit. }
  destruct r1 as [s1 | | | | |]; cbn [bind state_of] in *; try exact H1.
  destruct (ifd fr =? STDIN_FILENO) eqn:Hi; cbn [negb].
  - destruct (c =? 0); cbn [state_of]; emit.
  - destruct (ofg_imglen fr =? 0); cbn [state_of]; emit.
Qed.

Lemma fill_oob_emitted (a st : state) :
  emitted (fill_emits fr) a st ->
  emitted (fill_emits fr) a (state_of (fill_oob fr st)).
Proof.
  intros H. unfold fill_oob. destruct (writeoob (opts fr)) eqn:Hw; [| exact H].
  cbv zeta. set (st0 := set_oobbuf _ st).
  assert (H0 : emitted (fill_emits fr) a st0) by (subst st0; emit).
  clearbody st0. clear H.
  destruct (_ >? _); [| exact H0].
  pose proof (read_loop_emitted (Z.to_nat (to_size_t (oob_size (mtd fr)))) a st0
                (oobbuf st0) (to_size_t (filebuf fr + filebuf_len st0 - oobbuf st0))
                (to_size_t (oob_size (mtd fr))) (cnt_garbage fr) H0) as Hr.
  destruct (read_loop _ fr st0 _ _ _ _) as [[[s t] c] | | | | |];
    cbn [bind read_state state_of fst] in *; try exact Hr.
  destruct (_ <? _); [cbn [state_of]; emit |].
  destruct (ifd fr =? STDIN_FILENO); cbn [negb]; [destruct (c =? 0) |];
    cbn [state_of]; emit.
Qed.

(** The write and the recovery. *)
Lemma erase_loop_emitted (fuel : nat) :
  forall (a st : state) (i : Z),
    emitted (write_emits fr) a st ->
    emitted (write_emits fr) a (state_of (erase_loop fuel fr st i)).
Proof.
  induction fuel as [| fuel IH]; intros a st i H; cbn [erase_loop].
  - destruct (_ <? _); exact H.
  - destruct (_ <? _); [| exact H].
    destruct (eb_size (mtd fr) =? 0); [exact H |]. cbv zeta.
    destruct (mtd_erase (dev fr) (trace st) _) as [| e].
    + apply IH. emit.
    + destruct (e =? EIO); [apply IH | cbn [state_of]]; emit.
Qed.

Lemma recover_emitted (fuel : nat) (a st : state) (eb : Z) :
  emitted (write_emits fr) a st ->
  emitted (write_emits fr) a (state_of (recover fuel fr st eb)).
Proof.
  intros H. unfold recover. cbv zeta.
  set (st1 := log _ (set_writebuf (filebuf fr) st)).
  assert (H1 : emitted (write_emits fr) a st1) by (subst st1; emit).
  clearbody st1. clear H.
  pose proof (erase_loop_emitted fuel a st1 (blockstart st1) H1) as He.
  destruct (erase_loop fuel fr st1 (blockstart st1)) as [st2 | | | | |];
    cbn [bind state_of] in *; try exact He.
  destruct (markbad (opts fr)) eqn:Hm; [| cbn [bind state_of]; emit].
  destruct (mtd_mark_bad (dev fr) _ eb); cbn [bind state_of]; emit.
Qed.

Lemma write_out_emitted (fuel : nat) (a st : state) :
  emitted (write_emits fr) a st ->
  emitted (write_emits fr) a (state_of (write_out fuel fr st)).
Proof.
  intros H. unfold write_out. destruct (eb_size (mtd fr) =? 0); [exact H |].
  unfold write_args.
  destruct (onlyoob (opts fr)) eqn:Ho; destruct (writeoob (opts fr)) eqn:Hw;
    repeat match goal with
           | |- context [load fr ?x ?n st] => destruct (load fr x n st)
           end;
    cbn [option_map state_of]; try exact H; cbv zeta;
    (match goal with
     | |- context [mtd_write ?d ?t ?e ?o ?x ?y ?m] =>
         destruct (mtd_write d t e o x y m) as [| en]
     end;
     [cbn [state_of]; emit
     | destruct (negb (en =? EIO)); [cbn [state_of]; emit | apply recover_emitted; emit]]).
Qed.

(** A turn, the loop, and the whole of it with the final message. *)
Lemma loop_body_emitted (fuel : nat) (st : state) :
  emitted (loop_emits fr) st (state_of (loop_body fuel fr st)).
Proof.
  assert (Ws : forall ev, scan_emits fr ev = true -> loop_emits fr ev = true)
    by (intros ev E; unfold loop_emits; rewrite E; reflexivity).
  assert (Wf : forall ev, fill_emits fr ev = true -> loop_emits fr ev = true)
    by (intros ev E; unfold loop_emits; rewrite E, orb_true_r; reflexivity).
  assert (Ww : forall ev, write_emits fr ev = true -> loop_emits fr ev = true)
    by (intros ev E; unfold loop_emits; rewrite E, orb_true_r; reflexivity).
  unfold loop_body.
  pose proof (emitted_weaken _ _ _ _ Ws
                (scan_blocks_emitted fuel st st (emitted_refl _ st))) as H1.
  destruct (scan_blocks fuel fr st) as [st1 | | | | |]; cbn [bind state_of] in *;
    try exact H1.
  pose proof (emitted_weaken _ _ _ _ Wf
                (fill_page_emitted st1 st1 (emitted_refl _ st1))) as H2.
  destruct (fill_page fr st1) as [st2 | | | | |]; cbn [bind state_of] in *;
    try exact (emitted_trans _ _ _ _ H1 H2).
  pose proof (emitted_weaken _ _ _ _ Wf
                (fill_oob_emitted st2 st2 (emitted_refl _ st2))) as H3.
  destruct (fill_oob fr st2) as [st3 | | | | |]; cbn [bind state_of] in *;
    try exact (emitted_trans _ _ _ _ H1 (emitted_trans _ _ _ _ H2 H3)).
  pose proof (emitted_weaken _ _ _ _ Ww
                (write_out_emitted fuel st3 st3 (emitted_refl _ st3))) as H4.
  exact (emitted_trans _ _ _ _ H1
           (emitted_trans _ _ _ _ H2 (emitted_trans _ _ _ _ H3 H4))).
Qed.

Lemma main_loop_emitted (fuel n : nat) :
  forall st : state, emitted (loop_emits fr) st (state_of (main_loop n fuel fr st)).
Proof.
  induction n as [| n IH]; intros st; cbn [main_loop state_of]; [apply emitted_refl |].
  destruct (loop_cond fr st); [| apply emitted_refl].
  pose proof (loop_body_emitted fuel st) as H.
  destruct (loop_body fuel fr st); cbn [state_of] in *; try exact H;
    exact (emitted_trans _ _ _ _ H (IH _)).
Qed.

Lemma write_image_emitted (fuel : nat) (st : state) :
  exists tr,
    snd (write_image fuel fr st) = trace st ++ tr
    /\ forallb (fun ev => loop_emits fr ev || is_final_message ev) tr = true.
Proof.
  unfold write_image, closeall.
  destruct (main_loop_emitted fuel fuel st) as (tr & E & Q).
  assert (Q' : forallb (fun ev => loop_emits fr ev || is_final_message ev) tr = true).
  { rewrite forallb_forall in *. intros ev Hin. rewrite (Q ev Hin). reflexivity. }
  assert (Q'' : forallb (fun ev => loop_emits fr ev || is_final_message ev)
                  (tr ++ [EvMsg MsgPartiallyWritten]) = true).
  { rewrite forallb_app, Q'. reflexivity. }
  destruct (main_loop fuel fuel fr st); cbn [state_of snd] in *;
    repeat match goal with
           | |- context [if ?c then _ else _] => destruct c
           end;
    rewrite E, <- ?app_assoc; eauto.
Qed.

End Events.


(** * What the options switch off *)

(** The events before the loop. *)
Lemma prelude_events (e : env) (o : options) (img : string) :
  forallb (is_prelude_event o)
    (match prelude e o img with
     | inl (_, st0) => trace st0
     | inr r => snd r
     end) = true.
Proof.
  unfold prelude.
  destruct (device_opens e); cbn [negb]; [| reflexivity].
  destruct (libmtd_opens e); cbn [negb]; [| reflexivity].
  destruct (dev_info e) as [m |]; [| reflexivity].
  destruct (negb (Z.land _ _ =? 0)); [reflexivity |].
  destruct (if noecc o then _ else _) as [tr | tr] eqn:Etr.
  2:{ cbn [snd]. destruct (noecc o) eqn:Hn; [| discriminate].
      destruct (ioctl_filemode (device e) []); inversion Etr.
      cbn [forallb is_prelude_event]. rewrite Hn. reflexivity. }
  assert (Htr : forallb (is_prelude_event o) tr = true).
  { destruct (noecc o) eqn:Hn.
    - destruct (ioctl_filemode (device e) []); inversion Etr.
      cbn [forallb is_prelude_event]. rewrite Hn. reflexivity.
    - inversion Etr. reflexivity. }
  assert (Hclose : forall ifd_v len src ev,
             forallb (is_prelude_event o) ev = true ->
             forallb (is_prelude_event o)
               (snd (closeall true ifd_v NULL (locals0 o len src (tr ++ ev)))) = true).
  { intros ifd_v len src ev Q. unfold closeall. cbn [orb snd locals0 trace].
    rewrite !forallb_app, Htr, Q. reflexivity. }
  destruct (open_input e o img _ tr) as [[[[ifd_v len] ofg] src] | [[ifd_v len] tr']] eqn:Eoi.
  2:{ assert (exists ev, tr' = tr ++ ev /\ forallb (is_prelude_event o) ev = true)
        as (ev & -> & Qev).
      { unfold open_input in Eoi. destruct (String.eqb img "-").
        - destruct (negb (inputskip o =? 0)); inversion Eoi.
          eexists [_]. split; reflexivity.
        - destruct (image e) as [f |]; [| inversion Eoi; eexists [_]; split; reflexivity].
          destruct (if inputsize o =? 0 then _ else _) as [[a b] |];
            [| inversion Eoi; eexists [_]; split; reflexivity].
          destruct (_ && _); inversion Eoi. eexists [_]. split; reflexivity. }
      apply Hclose. exact Qev. }
  destruct (_ =? 0); [exact Htr |].
  destruct (_ && _); [apply Hclose; reflexivity |].
  destruct (_ >? _); [apply Hclose; reflexivity |].
  destruct (_ =? 0); [exact Htr |].
  destruct (_ <? 0); [exact Htr |].
  cbn [trace set_mem locals0]. exact Htr.
Qed.

Lemma prelude_mode (e : env) (o : options) (img : string) (fr : frame) (st0 : state) :
  prelude e o img = inl (fr, st0) -> write_mode fr = mode_of o.
Proof.
  unfold prelude. intros H.
  destruct (device_opens e); [cbn [negb] in H | discriminate].
  destruct (libmtd_opens e); [cbn [negb] in H | discriminate].
  destruct (dev_info e) as [m |]; [| discriminate].
  destruct (negb (Z.land _ _ =? 0)); [discriminate |].
  destruct (if noecc o then _ else _) as [tr | tr]; [| discriminate].
  destruct (open_input e o img _ tr) as [[[[ifd_v imglen_v] ofg] src] | [[? ?] ?]];
    [| discriminate].
  destruct (_ =? 0); [discriminate |].
  destruct (_ && _); [discriminate |].
  destruct (_ >? _); [discriminate |].
  destruct (_ =? 0); [discriminate |].
  destruct (_ <? 0); [discriminate |].
  inversion H. reflexivity.
Qed.

(** Every event of a run is one of the part before the loop, one of the
    loop, or the final message. *)
Lemma nandwrite_main_events (fuel : nat) (e : env) (o0 o : options)
    (args : list parsed_option) (positional : list string) (d img : string) :
  process_options o0 args positional = inl (o, d, img) ->
  forall ev,
    In ev (snd (nandwrite_main fuel e o0 args positional)) ->
    is_prelude_event o ev = true
    \/ exists fr st0, prelude e o img = inl (fr, st0) /\ loop_emits fr ev = true.
Proof.
  intros Hp ev. unfold nandwrite_main. rewrite Hp.
  pose proof (prelude_events e o img) as Q.
  destruct (prelude e o img) as [[fr st0] | r] eqn:Epre.
  - destruct (write_image_emitted fr fuel st0) as (tr & -> & Qt).
    rewrite forallb_forall in Q, Qt. intros Hin.
    apply in_app_or in Hin. destruct Hin as [Hin | Hin]; [left; apply Q; exact Hin |].
    specialize (Qt ev Hin). apply orb_true_iff in Qt. destruct Qt as [Ql | Qf].
    + right. exists fr, st0. split; [reflexivity | exact Ql].
    + left. destruct ev as [[] | | | | | |]; try discriminate. reflexivity.
  - rewrite forallb_forall in Q. intros Hin. left. apply Q. exact Hin.
Qed.

(** X4. With [--noskipbad] a run never asks the device whether a block is
    bad, and never skips one. *)
Theorem noskipbad_never_queries (fuel : nat) (e : env) (o0 o : options)
    (args : list parsed_option) (positional : list string) (d img : string) :
  process_options o0 args positional = inl (o, d, img) ->
  noskipbad o = true ->
  forallb (fun ev => negb (concerns_bad_blocks ev))
    (snd (nandwrite_main fuel e o0 args positional)) = true.
Proof.
  intros Hp Hn. apply forallb_forall. intros ev Hin.
  destruct (nandwrite_main_events fuel e o0 o args positional d img Hp ev Hin)
    as [Q | (fr & st0 & Epre & Q)].
  - destruct ev as [[] | | | | | |]; try discriminate; reflexivity.
  - destruct (prelude_start e o img fr st0 Epre) as (Eo & _).
    unfold loop_emits in Q.
    destruct ev as [[] | | | | | |]; try reflexivity;
      cbn [scan_emits fill_emits write_emits orb] in Q;
      rewrite Eo, Hn in Q; rewrite ?andb_false_r in Q; discriminate.
Qed.

Lemma noskipbad_never_queries_witness :
  forallb (fun ev => negb (concerns_bad_blocks ev))
    (snd (nandwrite_main 40 (env_of (flash_with_bad [0]) (file_of two_pages) [])
            initial_options unchecked_quiet ["/dev/mtd0"; "img"]%string)) = true.
Proof.
  refine (noskipbad_never_queries 40 _ initial_options _ unchecked_quiet
            ["/dev/mtd0"; "img"]%string _ _ _ _).
  - reflexivity.
  - reflexivity.
Defined.

(** X5. Without [--markbad] a run never marks a block bad, whatever
    fails. *)
Theorem unasked_never_marks (fuel : nat) (e : env) (o0 o : options)
    (args : list parsed_option) (positional : list string) (d img : string) :
  process_options o0 args positional = inl (o, d, img) ->
  markbad o = false ->
  forallb (fun ev => negb (concerns_marking ev))
    (snd (nandwrite_main fuel e o0 args positional)) = true.
Proof.
  intros Hp Hn. apply forallb_forall. intros ev Hin.
  destruct (nandwrite_main_events fuel e o0 o args positional d img Hp ev Hin)
    as [Q | (fr & st0 & Epre & Q)].
  - destruct ev as [[] | | | | | |]; try discriminate; reflexivity.
  - destruct (prelude_start e o img fr st0 Epre) as (Eo & _).
    unfold loop_emits in Q.
    destruct ev as [[] | | | | | |]; try reflexivity;
      cbn [scan_emits fill_emits write_emits orb] in Q;
      rewrite Eo, Hn in Q; discriminate.
Qed.

Lemma unasked_never_marks_witness :
  forallb (fun ev => negb (concerns_marking ev))
    (snd (nandwrite_main 40 (env_of (flash_failing_once EIO) (file_of two_pages) [])
            initial_options [] ["/dev/mtd0"; "img"]%string)) = true.
Proof.
  refine (unasked_never_marks 40 _ initial_options _ []
            ["/dev/mtd0"; "img"]%string _ _ _ _).
  - reflexivity.
  - reflexivity.
Defined.

(** X6. With [--quiet] neither "Writing data to block" nor "Bad block at"
    is printed. *)
Theorem quiet_prints_no_block_message (fuel : nat) (e : env) (o0 o : options)
    (args : list parsed_option) (positional : list string) (d img : string) :
  process_options o0 args positional = inl (o, d, img) ->
  quiet o = true ->
  forallb (fun ev => negb (is_block_message ev))
    (snd (nandwrite_main fuel e o0 args positional)) = true.
Proof.
  intros Hp Hn. apply forallb_forall. intros ev Hin.
  destruct (nandwrite_main_events fuel e o0 o args positional d img Hp ev Hin)
    as [Q | (fr & st0 & Epre & Q)].
  - destruct ev as [[] | | | | | |]; try discriminate; reflexivity.
  - destruct (prelude_start e o img fr st0 Epre) as (Eo & _).
    unfold loop_emits in Q.
    destruct ev as [[] | | | | | |]; try reflexivity;
      cbn [scan_emits fill_emits write_emits orb] in Q;
      rewrite Eo, Hn in Q; discriminate.
Qed.

Lemma quiet_prints_no_block_message_witness :
  forallb (fun ev => negb (is_block_message ev))
    (snd (nandwrite_main 40 (env_of (flash_with_bad [0]) (file_of two_pages) [])
            initial_options [opt_q] ["/dev/mtd0"; "img"]%string)) = true.
Proof.
  refine (quiet_prints_no_block_message 40 _ initial_options _ [opt_q]
            ["/dev/mtd0"; "img"]%string _ _ _ _).
  - reflexivity.
  - reflexivity.
Defined.

(** X7. For an image read from standard input no progress is reported. *)
Theorem stdin_reports_no_progress (fuel : nat) (e : env) (o0 o : options)
    (args : list parsed_option) (positional : list string) (d img : string) :
  process_options o0 args positional = inl (o, d, img) ->
  String.eqb img "-" = true ->
  forallb (fun ev => negb (is_progress ev))
    (snd (nandwrite_main fuel e o0 args positional)) = true.
Proof.
  intros Hp Hn. apply forallb_forall. intros ev Hin.
  destruct (nandwrite_main_events fuel e o0 o args positional d img Hp ev Hin)
    as [Q | (fr & st0 & Epre & Q)].
  - destruct ev as [[] | | | | | |]; try discriminate; reflexivity.
  - destruct (prelude_start e o img fr st0 Epre) as (_ & _ & _ & _ & _ & _ & _ & Hs & _).
    destruct (Hs Hn) as (Ei & _).
    unfold loop_emits in Q.
    destruct ev as [[] | | | | | |]; try reflexivity;
      cbn [scan_emits fill_emits write_emits orb] in Q;
      rewrite Ei in Q; discriminate.
Qed.

Lemma stdin_reports_no_progress_witness :
  forallb (fun ev => negb (is_progress ev))
    (snd (nandwrite_main 40 (env_of good_flash (file_of []) [RdData two_pages])
            initial_options [] ["/dev/mtd0"]%string)) = true.
Proof.
  refine (stdin_reports_no_progress 40 _ initial_options _ []
            ["/dev/mtd0"]%string _ _ _ _).
  - reflexivity.
  - reflexivity.
Defined.

(** X8. Every page write of a run is shaped by the options alone: the
    write mode is raw with [--noecc], automatic placement with
    [--autoplace] and placement otherwise; main data is passed unless
    [--onlyoob] is set, OOB data exactly when [--oob] or [--onlyoob] is. *)
Theorem writes_shaped_by_options (fuel : nat) (e : env) (o0 o : options)
    (args : list parsed_option) (positional : list string) (d img : string) :
  process_options o0 args positional = inl (o, d, img) ->
  forallb (shaped_write o) (snd (nandwrite_main fuel e o0 args positional)) = true.
Proof.
  intros Hp. apply forallb_forall. intros ev Hin.
  destruct (nandwrite_main_events fuel e o0 o args positional d img Hp ev Hin)
    as [Q | (fr & st0 & Epre & Q)].
  - destruct ev as [[] | | | | | |]; try discriminate; reflexivity.
  - destruct (prelude_start e o img fr st0 Epre) as (Eo & _).
    pose proof (prelude_mode e o img fr st0 Epre) as Em.
    unfold loop_emits in Q.
    destruct ev as [[] | | | | | |]; try reflexivity.
    cbn [scan_emits fill_emits write_emits orb] in Q.
    rewrite Eo, Em in Q. exact Q.
Qed.

Lemma writes_shaped_by_options_witness :
  forallb (shaped_write
             {| o_mtdoffset := 0; inputskip := 0; inputsize := 0; quiet := false;
                writeoob := false; onlyoob := false; markbad := false; noecc := true;
                autoplace := false; noskipbad := false; pad := false; blockalign := 1 |})
    (snd (nandwrite_main 40 (env_of good_flash (file_of two_pages) [])
            initial_options [opt_n] ["/dev/mtd0"; "img"]%string)) = true.
Proof.
  refine (writes_shaped_by_options 40 _ initial_options _ [opt_n]
            ["/dev/mtd0"; "img"]%string _ _ _).
  reflexivity.
Defined.


(** * Erases only happen in the recovery *)

Lemma guarded_mono (tr : list event) :
  forall rec, guarded rec tr = true -> guarded true tr = true.
Proof.
  induction tr as [| ev tr IH]; intros rec H; [reflexivity |].
  cbn [guarded] in *. destruct (is_eio_write ev); [exact H |].
  destruct (is_recovery_event ev).
  - apply andb_true_iff in H. destruct H as (_ & H). cbn [andb]. exact (IH _ H).
  - exact H.
Qed.

Lemma guarded_app (a : list event) :
  forall (b : list event) (rec : bool),
    guarded rec a = true -> guarded false b = true -> guarded rec (a ++ b) = true.
Proof.
  induction a as [| ev a IH]; intros b rec Ha Hb; cbn [app guarded] in *.
  - destruct rec; [exact (guarded_mono b false Hb) | exact Hb].
  - destruct (is_eio_write ev); [apply IH; assumption |].
    destruct (is_recovery_event ev).
    + apply andb_true_iff in Ha. destruct Ha as (-> & Ha). cbn [andb].
      apply IH; assumption.
    + apply IH; assumption.
Qed.

Lemma guarded_quiet (tr : list event) :
  forall rec,
    forallb (fun ev => negb (is_recovery_event ev)) tr = true -> guarded rec tr = true.
Proof.
  induction tr as [| ev tr IH]; intros rec H; [reflexivity |].
  cbn [forallb guarded] in *. apply andb_true_iff in H. destruct H as (H1 & H2).
  destruct (is_eio_write ev); [apply IH; exact H2 |].
  destruct (is_recovery_event ev); [discriminate | apply IH; exact H2].
Qed.

Lemma guarded_recovery (tr : list event) :
  forallb is_recovery_event tr = true -> guarded true tr = true.
Proof.
  induction tr as [| ev tr IH]; intros H; [reflexivity |].
  cbn [forallb guarded] in *. apply andb_true_iff in H. destruct H as (H1 & H2).
  rewrite H1. destruct (is_eio_write ev); [exact (IH H2) | exact (IH H2)].
Qed.

Lemma extended_refl (st : state) : extended (guarded false) st st.
Proof. exists []. split; [rewrite app_nil_r |]; reflexivity. Qed.

Lemma extended_trans (a b c : state) :
  extended (guarded false) a b -> extended (guarded false) b c ->
  extended (guarded false) a c.
Proof.
  intros (t1 & E1 & Q1) (t2 & E2 & Q2). exists (t1 ++ t2).
  split; [rewrite E2, E1, app_assoc; reflexivity | apply guarded_app; assumption].
Qed.

Lemma emitted_extended (P : event -> bool) (a b : state) :
  (forall ev, P ev = true -> is_recovery_event ev = false) ->
  emitted P a b -> extended (guarded false) a b.
Proof.
  intros H (t & E & Q). exists t. split; [exact E |]. apply guarded_quiet.
  rewrite forallb_forall in *. intros ev Hin. rewrite (H ev (Q ev Hin)). reflexivity.
Qed.

Section Recovery.

Variable fr : frame.

Lemma erase_loop_recovery (fuel : nat) :
  forall (a st : state) (i : Z),
    emitted is_recovery_event a st ->
    emitted is_recovery_event a (state_of (erase_loop fuel fr st i)).
Proof.
  induction fuel as [| fuel IH]; intros a st i H; cbn [erase_loop].
  - destruct (_ <? _); exact H.
  - destruct (_ <? _); [| exact H].
    destruct (eb_size (mtd fr) =? 0); [exact H |]. cbv zeta.
    destruct (mtd_erase (dev fr) (trace st) _) as [| e].
    + apply IH. emit.
    + destruct (e =? EIO); [apply IH | cbn [state_of]]; emit.
Qed.

(** Everything the recovery logs is an event of the recovery. *)
Lemma recover_recovery (fuel : nat) (st : state) (eb : Z) :
  emitted is_recovery_event st (state_of (recover fuel fr st eb)).
Proof.
  unfold recover. cbv zeta.
  set (st1 := log _ (set_writebuf (filebuf fr) st)).
  assert (H1 : emitted is_recovery_event st st1) by (subst st1; emit).
  clearbody st1.
  pose proof (erase_loop_recovery fuel st st1 (blockstart st1) H1) as He.
  destruct (erase_loop fuel fr st1 (blockstart st1)) as [st2 | | | | |];
    cbn [bind state_of] in *; try exact He.
  destruct (markbad (opts fr)); [| cbn [bind state_of]; emit].
  destruct (mtd_mark_bad (dev fr) _ eb); cbn [bind state_of]; emit.
Qed.

Lemma write_out_guarded (fuel : nat) (st : state) :
  extended (guarded false) st (state_of (write_out fuel fr st)).
Proof.
  unfold write_out. destruct (eb_size (mtd fr) =? 0); [apply extended_refl |].
  destruct (write_args fr st) as [[data oob] |]; [| apply extended_refl]. cbv zeta.
  set (eb := wrap_int (Z.quot (mtdoffset st) (eb_size (mtd fr)))).
  set (offs := wrap_int (Z.rem (mtdoffset st) (eb_size (mtd fr)))).
  destruct (mtd_write (dev fr) (trace st) eb offs data oob (write_mode fr)) as [| en].
  - cbn [state_of]. eexists [_]. split; reflexivity.
  - destruct (Z.eqb_spec en EIO) as [-> | Ne]; cbn [negb].
    + destruct (recover_recovery fuel
                  (log (EvWrite eb offs data oob (write_mode fr) (IoErr EIO)) st) eb)
        as (tr & E & Q).
      exists (EvWrite eb offs data oob (write_mode fr) (IoErr EIO) :: tr).
      split; [rewrite E; cbn [log trace set_trace]; rewrite <- app_assoc; reflexivity |].
      cbn [guarded is_eio_write]. rewrite Z.eqb_refl. apply guarded_recovery. exact Q.
    + cbn [state_of]. eexists [_; _].
      split; [cbn [log trace set_trace]; rewrite <- app_assoc; reflexivity |].
      cbn [guarded is_eio_write is_recovery_event].
      replace (en =? EIO) with false by (symmetry; apply Z.eqb_neq; exact Ne).
      reflexivity.
Qed.

Lemma loop_body_guarded (fuel : nat) (st : state) :
  extended (guarded false) st (state_of (loop_body fuel fr st)).
Proof.
  assert (Ws : forall ev, scan_emits fr ev = true -> is_recovery_event ev = false)
    by (intros [[] | | | | | |] E; try reflexivity; discriminate E).
  assert (Wf : forall ev, fill_emits fr ev = true -> is_recovery_event ev = false)
    by (intros [[] | | | | | |] E; try reflexivity; discriminate E).
  unfold loop_body.
  pose proof (emitted_extended _ _ _ Ws
                (scan_blocks_emitted fr fuel st st (emitted_refl _ st))) as H1.
  destruct (scan_blocks fuel fr st) as [st1 | | | | |]; cbn [bind state_of] in *;
    try exact H1.
  pose proof (emitted_extended _ _ _ Wf
                (fill_page_emitted fr st1 st1 (emitted_refl _ st1))) as H2.
  destruct (fill_page fr st1) as [st2 | | | | |]; cbn [bind state_of] in *;
    try exact (extended_trans _ _ _ H1 H2).
  pose proof (emitted_extended _ _ _ Wf
                (fill_oob_emitted fr st2 st2 (emitted_refl _ st2))) as H3.
  destruct (fill_oob fr st2) as [st3 | | | | |]; cbn [bind state_of] in *;
    try exact (extended_trans _ _ _ H1 (extended_trans _ _ _ H2 H3)).
  exact (extended_trans _ _ _ H1
           (extended_trans _ _ _ H2
              (extended_trans _ _ _ H3 (write_out_guarded fuel st3)))).
Qed.

Lemma main_loop_guarded (fuel n : nat) :
  forall st : state, extended (guarded false) st (state_of (main_loop n fuel fr st)).
Proof.
  induction n as [| n IH]; intros st; cbn [main_loop state_of]; [apply extended_refl |].
  destruct (loop_cond fr st); [| apply extended_refl].
  pose proof (loop_body_guarded fuel st) as H.
  destruct (loop_body fuel fr st); cbn [state_of] in *; try exact H;
    exact (extended_trans _ _ _ H (IH _)).
Qed.

End Recovery.

(** X9. In every run, an erase or a bad block mark only occurs in the
    recovery that directly follows a page write answered with [EIO]: between
    that write and the erase or mark there are only events of that
    recovery. *)
Theorem erases_only_in_recovery (fuel : nat) (e : env) (o0 : options)
    (args : list parsed_option) (positional : list string) :
  guarded false (snd (nandwrite_main fuel e o0 args positional)) = true.
Proof.
  unfold nandwrite_main.
  destruct (process_options o0 args positional) as [[[o d] img] | out]; [| reflexivity].
  pose proof (prelude_events e o img) as Q.
  assert (Hq : forall tr, forallb (is_prelude_event o) tr = true ->
                          guarded false tr = true).
  { intros tr F. apply guarded_quiet. rewrite forallb_forall in *. intros ev Hin.
    specialize (F ev Hin). destruct ev as [[] | | | | | |]; try reflexivity; discriminate. }
  destruct (prelude e o img) as [[fr st0] | r]; [| apply Hq; exact Q].
  unfold write_image, closeall.
  destruct (main_loop_guarded fr fuel fuel st0) as (tr & E & G).
  assert (G1 : guarded false (trace st0 ++ tr) = true)
    by (apply guarded_app; [apply Hq; exact Q | exact G]).
  assert (G2 : guarded false ((trace st0 ++ tr) ++ [EvMsg MsgPartiallyWritten]) = true)
    by (apply guarded_app; [exact G1 | reflexivity]).
  destruct (main_loop fuel fuel fr st0); cbn [state_of snd] in *;
    repeat match goal with
           | |- context [if ?c then _ else _] => destruct c
           end;
    rewrite E; assumption.
Qed.


(** * Where the pages are written *)

Section Turn.

Variable fr : frame.
Variable q : Z.
Hypothesis G : geometry fr q.

(** A turn of the loop ends before the write, having logged events of the
    scan and the fills only, or it issues one page write, from a state that
    is ready for it, and logs what follows that write. *)
Lemma turn_shape (fuel : nat) (st : state) :
  loop_inv fr st -> mtdoffset st < size (mtd fr) ->
  (emitted (fun ev => scan_emits fr ev || fill_emits fr ev) st
     (state_of (loop_body fuel fr st))
   /\ match loop_body fuel fr st with
      | Next _ | Continue _ => False
      | _ => True
      end)
  \/ (exists st1 st3 r rest,
         scan_blocks fuel fr st = Next st1
         /\ emitted (fill_emits fr) st1 st3
         /\ ready_inv fr st3
         /\ mtdoffset st3 = mtdoffset st1 /\ blockstart st3 = blockstart st1
         /\ mtdoffset st3 <= size (mtd fr)
         /\ trace (state_of (loop_body fuel fr st))
            = trace st3 ++ write_event fr st3 r :: rest
         /\ forallb follows_write rest = true
         /\ match loop_body fuel fr st with
            | Continue st' =>
                loop_inv fr st' /\ blockstart st' = blockstart st3
                /\ (mtdoffset st' = mtdoffset st3 + min_io_size (mtd fr)
                    \/ mtdoffset st' = blockstart st3 + ebsize_aligned fr)
            | Next _ => False
            | _ => True
            end).
Proof.
  intros Hinv Hsz.
  assert (Ws : forall ev, scan_emits fr ev = true ->
                          scan_emits fr ev || fill_emits fr ev = true)
    by (intros ev E; rewrite E; reflexivity).
  assert (Wf : forall ev, fill_emits fr ev = true ->
                          scan_emits fr ev || fill_emits fr ev = true)
    by (intros ev E; rewrite E, orb_true_r; reflexivity).
  pose proof (emitted_weaken _ _ _ _ Ws
                (scan_blocks_emitted fr fuel st st (emitted_refl _ st))) as H1.
  pose proof (scan_blocks_spec fr q G fuel st Hinv ltac:(lia)) as S. cbv zeta in S.
  destruct S as (m0 & b0 & bs0 & tr0 & stb0 & _ & _ & _ & _ & Hr & _).
  unfold loop_body.
  destruct (scan_blocks fuel fr st) as [st1 | | | s | | s] eqn:Es;
    try contradiction; cbn [bind state_of] in *;
    [| left; split; [exact H1 | exact I] | left; split; [exact H1 | exact I]].
  destruct (scan_blocks_next fr q G fuel st st1 Hinv ltac:(lia) Es) as (Hf & Hle1 & _).
  pose proof (fill_page_emitted fr st1 st1 (emitted_refl _ st1)) as H2.
  pose proof (fill_page_step fr q G st1 Hf) as Hstep. destruct Hstep as (Q1 & Hh).
  destruct (fill_page fr st1) as [st2 | | s | s | w s |] eqn:Ep;
    try contradiction; cbn [bind state_of] in *;
    try (left; split;
         [exact (emitted_trans _ _ _ _ H1 (emitted_weaken _ _ _ _ Wf H2)) | exact I]).
  pose proof (fill_oob_emitted fr st2 st2 (emitted_refl _ st2)) as H3.
  pose proof (fill_oob_step fr q G st2 Hh) as Hstep. destruct Hstep as (Q2 & Hrd).
  destruct (fill_oob fr st2) as [st3 | | | s | |] eqn:Eo;
    try contradiction; cbn [bind state_of] in *;
    try (left; split;
         [exact (emitted_trans _ _ _ _ H1
                   (emitted_weaken _ _ _ _ Wf (emitted_trans _ _ _ _ H2 H3)))
         | exact I]).
  right.
  destruct Q1 as (Em2 & Eb2 & _). destruct Q2 as (Em3 & Eb3 & _).
  pose proof (geo_start _ _ G) as Hs0. pose proof (geo_size _ _ G) as Ps.
  pose proof Hrd as (((Ho1 & _) & _ & (Hbs & _)) & _).
  destruct (mask_bounds fr q G (mtdoffset st3) ltac:(lia)) as (Mb1 & _).
  rewrite <- Hbs in Mb1.
  pose proof (write_out_spec fr q G fuel st3 Hrd ltac:(lia)) as Ewo. cbv zeta in Ewo.
  pose proof (write_out_step fr q G fuel st3 Hrd ltac:(lia)) as Hws.
  set (ret := mtd_write (dev fr) (trace st3) _ _ _ _ _) in Ewo.
  exists st1, st3, ret.
  assert (Hrest : exists rest,
             trace (state_of (write_out fuel fr st3))
             = trace st3 ++ write_event fr st3 ret :: rest
             /\ forallb follows_write rest = true).
  { rewrite Ewo. destruct ret as [| en].
    - exists []. split; reflexivity.
    - destruct (negb (en =? EIO)).
      + eexists [_]. split; [cbn [state_of log trace set_trace];
                             rewrite <- app_assoc; reflexivity | reflexivity].
      + destruct (recover_recovery fr fuel (log (write_event fr st3 (IoErr en)) st3)
                    (wrap_int (Z.quot (mtdoffset st3) (eb_size (mtd fr)))))
          as (tr & E & Q).
        exists tr. split; [rewrite E; cbn [log trace set_trace];
                           rewrite <- app_assoc; reflexivity |].
        rewrite forallb_forall in *. intros ev Hin. unfold follows_write.
        rewrite (Q ev Hin). reflexivity. }
  destruct Hrest as (rest & Et & Qr). exists rest.
  split; [reflexivity |]. split; [exact (emitted_trans _ _ _ _ H2 H3) |].
  split; [exact Hrd |]. split; [congruence |]. split; [congruence |].
  split; [lia |]. split; [exact Et |]. split; [exact Qr |].
  destruct (write_out fuel fr st3); try contradiction; try exact I.
  destruct Hws as (A & B & _ & C). split; [exact A |]. split; [exact B | exact C].
Qed.

(** The page write a state that is ready issues is in bounds. *)
Lemma write_event_in_bounds (st : state) (r : io_result) :
  ready_inv fr st -> mtdoffset st <= size (mtd fr) ->
  write_in_bounds fr (write_event fr st r) = true.
Proof.
  intros ((Ho & Hb & Ha) & Hst & _) Hsz.
  destruct Ho as (Ho1 & Ho2 & Ho3). destruct Hb as (Hmm & Hc0 & Hmax & _).
  pose proof (geo_start _ _ G) as Hs0. pose proof (geo_eb _ _ G) as Pe.
  pose proof (geo_cnt _ _ G) as Pc. pose proof (eb_size_small fr q G) as Peb.
  pose proof (geo_int _ _ G) as Pi. pose proof (geo_page _ _ G) as Ppg.
  pose proof (geo_pagelen _ _ G) as Epl. pose proof (geo_oob _ _ G) as Poob.
  unfold write_event, write_in_bounds. cbv zeta.
  rewrite (write_offset fr q G) by lia.
  rewrite Z.quot_div_nonneg, Z.rem_mod_nonneg by lia.
  pose proof (Z.mod_pos_bound (mtdoffset st) _ Pe).
  assert (0 <= mtdoffset st / eb_size (mtd fr)) by (apply Z.div_pos; lia).
  pose proof (Z.div_le_mono (mtdoffset st) (size (mtd fr)) (eb_size (mtd fr)) Pe
                ltac:(lia)).
  rewrite !wrap_int_small by lia.
  assert (Hmod : mtdoffset st mod min_io_size (mtd fr) = 0)
    by (apply Z.mod_divide; [lia | exact Ho3]).
  rewrite Hmod.
  repeat (apply andb_true_iff; split); try (apply Z.leb_le; lia);
    try (apply Z.ltb_lt; lia); try reflexivity.
  - unfold page_data. destruct (onlyoob (opts fr)); [reflexivity |].
    apply Z.eqb_eq. rewrite length_firstn, length_skipn. unfold cursor in *.
    destruct (writeoob (opts fr)); lia.
  - unfold page_oob. destruct (writeoob (opts fr)); [| reflexivity].
    apply Z.eqb_eq. rewrite length_firstn, length_skipn. unfold cursor in *. lia.
Qed.

Lemma loop_body_in_bounds (fuel : nat) (st : state) :
  loop_inv fr st -> mtdoffset st < size (mtd fr) ->
  emitted (write_in_bounds fr) st (state_of (loop_body fuel fr st)).
Proof.
  intros Hinv Hsz.
  assert (W1 : forall ev, scan_emits fr ev || fill_emits fr ev = true ->
                          write_in_bounds fr ev = true)
    by (intros [[] | | | | | |] E; try reflexivity; discriminate E).
  assert (W2 : forall ev, fill_emits fr ev = true -> write_in_bounds fr ev = true)
    by (intros [[] | | | | | |] E; try reflexivity; discriminate E).
  assert (W3 : forall ev, scan_emits fr ev = true -> write_in_bounds fr ev = true)
    by (intros [[] | | | | | |] E; try reflexivity; discriminate E).
  destruct (turn_shape fuel st Hinv Hsz)
    as [(H & _) | (st1 & st3 & r & rest & Es & Hfill & Hrd & Em & Eb & Hle & Et & Qr & _)].
  - exact (emitted_weaken _ _ _ _ W1 H).
  - pose proof (emitted_weaken _ _ _ _ W3
                  (scan_blocks_emitted fr fuel st st (emitted_refl _ st))) as H1.
    rewrite Es in H1. cbn [state_of] in H1.
    apply (emitted_trans _ st st3);
      [exact (emitted_trans _ _ _ _ H1 (emitted_weaken _ _ _ _ W2 Hfill)) |].
    exists (write_event fr st3 r :: rest). split; [exact Et |].
    cbn [forallb]. rewrite (write_event_in_bounds st3 r Hrd Hle). cbn [andb].
    rewrite forallb_forall in *. intros ev Hin. specialize (Qr ev Hin).
    destruct ev as [[] | | | | | |]; try reflexivity; discriminate Qr.
Qed.

Lemma main_loop_in_bounds (fuel n : nat) :
  forall st : state,
    at_start fr st \/ loop_inv fr st ->
    emitted (write_in_bounds fr) st (state_of (main_loop n fuel fr st)).
Proof.
  induction n as [| n IH]; intros st Hi; cbn [main_loop state_of]; [apply emitted_refl |].
  destruct (loop_cond fr st) eqn:Hc; [| apply emitted_refl].
  pose proof (loop_cond_size fr st Hc) as Hsz.
  assert (Hinv : loop_inv fr st)
    by (destruct Hi as [H0 | Hl]; [apply (start_loop_inv fr q G); assumption | exact Hl]).
  pose proof (loop_body_in_bounds fuel st Hinv Hsz) as H.
  pose proof (loop_body_step fr q G fuel st Hinv Hsz) as (_ & Hstep).
  destruct (loop_body fuel fr st) as [s | s | s | s | w s | s]; cbn [state_of] in *;
    try exact H; try contradiction.
  destruct Hstep as (Hinv' & _).
  exact (emitted_trans _ _ _ _ H (IH s (or_intror Hinv'))).
Qed.

End Turn.

Lemma write_image_in_bounds (fr : frame) (q : Z) (fuel : nat) (st0 : state) :
  geometry fr q -> at_start fr st0 ->
  forallb (write_in_bounds fr) (trace st0) = true ->
  forallb (write_in_bounds fr) (snd (write_image fuel fr st0)) = true.
Proof.
  intros G H0 Q0. unfold write_image, closeall.
  destruct (main_loop_in_bounds fr q G fuel fuel st0 (or_introl H0)) as (tr & E & Q).
  destruct (main_loop fuel fuel fr st0); cbn [state_of snd] in *;
    repeat match goal with
           | |- context [if ?c then _ else _] => destruct c
           end;
    rewrite E, ?forallb_app, Q0, Q; reflexivity.
Qed.

(** The events [prelude] leaves are no page writes and no queries. *)
Lemma prelude_quiet (e : env) (o : options) (img : string) (fr : frame) (st0 : state) :
  prelude e o img = inl (fr, st0) ->
  forallb (fun ev => negb (is_write ev) && negb (is_query ev)) (trace st0) = true.
Proof.
  intros Hp. pose proof (prelude_events e o img) as Q. rewrite Hp in Q.
  rewrite forallb_forall in *. intros ev Hin. specialize (Q ev Hin).
  destruct ev as [[] | | | | | |]; try reflexivity; discriminate Q.
Qed.

(** X10. On a sane geometry every page write of the loop is addressed by an
    erase block and an offset inside it, at a page-aligned device offset
    that is not below the start offset and not above the device size (the
    offset is compared with the size at the head of the loop only, so a
    write at the size itself is attempted when the last block was skipped),
    and it carries a whole page of main data and the whole OOB when these
    are passed. *)
Theorem writes_in_bounds (fuel : nat) (e : env) (o : options) (img : string)
    (fr : frame) (st0 : state) :
  prelude e o img = inl (fr, st0) ->
  sane_frame fr = true ->
  forallb (write_in_bounds fr) (snd (write_image fuel fr st0)) = true.
Proof.
  intros Hp Hs. destruct (sane_geometry fr Hs) as (q & G).
  destruct (prelude_start e o img fr st0 Hp) as (_ & _ & _ & _ & H0 & _).
  apply (write_image_in_bounds fr q fuel st0 G H0).
  pose proof (prelude_quiet e o img fr st0 Hp) as Q.
  rewrite forallb_forall in *. intros ev Hin. specialize (Q ev Hin).
  destruct ev; try reflexivity; discriminate Q.
Qed.

Lemma writes_in_bounds_witness :
  forallb (write_in_bounds (frame_of good_flash initial_options))
    (snd (write_image 40 (frame_of good_flash initial_options)
            (start_of initial_options 16384))) = true.
Proof.
  refine (writes_in_bounds 40 (env_of good_flash (file_of two_pages) [])
            initial_options "img" _ _ _ _).
  - vm_compute. reflexivity.
  - vm_compute. reflexivity.
Defined.


(** * Pages are written to blocks that were found good *)

Lemma last_query_app (a : list event) :
  forall (b : list event) (l : option (Z * Z)),
    last_query l (a ++ b) = last_query (last_query l a) b.
Proof.
  induction a as [| ev a IH]; intros b l; [reflexivity |].
  destruct ev; cbn [app last_query]; apply IH.
Qed.

Lemma last_query_quiet (a : list event) :
  forall l, forallb (fun ev => negb (is_query ev)) a = true -> last_query l a = l.
Proof.
  induction a as [| ev a IH]; intros l H; [reflexivity |].
  cbn [forallb] in H. apply andb_true_iff in H. destruct H as (H1 & H2).
  destruct ev; try discriminate H1; cbn [last_query]; apply IH; exact H2.
Qed.

Lemma writes_checked_app (fr : frame) (a : list event) :
  forall (b : list event) (l : option (Z * Z)),
    writes_checked fr l (a ++ b)
    = writes_checked fr l a && writes_checked fr (last_query l a) b.
Proof.
  induction a as [| ev a IH]; intros b l; [reflexivity |].
  destruct ev; cbn [app last_query writes_checked]; rewrite ?IH, ?andb_assoc; reflexivity.
Qed.

Lemma writes_checked_quiet (fr : frame) (a : list event) :
  forall l, forallb (fun ev => negb (is_write ev)) a = true -> writes_checked fr l a = true.
Proof.
  induction a as [| ev a IH]; intros l H; [reflexivity |].
  cbn [forallb] in H. apply andb_true_iff in H. destruct H as (H1 & H2).
  destruct ev; try discriminate H1; cbn [writes_checked]; apply IH; exact H2.
Qed.

Section Checked.

Variable fr : frame.
Variable q : Z.
Hypothesis G : geometry fr q.

(** Inside an aligned block the index the scan asks for is the one of the
    block. *)
Lemma quot_in_block (b x : Z) :
  0 <= b -> (ebsize_aligned fr | b) -> b <= x < b + ebsize_aligned fr ->
  Z.quot x (ebsize_aligned fr) = Z.quot b (ebsize_aligned fr).
Proof.
  intros Hb [k ->] Hx. pose proof (ebsize_aligned_pos fr q G) as P.
  rewrite !Z.quot_div_nonneg by lia. rewrite Z.div_mul by lia.
  symmetry. apply (Z.div_unique x (ebsize_aligned fr) k (x - k * ebsize_aligned fr)); lia.
Qed.

(** The scan of the sub-units of a block either moves the offset behind the
    block, or leaves it where it is after a last query that found the block
    good. *)
Lemma scan_subunits_checked (fuel : nat) :
  forall (st st' : state) (j : Z),
    0 <= blockstart st <= 2 ^ 61 -> (ebsize_aligned fr | blockstart st) ->
    0 <= j < blockalign (opts fr) ->
    scan_subunits fuel fr st (blockstart st + j * eb_size (mtd fr)) = Next st' ->
    blockstart st' = blockstart st
    /\ (mtdoffset st' = blockstart st + ebsize_aligned fr
        \/ (mtdoffset st' = mtdoffset st
            /\ answered_good fr (last_query None (trace st')) (blockstart st) = true)).
Proof.
  pose proof (ebsize_aligned_pos fr q G) as Pea. pose proof (eb_size_small fr q G) as Peb.
  pose proof (geo_eb _ _ G) as Pe. pose proof (geo_int _ _ G) as Pi.
  pose proof (geo_align _ _ G) as Pa. pose proof (geo_aligned _ _ G) as Ea.
  induction fuel as [| fuel IH]; intros st st' j Hbs Hdiv Hj E; cbn [scan_subunits] in E;
    [discriminate |].
  replace (ebsize_aligned fr =? 0) with false in E by (symmetry; apply Z.eqb_neq; lia).
  replace (blockalign (opts fr) =? 0) with false in E by (symmetry; apply Z.eqb_neq; lia).
  rewrite (quot_aligned fr q G) in E. cbv zeta in E.
  set (offs := blockstart st + j * eb_size (mtd fr)) in *.
  set (eb := wrap_int (Z.quot offs (ebsize_aligned fr))) in *.
  set (ret := mtd_is_bad (dev fr) (trace st) eb) in *.
  destruct (Z.ltb_spec ret 0) as [Hneg | Hnn]; [discriminate |].
  set (st1 := if ret =? 1 then _ else _) in E.
  assert (H1 : blockstart st1 = blockstart st /\ mtdoffset st1 = mtdoffset st
               /\ (baderaseblock st1 = false ->
                   ret <> 1 /\ trace st1 = trace st ++ [EvIsBad eb ret])).
  { subst st1. destruct (Z.eqb_spec ret 1).
    - destruct (quiet (opts fr)); proj; repeat split; discriminate.
    - proj. repeat split. exact n. }
  destruct H1 as (Hb1 & Hm1 & Hg1). clearbody st1.
  assert (Wbs : wrap_ll (blockstart st + ebsize_aligned fr) = blockstart st + ebsize_aligned fr)
    by (apply wrap_ll_small; lia).
  assert (Wof : wrap_ll (offs + wrap_int (eb_size (mtd fr))) = offs + eb_size (mtd fr)).
  { rewrite wrap_int_small by lia. apply wrap_ll_small. subst offs. nia. }
  assert (Hnext : offs + eb_size (mtd fr) < blockstart st + ebsize_aligned fr ->
                  0 <= j + 1 < blockalign (opts fr)
                  /\ offs + eb_size (mtd fr) = blockstart st + (j + 1) * eb_size (mtd fr))
    by (intros; subst offs; split; nia).
  destruct (baderaseblock st1) eqn:Hbad.
  - (* a bad sub-unit: the offset moves behind the block *)
    cbv zeta in E. proj. rewrite Hb1, Wbs in E.
    destruct (_ >? _); [discriminate |]. cbn [bind] in E. proj.
    rewrite Hb1, Wbs, Wof in E.
    destruct (Z.ltb_spec (offs + eb_size (mtd fr)) (blockstart st + ebsize_aligned fr))
      as [Hin | Hout].
    + destruct (Hnext Hin) as (Hj' & Eo). rewrite Eo in E.
      specialize (IH (set_mtdoffset (blockstart st + ebsize_aligned fr) st1) st' (j + 1)).
      proj. rewrite Hb1 in IH. specialize (IH Hbs Hdiv Hj' E).
      destruct IH as (A & [B | (B & _)]); split; try exact A; left; exact B.
    + inversion E. proj. split; [exact Hb1 | left; reflexivity].
  - destruct (Hg1 eq_refl) as (Hne & Etr).
    cbn [bind] in E. rewrite Hb1, Wbs, Wof in E.
    destruct (Z.ltb_spec (offs + eb_size (mtd fr)) (blockstart st + ebsize_aligned fr))
      as [Hin | Hout].
    + destruct (Hnext Hin) as (Hj' & Eo). rewrite Eo in E.
      specialize (IH st1 st' (j + 1)). rewrite Hb1 in IH.
      specialize (IH Hbs Hdiv Hj' E).
      destruct IH as (A & [B | (B & C)]); split; try exact A;
        [left; exact B | right; split; [congruence | exact C]].
    + inversion E. subst st'. split; [exact Hb1 |]. right. split; [exact Hm1 |].
      rewrite Etr, last_query_app. cbn [last_query]. unfold answered_good.
      assert (Eq : Z.quot offs (ebsize_aligned fr)
                   = Z.quot (blockstart st) (ebsize_aligned fr)).
      { apply quot_in_block; [lia | exact Hdiv |]. subst offs. nia. }
      subst eb. rewrite Eq.
      rewrite Z.eqb_refl.
      replace (0 <=? ret) with true by (symmetry; apply Z.leb_le; lia).
      replace (ret =? 1) with false by (symmetry; apply Z.eqb_neq; exact Hne).
      reflexivity.
Qed.

(** One turn of the scan, with the bad block check on. *)
Lemma scan_turn_checked (fuel : nat) (st st' : state) :
  loop_inv fr st -> mtdoffset st <= size (mtd fr) ->
  noskipbad (opts fr) = false ->
  scan_turn fuel fr st = Next st' ->
  blockstart st' = blockstart_of fr (mtdoffset st)
  /\ (mtdoffset st' = blockstart st' + ebsize_aligned fr
      \/ (mtdoffset st' = mtdoffset st
          /\ answered_good fr (last_query None (trace st')) (blockstart st') = true)).
Proof.
  intros Hinv Hsz Hn E.
  pose proof (geo_start _ _ G) as Hs0. pose proof (geo_size _ _ G) as Ps.
  pose proof (geo_align _ _ G) as Pa.
  destruct (mask_bounds fr q G (mtdoffset st)) as (Mb1 & Mb2 & Mb3);
    [destruct Hinv as ((? & _) & _); lia |].
  unfold scan_turn in E. cbv zeta in E.
  set (bs := blockstart_of fr (mtdoffset st)) in *.
  set (st0 := set_blockstart bs st) in E.
  set (r1 := if writebuf st0 =? filebuf fr then _ else _) in E.
  assert (K1 : forall s1, r1 = Next s1 -> blockstart s1 = bs /\ mtdoffset s1 = mtdoffset st).
  { subst r1. intros s1 E1. destruct (writebuf st0 =? filebuf fr).
    - inversion E1. split; reflexivity.
    - unfold erase_buffer in E1. destruct (_ && _).
      + unfold store in E1. destruct (_ && _); cbn [bind] in E1; inversion E1.
        split; reflexivity.
      + cbn [bind] in E1. inversion E1. split; reflexivity. }
  destruct r1 as [s1 | | | | |]; cbn [bind] in E; try discriminate.
  destruct (K1 s1 eq_refl) as (Hb1 & Hm1). clear K1.
  set (r2 := if quiet (opts fr) then _ else _) in E.
  assert (K2 : forall s2, r2 = Next s2 -> blockstart s2 = bs /\ mtdoffset s2 = mtdoffset st).
  { subst r2. intros s2 E2. destruct (quiet (opts fr)).
    - inversion E2. split; assumption.
    - destruct (_ =? 0); inversion E2. split; assumption. }
  destruct r2 as [s2 | | | | |]; cbn [bind] in E; try discriminate.
  destruct (K2 s2 eq_refl) as (Hb2 & Hm2). clear K2.
  rewrite Hn in E.
  replace (blockstart st0) with (blockstart s2 + 0 * eb_size (mtd fr)) in E
    by (subst st0; cbn [blockstart set_blockstart]; lia).
  destruct (scan_subunits_checked fuel s2 st' 0 ltac:(lia) ltac:(rewrite Hb2; exact Mb3)
              ltac:(lia) E) as (A & B).
  rewrite Hb2 in A, B. rewrite A. split; [reflexivity |].
  destruct B as [B | (B & C)]; [left; exact B | right; split; [congruence | exact C]].
Qed.

(** When the scan is over, the block it stopped at was found good by the
    last query. *)
Lemma scan_blocks_checked (fuel : nat) :
  forall st st1 : state,
    loop_inv fr st -> mtdoffset st <= size (mtd fr) ->
    noskipbad (opts fr) = false ->
    (blockstart st = blockstart_of fr (mtdoffset st) ->
     answered_good fr (last_query None (trace st)) (blockstart st) = true) ->
    scan_blocks fuel fr st = Next st1 ->
    answered_good fr (last_query None (trace st1)) (blockstart st1) = true.
Proof.
  pose proof (ebsize_aligned_pos fr q G) as Pea.
  induction fuel as [| fuel IH]; intros st st1 Hinv Hsz Hn Hch E; cbn [scan_blocks] in E;
    [discriminate |].
  destruct (Z.eqb_spec (blockstart st) (blockstart_of fr (mtdoffset st))) as [Eb | Nb].
  { inversion E. subst st1. exact (Hch Eb). }
  pose proof (scan_turn_spec fr q G fuel st Hinv Hsz Nb) as S. cbv zeta in S.
  destruct S as (m & b & tr & stb & Est & _ & _ & _ & Hr & _).
  destruct (scan_turn fuel fr st) as [s' | | | | |] eqn:Et; cbn [bind state_of] in *;
    try discriminate.
  destruct Hr as (Hm & Hinv').
  assert (Em : mtdoffset s' = m) by (rewrite Est; reflexivity).
  destruct (scan_turn_checked fuel st s' Hinv Hsz Hn Et) as (A & B).
  apply (IH s' st1 Hinv'); [lia | exact Hn | | exact E].
  intros Eb'. destruct B as [B | (_ & C)]; [exfalso | exact C].
  assert (Hdiv : (ebsize_aligned fr | blockstart s' + ebsize_aligned fr)).
  { apply Z.divide_add_r; [| apply Z.divide_refl]. rewrite A.
    destruct (mask_bounds fr q G (mtdoffset st)) as (_ & _ & D); [| exact D].
    destruct Hinv as ((? & _) & _). pose proof (geo_start _ _ G). lia. }
  rewrite B, (mask_multiple fr q G _ Hdiv) in Eb'. lia.
Qed.

(** A turn keeps the writes behind their queries. *)
Lemma loop_body_checked (fuel : nat) (st : state) :
  loop_inv fr st -> mtdoffset st < size (mtd fr) ->
  noskipbad (opts fr) = false ->
  writes_checked fr None (trace st) = true ->
  (blockstart st = blockstart_of fr (mtdoffset st) ->
   answered_good fr (last_query None (trace st)) (blockstart st) = true) ->
  writes_checked fr None (trace (state_of (loop_body fuel fr st))) = true
  /\ match loop_body fuel fr st with
     | Continue st' =>
         blockstart st' = blockstart_of fr (mtdoffset st') ->
         answered_good fr (last_query None (trace st')) (blockstart st') = true
     | _ => True
     end.
Proof.
  intros Hinv Hsz Hn Hwc Hch.
  assert (W1 : forall ev, scan_emits fr ev || fill_emits fr ev = true ->
                          negb (is_write ev) = true)
    by (intros [[] | | | | | |] E; try reflexivity; discriminate E).
  assert (W2 : forall ev, fill_emits fr ev = true ->
                          negb (is_write ev) && negb (is_query ev) = true)
    by (intros [[] | | | | | |] E; try reflexivity; discriminate E).
  assert (W3 : forall ev, follows_write ev = true ->
                          negb (is_write ev) && negb (is_query ev) = true)
    by (intros [[] | | | | | |] E; try reflexivity; discriminate E).
  destruct (turn_shape fr q G fuel st Hinv Hsz)
    as [(H & Hend) | (st1 & st3 & r & rest & Es & Hfill & Hrd & Em & Eb & Hle & Et & Qr & Hc)].
  - destruct (emitted_weaken _ _ _ _ W1 H) as (tr & E & Q).
    split.
    + rewrite E, writes_checked_app, Hwc. cbn [andb]. apply writes_checked_quiet. exact Q.
    + destruct (loop_body fuel fr st); auto; contradiction.
  - pose proof (scan_blocks_checked fuel st st1 Hinv ltac:(lia) Hn Hch Es) as Hg1.
    destruct (emitted_weaken _ _ _ _ W1
                (emitted_weaken _ _ _ _ (fun ev E => orb_true_intro _ _ (or_introl E))
                   (scan_blocks_emitted fr fuel st st (emitted_refl _ st))))
      as (trs & Ets & Qs).
    rewrite Es in Ets. cbn [state_of] in Ets.
    destruct (emitted_weaken _ _ _ _ W2 Hfill) as (trf & Etf & Qf).
    assert (Qf1 : forallb (fun ev => negb (is_write ev)) trf = true
                  /\ forallb (fun ev => negb (is_query ev)) trf = true).
    { rewrite !forallb_forall in *. split; intros ev Hin; specialize (Qf ev Hin);
        apply andb_true_iff in Qf; tauto. }
    destruct Qf1 as (Qfw & Qfq).
    assert (Qr1 : forallb (fun ev => negb (is_write ev)) rest = true
                  /\ forallb (fun ev => negb (is_query ev)) rest = true).
    { rewrite !forallb_forall in *. split; intros ev Hin; specialize (Qr ev Hin);
        apply W3 in Qr; apply andb_true_iff in Qr; tauto. }
    destruct Qr1 as (Qrw & Qrq).
    assert (Hwc3 : writes_checked fr None (trace st3) = true).
    { rewrite Etf, Ets, !writes_checked_app, Hwc. cbn [andb].
      rewrite (writes_checked_quiet fr trs _ Qs). cbn [andb].
      apply writes_checked_quiet. exact Qfw. }
    assert (Hlq3 : last_query None (trace st3) = last_query None (trace st1)).
    { rewrite Etf, last_query_app. apply last_query_quiet. exact Qfq. }
    pose proof Hrd as ((Ho3 & _ & (Hbs3 & _)) & _).
    pose proof (geo_start _ _ G) as Hs0.
    destruct (mask_bounds fr q G (mtdoffset st3)) as (Mb1 & Mb2 & Mb3);
      [destruct Ho3 as (? & _); lia |].
    rewrite <- Hbs3 in Mb1, Mb2, Mb3.
    assert (Hgw : answered_good fr (last_query None (trace st3)) (mtdoffset st3) = true).
    { rewrite Hlq3. rewrite <- Eb in Hg1. unfold answered_good in *.
      rewrite (quot_in_block (blockstart st3) (mtdoffset st3)) by (try lia; exact Mb3).
      exact Hg1. }
    split.
    + rewrite Et, writes_checked_app, Hwc3. cbn [andb].
      unfold write_event. cbn [writes_checked].
      rewrite (write_offset fr q G) by (destruct Ho3 as (? & _); lia).
      rewrite Hgw. cbn [andb]. apply writes_checked_quiet. exact Qrw.
    + destruct (loop_body fuel fr st) as [| s' | | | |]; auto. cbn [state_of] in Et.
      destruct Hc as (_ & Ebs' & _). intros _.
      rewrite Et, last_query_app.
      assert (Elq : last_query (last_query None (trace st3)) (write_event fr st3 r :: rest)
                    = last_query None (trace st3)).
      { unfold write_event. cbn [last_query]. apply last_query_quiet. exact Qrq. }
      rewrite Elq, Ebs', Hlq3, Eb. exact Hg1.
Qed.

Lemma main_loop_checked (fuel n : nat) :
  forall st : state,
    at_start fr st \/ loop_inv fr st ->
    noskipbad (opts fr) = false ->
    writes_checked fr None (trace st) = true ->
    (blockstart st = blockstart_of fr (mtdoffset st) ->
     answered_good fr (last_query None (trace st)) (blockstart st) = true) ->
    writes_checked fr None (trace (state_of (main_loop n fuel fr st))) = true.
Proof.
  induction n as [| n IH]; intros st Hi Hn Hwc Hch; cbn [main_loop state_of]; [exact Hwc |].
  destruct (loop_cond fr st) eqn:Hc; [| exact Hwc].
  pose proof (loop_cond_size fr st Hc) as Hsz.
  assert (Hinv : loop_inv fr st)
    by (destruct Hi as [H0 | Hl]; [apply (start_loop_inv fr q G); assumption | exact Hl]).
  pose proof (loop_body_checked fuel st Hinv Hsz Hn Hwc Hch) as (Hwc' & Hch').
  pose proof (loop_body_step fr q G fuel st Hinv Hsz) as (_ & Hstep).
  destruct (loop_body fuel fr st) as [s | s | s | s | w s | s]; cbn [state_of] in *;
    try exact Hwc'; try contradiction.
  destruct Hstep as (Hinv' & _).
  apply IH; [right; exact Hinv' | exact Hn | exact Hwc' | exact Hch'].
Qed.

End Checked.

Lemma write_image_checked (fr : frame) (q : Z) (fuel : nat) (st0 : state) :
  geometry fr q -> at_start fr st0 ->
  noskipbad (opts fr) = false ->
  writes_checked fr None (trace st0) = true ->
  writes_checked fr None (snd (write_image fuel fr st0)) = true.
Proof.
  intros G H0 Hn Q0.
  assert (Hch : blockstart st0 = blockstart_of fr (mtdoffset st0) ->
                answered_good fr (last_query None (trace st0)) (blockstart st0) = true).
  { intros Eb. exfalso. destruct H0 as (_ & Hb & _ & Hm & _).
    pose proof (geo_start _ _ G).
    destruct (mask_bounds fr q G (mtdoffset st0)) as (Mb & _); lia. }
  pose proof (main_loop_checked fr q G fuel fuel st0 (or_introl H0) Hn Q0 Hch) as Hwc.
  unfold write_image, closeall.
  destruct (main_loop fuel fuel fr st0); cbn [state_of snd] in *;
    repeat match goal with
           | |- context [if ?c then _ else _] => destruct c
           end;
    rewrite ?writes_checked_app, Hwc; reflexivity.
Qed.

(** X11. On a sane geometry, with the bad block check on, every page write
    of the loop comes behind a bad block query whose answer was neither an
    error nor "bad", with no other query between the two, and that query
    was made for the index the scan derives from the aligned block of the
    write, [offset / ebsize_aligned]: with a block alignment of 1 this is
    the erase block written to. *)
Theorem writes_follow_good_query (fuel : nat) (e : env) (o : options) (img : string)
    (fr : frame) (st0 : state) :
  prelude e o img = inl (fr, st0) ->
  sane_frame fr = true ->
  noskipbad o = false ->
  writes_checked fr None (snd (write_image fuel fr st0)) = true.
Proof.
  intros Hp Hs Hn. destruct (sane_geometry fr Hs) as (q & G).
  destruct (prelude_start e o img fr st0 Hp) as (Eo & _ & _ & _ & H0 & _).
  subst o. apply (write_image_checked fr q fuel st0 G H0 Hn).
  apply writes_checked_quiet.
  pose proof (prelude_quiet e (opts fr) img fr st0 Hp) as Q.
  rewrite forallb_forall in *. intros ev Hin. specialize (Q ev Hin).
  apply andb_true_iff in Q. tauto.
Qed.

Lemma writes_follow_good_query_witness :
  writes_checked (frame_of (flash_with_bad [0; 1]) initial_options) None
    (snd (write_image 40 (frame_of (flash_with_bad [0; 1]) initial_options)
            (start_of initial_options 16384))) = true.
Proof.
  refine (writes_follow_good_query 40 (env_of (flash_with_bad [0; 1]) (file_of two_pages) [])
            initial_options "img" _ _ _ _ _).
  - vm_compute. reflexivity.
  - vm_compute. reflexivity.
  - reflexivity.
Defined.


(** * Bad blocks are not written to *)

Section Table.

Variable fr : frame.
Variable bad : Z -> Z.
Hypothesis Hbad : bad_block_table (dev fr) bad.

(** The queries a run logs carry the answers of the table. *)
Lemma scan_subunits_table (fuel : nat) :
  forall (a st : state) (offs : Z),
    emitted (answers_table bad) a st ->
    emitted (answers_table bad) a (state_of (scan_subunits fuel fr st offs)).
Proof.
  induction fuel as [| fuel IH]; intros a st offs H; cbn [scan_subunits state_of];
    [exact H |].
  destruct (ebsize_aligned fr =? 0); [exact H |]. cbv zeta.
  set (eb := wrap_int (Z.quot offs (ebsize_aligned fr))).
  set (ret := mtd_is_bad (dev fr) (trace st) eb).
  assert (Hq : emitted (answers_table bad) a (log (EvIsBad eb ret) st)).
  { apply emitted_log; [exact H |]. cbn [answers_table]. subst ret.
    rewrite Hbad. apply Z.eqb_refl. }
  destruct (ret <? 0); [cbn [state_of]; emit |].
  set (st1 := if ret =? 1 then _ else _).
  assert (H1 : emitted (answers_table bad) a st1).
  { subst st1. destruct (ret =? 1); [destruct (quiet (opts fr)) |]; emit. }
  clearbody st1. clear H Hq.
  set (r2 := if baderaseblock st1 then _ else _).
  assert (H2 : emitted (answers_table bad) a (state_of r2)).
  { subst r2. destruct (baderaseblock st1); [| exact H1].
    cbv zeta. destruct (_ >? _); cbn [state_of]; emit. }
  destruct r2 as [st2 | | | | |]; cbn [bind state_of] in *; try exact H2.
  destruct (blockalign (opts fr) =? 0); [exact H2 |].
  destruct (_ <? _); [apply IH; assumption | exact H2].
Qed.

Lemma scan_turn_table (fuel : nat) (a st : state) :
  emitted (answers_table bad) a st ->
  emitted (answers_table bad) a (state_of (scan_turn fuel fr st)).
Proof.
  intros H. unfold scan_turn. cbv zeta.
  set (st0 := set_blockstart _ st).
  assert (H0 : emitted (answers_table bad) a st0) by (subst st0; emit).
  clearbody st0. clear H.
  set (r1 := if writebuf st0 =? filebuf fr then _ else _).
  assert (H1 : emitted (answers_table bad) a (state_of r1)).
  { subst r1. destruct (_ =? _); [exact H0 |].
    pose proof (erase_buffer_emitted fr (answers_table bad) (filebuf fr) (filebuf_len st0)
                  a st0 H0) as He.
    destruct (erase_buffer fr _ _ st0); cbn [bind state_of] in *; emit. }
  destruct r1 as [st1 | | | | |]; cbn [bind state_of] in *; try exact H1.
  set (r2 := if quiet (opts fr) then _ else _).
  assert (H2 : emitted (answers_table bad) a (state_of r2)).
  { subst r2. destruct (quiet (opts fr)); [cbn [state_of]; emit |].
    destruct (_ =? 0); cbn [state_of]; emit. }
  destruct r2 as [st2 | | | | |]; cbn [bind state_of] in *; try exact H2.
  destruct (noskipbad (opts fr)); [exact H2 |].
  apply scan_subunits_table; assumption.
Qed.

Lemma scan_blocks_table (fuel : nat) :
  forall a st : state,
    emitted (answers_table bad) a st ->
    emitted (answers_table bad) a (state_of (scan_blocks fuel fr st)).
Proof.
  induction fuel as [| fuel IH]; intros a st H; cbn [scan_blocks state_of]; [exact H |].
  destruct (_ =? _); [exact H |].
  pose proof (scan_turn_table fuel a st H) as Ht.
  destruct (scan_turn fuel fr st); cbn [bind state_of] in *; try exact Ht.
  apply IH. exact Ht.
Qed.

Lemma loop_body_table (fuel : nat) (st : state) :
  emitted (answers_table bad) st (state_of (loop_body fuel fr st)).
Proof.
  assert (Wf : forall ev, fill_emits fr ev = true -> answers_table bad ev = true)
    by (intros [[] | | | | | |] E; try reflexivity; discriminate E).
  assert (Ww : forall ev, write_emits fr ev = true -> answers_table bad ev = true)
    by (intros [[] | | | | | |] E; try reflexivity; discriminate E).
  unfold loop_body.
  pose proof (scan_blocks_table fuel st st (emitted_refl _ st)) as H1.
  destruct (scan_blocks fuel fr st) as [st1 | | | | |]; cbn [bind state_of] in *;
    try exact H1.
  pose proof (emitted_weaken _ _ _ _ Wf
                (fill_page_emitted fr st1 st1 (emitted_refl _ st1))) as H2.
  destruct (fill_page fr st1) as [st2 | | | | |]; cbn [bind state_of] in *;
    try exact (emitted_trans _ _ _ _ H1 H2).
  pose proof (emitted_weaken _ _ _ _ Wf
                (fill_oob_emitted fr st2 st2 (emitted_refl _ st2))) as H3.
  destruct (fill_oob fr st2) as [st3 | | | | |]; cbn [bind state_of] in *;
    try exact (emitted_trans _ _ _ _ H1 (emitted_trans _ _ _ _ H2 H3)).
  pose proof (emitted_weaken _ _ _ _ Ww
                (write_out_emitted fr fuel st3 st3 (emitted_refl _ st3))) as H4.
  exact (emitted_trans _ _ _ _ H1
           (emitted_trans _ _ _ _ H2 (emitted_trans _ _ _ _ H3 H4))).
Qed.

Lemma main_loop_table (fuel n : nat) :
  forall st : state, emitted (answers_table bad) st (state_of (main_loop n fuel fr st)).
Proof.
  induction n as [| n IH]; intros st; cbn [main_loop state_of]; [apply emitted_refl |].
  destruct (loop_cond fr st); [| apply emitted_refl].
  pose proof (loop_body_table fuel st) as H.
  destruct (loop_body fuel fr st); cbn [state_of] in *; try exact H;
    exact (emitted_trans _ _ _ _ H (IH _)).
Qed.

Lemma write_image_table (fuel : nat) (st0 : state) :
  forallb (answers_table bad) (trace st0) = true ->
  forallb (answers_table bad) (snd (write_image fuel fr st0)) = true.
Proof.
  intros Q0. unfold write_image, closeall.
  destruct (main_loop_table fuel fuel st0) as (tr & E & Q).
  destruct (main_loop fuel fuel fr st0); cbn [state_of snd] in *;
    repeat match goal with
           | |- context [if ?c then _ else _] => destruct c
           end;
    rewrite E, ?forallb_app, Q0, Q; reflexivity.
Qed.

(** A write that comes behind a good answer for its index is a write into a
    block the table reports good. *)
Lemma checked_table (tr : list event) :
  forall last : option (Z * Z),
    (forall k ret, last = Some (k, ret) -> ret = bad k) ->
    forallb (answers_table bad) tr = true ->
    writes_checked fr last tr = true ->
    forallb (writes_good_index fr bad) tr = true.
Proof.
  induction tr as [| ev tr IH]; intros last Hl Q W; [reflexivity |].
  cbn [forallb] in Q. apply andb_true_iff in Q. destruct Q as (Q1 & Q2).
  destruct ev as [m | r0 | eb ret | eb offs data oob mode r | | |];
    cbn [writes_checked forallb writes_good_index] in *;
    try (apply (IH last Hl Q2 W)).
  - apply (IH (Some (eb, ret))); [| exact Q2 | exact W].
    intros k ret' E. injection E as <- <-.
    cbn [answers_table] in Q1. apply Z.eqb_eq in Q1. exact Q1.
  - apply andb_true_iff in W. destruct W as (W1 & W2).
    rewrite (IH last Hl Q2 W2), andb_true_r.
    unfold answered_good in W1. destruct last as [[k ret] |]; [| discriminate W1].
    rewrite !andb_true_iff in W1. destruct W1 as ((Ek & Hr0) & Hr1).
    apply Z.eqb_eq in Ek. subst k.
    unfold reported_good. rewrite <- (Hl _ ret eq_refl), Hr0, Hr1. reflexivity.
Qed.

End Table.

(** With a block alignment of 1 the scan index of a write in bounds is its
    erase block. *)
Lemma index_is_block (fr : frame) (q : Z) (bad : Z -> Z) (ev : event) :
  geometry fr q -> blockalign (opts fr) = 1 ->
  write_in_bounds fr ev = true ->
  writes_good_index fr bad ev = true ->
  writes_good_block bad ev = true.
Proof.
  intros G Ha B W. destruct ev as [| | | eb offs data oob mode r | | |]; try reflexivity.
  cbn [write_in_bounds writes_good_index writes_good_block] in *.
  cbv zeta in B. rewrite !andb_true_iff in B.
  destruct B as (((((((B1 & B2) & B3) & _) & B5) & _) & _) & _).
  apply Z.leb_le in B1, B2, B5. apply Z.ltb_lt in B3.
  pose proof (geo_eb _ _ G) as Pe. pose proof (geo_cnt _ _ G) as Pc.
  assert (Ea : ebsize_aligned fr = eb_size (mtd fr))
    by (rewrite (geo_aligned _ _ G), Ha; lia).
  rewrite Ea in W.
  assert (Eq : Z.quot (eb * eb_size (mtd fr) + offs) (eb_size (mtd fr)) = eb).
  { rewrite Z.quot_div_nonneg by nia.
    symmetry. apply (Z.div_unique _ _ eb offs); lia. }
  rewrite Eq in W.
  assert (Hle : eb <= size (mtd fr) / eb_size (mtd fr)).
  { apply Z.div_le_lower_bound; [lia | nia]. }
  rewrite wrap_int_small in W by lia. exact W.
Qed.

(** X12. With the bad block check on and a block alignment of 1, on a
    device whose bad block answers do not change during the run, no page is
    written into an erase block for which the device answers "bad" or
    fails the query. *)
Theorem bad_blocks_not_written (fuel : nat) (e : env) (o : options) (img : string)
    (fr : frame) (st0 : state) (bad : Z -> Z) :
  prelude e o img = inl (fr, st0) ->
  sane_frame fr = true ->
  noskipbad o = false ->
  blockalign o = 1 ->
  bad_block_table (dev fr) bad ->
  forallb (writes_good_block bad) (snd (write_image fuel fr st0)) = true.
Proof.
  intros Hp Hs Hn Ha Hbad. destruct (sane_geometry fr Hs) as (q & G).
  destruct (prelude_start e o img fr st0 Hp) as (Eo & _ & _ & _ & H0 & _). subst o.
  pose proof (prelude_quiet e (opts fr) img fr st0 Hp) as Q.
  assert (Q1 : forallb (write_in_bounds fr) (trace st0) = true).
  { rewrite forallb_forall in *. intros ev Hin. specialize (Q ev Hin).
    destruct ev; try reflexivity; discriminate Q. }
  assert (Q2 : writes_checked fr None (trace st0) = true).
  { apply writes_checked_quiet.
    rewrite forallb_forall in *. intros ev Hin. specialize (Q ev Hin).
    apply andb_true_iff in Q. tauto. }
  assert (Q3 : forallb (answers_table bad) (trace st0) = true).
  { rewrite forallb_forall in *. intros ev Hin. specialize (Q ev Hin).
    destruct ev; try reflexivity. rewrite andb_false_r in Q. discriminate Q. }
  pose proof (write_image_in_bounds fr q fuel st0 G H0 Q1) as B.
  pose proof (write_image_checked fr q fuel st0 G H0 Hn Q2) as W.
  pose proof (write_image_table fr bad Hbad fuel st0 Q3) as T.
  pose proof (checked_table fr bad _ None ltac:(discriminate) T W) as K.
  rewrite forallb_forall in *. intros ev Hin.
  apply (index_is_block fr q bad ev G Ha (B ev Hin) (K ev Hin)).
Qed.

Lemma bad_blocks_not_written_witness :
  forallb (writes_good_block (fun eb => if existsb (Z.eqb eb) [0; 1] then 1 else 0))
    (snd (write_image 40 (frame_of (flash_with_bad [0; 1]) initial_options)
            (start_of initial_options 16384))) = true.
Proof.
  refine (bad_blocks_not_written 40
            (env_of (flash_with_bad [0; 1]) (file_of two_pages) [])
            initial_options "img" _ _ _ _ _ _ _ _).
  - vm_compute. reflexivity.
  - vm_compute. reflexivity.
  - reflexivity.
  - reflexivity.
  - intros tr eb. reflexivity.
Defined.

(** X13. With the bad block check on, on a device that answers every bad
    block query with "bad", no page is written, whatever the block
    alignment and the input. *)
Theorem all_bad_nothing_written (fuel : nat) (e : env) (o : options) (img : string)
    (fr : frame) (st0 : state) :
  prelude e o img = inl (fr, st0) ->
  sane_frame fr = true ->
  noskipbad o = false ->
  bad_block_table (dev fr) (fun _ => 1) ->
  forallb (fun ev => negb (is_write ev)) (snd (write_image fuel fr st0)) = true.
Proof.
  intros Hp Hs Hn Hbad. destruct (sane_geometry fr Hs) as (q & G).
  destruct (prelude_start e o img fr st0 Hp) as (Eo & _ & _ & _ & H0 & _). subst o.
  pose proof (prelude_quiet e (opts fr) img fr st0 Hp) as Q.
  assert (Q2 : writes_checked fr None (trace st0) = true).
  { apply writes_checked_quiet.
    rewrite forallb_forall in *. intros ev Hin. specialize (Q ev Hin).
    apply andb_true_iff in Q. tauto. }
  assert (Q3 : forallb (answers_table (fun _ => 1)) (trace st0) = true).
  { rewrite forallb_forall in *. intros ev Hin. specialize (Q ev Hin).
    destruct ev; try reflexivity. rewrite andb_false_r in Q. discriminate Q. }
  pose proof (write_image_checked fr q fuel st0 G H0 Hn Q2) as W.
  pose proof (write_image_table fr _ Hbad fuel st0 Q3) as T.
  pose proof (checked_table fr _ _ None ltac:(discriminate) T W) as K.
  rewrite forallb_forall in *. intros ev Hin. specialize (K ev Hin).
  destruct ev; try reflexivity. discriminate K.
Qed.

Lemma all_bad_nothing_written_witness :
  forallb (fun ev => negb (is_write ev))
    (snd (write_image 80 (frame_of flash_all_bad initial_options)
            (start_of initial_options 16384))) = true.
Proof.
  refine (all_bad_nothing_written 80 (env_of flash_all_bad (file_of two_pages) [])
            initial_options "img" _ _ _ _ _ _).
  - vm_compute. reflexivity.
  - vm_compute. reflexivity.
  - reflexivity.
  - intros tr eb. reflexivity.
Defined.


(** * The end of the run *)

Section Ending.

Variable fr : frame.
Variable q : Z.
Hypothesis G : geometry fr q.

(** A turn only runs out of steps in the scan or in the erase loop of the
    recovery, and only when there are fewer steps than aligned blocks left
    on the device and erase blocks in an aligned block. *)
Lemma loop_body_fuel (fuel : nat) (st s : state) :
  loop_inv fr st -> mtdoffset st < size (mtd fr) ->
  loop_body fuel fr st = Fuel s ->
  Z.of_nat fuel < size (mtd fr) / ebsize_aligned fr + 2 + blockalign (opts fr).
Proof.
  intros Hinv Hsz. unfold loop_body.
  pose proof (ebsize_aligned_pos fr q G) as Pea. pose proof (geo_start _ _ G) as Hs0.
  pose proof (geo_size _ _ G) as Ps.
  assert (Hoff : 0 <= mtdoffset st) by (destruct Hinv as ((? & _) & _); lia).
  assert (Hd : 0 <= mtdoffset st / ebsize_aligned fr) by (apply Z.div_pos; lia).
  assert (Hd' : 0 <= size (mtd fr) / ebsize_aligned fr) by (apply Z.div_pos; lia).
  pose proof (scan_blocks_spec fr q G fuel st Hinv ltac:(lia)) as S. cbv zeta in S.
  destruct S as (m & b & bs & tr & stb & E1 & _ & _ & Hm & Hr & _).
  destruct (scan_blocks fuel fr st) as [st1 | | | s1 | | s1] eqn:Es;
    try contradiction; cbn [bind state_of] in *; try discriminate.
  2:{ intros _. lia. }
  destruct Hr as (Hf & Hle & _).
  assert (Em : mtdoffset st1 = m) by (rewrite E1; reflexivity).
  destruct (fill_page_step fr q G st1 Hf) as (Hq1 & Hp).
  destruct (fill_page fr st1) as [st2 | | s2 | s2 | why s2 |] eqn:Ep;
    try contradiction; cbn [bind state_of] in *; try discriminate.
  destruct (fill_oob_step fr q G st2 Hp) as (Hq2 & Ho).
  destruct (fill_oob fr st2) as [st3 | | | s3 | |] eqn:Eo;
    try contradiction; cbn [bind state_of] in *; try discriminate.
  assert (Hm3 : mtdoffset st3 = mtdoffset st1 /\ blockstart st3 = blockstart st1).
  { destruct Hq1 as (? & ? & _); destruct Hq2 as (? & ? & _). split; congruence. }
  destruct Hm3 as (Hm3 & Hb3).
  rewrite (write_out_spec fr q G fuel st3 Ho ltac:(lia)). cbv zeta.
  destruct (mtd_write _ _ _ _ _ _ _) as [| en]; [discriminate |].
  destruct (negb (en =? EIO)); [discriminate |].
  intros Er.
  pose proof (recover_spec fr q G fuel (log (write_event fr st3 (IoErr en)) st3)
                (wrap_int (Z.quot (mtdoffset st3) (eb_size (mtd fr))))) as R.
  cbv zeta in R.
  assert (Hbs : 0 <= blockstart st3 <= 2 ^ 61).
  { destruct Hf as (_ & _ & (Hbs & _)).
    destruct (mask_bounds fr q G (mtdoffset st1) ltac:(lia)) as (Mb1 & _).
    rewrite Hb3, Hbs. lia. }
  specialize (R ltac:(cbn [log blockstart set_trace]; exact Hbs)).
  destruct R as (tr' & R). rewrite Er in R. destruct R as (_ & R). lia.
Qed.

(** The loop does not run out of turns or steps. *)
Lemma main_loop_ends (fuel n : nat) :
  Z.of_nat fuel >= size (mtd fr) / ebsize_aligned fr + 2 + blockalign (opts fr) ->
  forall st : state,
    at_start fr st \/ loop_inv fr st ->
    (0 < n)%nat ->
    size (mtd fr) / min_io_size (mtd fr) - mtdoffset st / min_io_size (mtd fr) + 1
      < Z.of_nat n ->
    forall s, main_loop n fuel fr st <> Fuel s.
Proof.
  intros Hfuel. pose proof (geo_page _ _ G) as Ppg.
  induction n as [| n IH]; intros st Hi Hn Hm s; [lia |].
  cbn [main_loop].
  destruct (loop_cond fr st) eqn:Hc; [| discriminate].
  pose proof (loop_cond_size fr st Hc) as Hsz.
  assert (Hinv : loop_inv fr st)
    by (destruct Hi as [H0 | Hl]; [apply (start_loop_inv fr q G); assumption | exact Hl]).
  pose proof (loop_body_step fr q G fuel st Hinv Hsz) as (_ & Hstep).
  pose proof (loop_body_fuel fuel st) as Hf.
  destruct (loop_body fuel fr st) as [s1 | s1 | s1 | s1 | w s1 | s1];
    try discriminate; try contradiction.
  - destruct Hstep as (Hinv' & Hlt).
    assert (Hp : (min_io_size (mtd fr) | mtdoffset st)
                 /\ (min_io_size (mtd fr) | mtdoffset s1)).
    { destruct Hinv as ((_ & _ & ?) & _), Hinv' as ((_ & _ & ?) & _). tauto. }
    destruct Hp as ([a Ea] & [b Eb]).
    assert (Hd : mtdoffset st / min_io_size (mtd fr) = a)
      by (rewrite Ea; apply Z.div_mul; lia).
    assert (Hd1 : mtdoffset s1 / min_io_size (mtd fr) = b)
      by (rewrite Eb; apply Z.div_mul; lia).
    assert (Hab : a < b) by nia.
    assert (Hsa : a <= size (mtd fr) / min_io_size (mtd fr)).
    { rewrite <- Hd. apply Z.div_le_mono; lia. }
    apply IH; [right; exact Hinv' | lia | lia].
  - specialize (Hf s1 Hinv Hsz eq_refl). lia.
Qed.

(** The only way to undefined behaviour in the loop is the division of the
    progress report by an original image length of 0. *)
Lemma main_loop_crash (fuel n : nat) :
  forall st : state,
    at_start fr st \/ loop_inv fr st ->
    forall why s, main_loop n fuel fr st = Crash why s ->
      why = DivisionByZero /\ ofg_imglen fr = 0 /\ ifd fr <> STDIN_FILENO.
Proof.
  induction n as [| n IH]; intros st Hi why s; cbn [main_loop]; [discriminate |].
  destruct (loop_cond fr st) eqn:Hc; [| discriminate].
  pose proof (loop_cond_size fr st Hc) as Hsz.
  assert (Hinv : loop_inv fr st)
    by (destruct Hi as [H0 | Hl]; [apply (start_loop_inv fr q G); assumption | exact Hl]).
  pose proof (loop_body_step fr q G fuel st Hinv Hsz) as (_ & Hstep).
  destruct (loop_body fuel fr st) as [s1 | s1 | s1 | s1 | w s1 | s1];
    try discriminate; try contradiction.
  - destruct Hstep as (Hinv' & _). apply IH. right. exact Hinv'.
  - intros E. injection E as -> _. exact Hstep.
Qed.

End Ending.

(** X14. On a sane geometry the write loop comes to an end on every device
    and every input: with more turns and inner loop steps than the device
    has pages, plus the block alignment and 2, the run does not stop for
    lack of them. *)
Theorem write_loop_terminates (fuel : nat) (e : env) (o : options) (img : string)
    (fr : frame) (st0 : state) :
  prelude e o img = inl (fr, st0) ->
  sane_frame fr = true ->
  enough_fuel fr fuel ->
  fst (write_image fuel fr st0) <> OutOfFuel.
Proof.
  intros Hp Hs Hf. destruct (sane_geometry fr Hs) as (q & G).
  destruct (prelude_start e o img fr st0 Hp) as (_ & _ & _ & _ & H0 & _).
  unfold enough_fuel in Hf.
  pose proof (geo_page _ _ G) as Ppg. pose proof (geo_size _ _ G) as Ps.
  pose proof (geo_start _ _ G) as Hs0. pose proof (geo_q _ _ G) as Pq.
  pose proof (ebsize_aligned_pos fr q G) as Pea. pose proof (geo_align _ _ G) as Pa.
  assert (Hblocks : size (mtd fr) / ebsize_aligned fr
                    <= size (mtd fr) / min_io_size (mtd fr)).
  { apply Z.div_le_compat_l; [lia |]. rewrite (geo_pages _ _ G). nia. }
  assert (Hst : 0 <= mtdoffset st0 / min_io_size (mtd fr)).
  { destruct H0 as (_ & _ & _ & -> & _). apply Z.div_pos; lia. }
  assert (Hd : 0 <= size (mtd fr) / min_io_size (mtd fr)) by (apply Z.div_pos; lia).
  pose proof (main_loop_ends fr q G fuel fuel ltac:(lia) st0 (or_introl H0)
                ltac:(lia) ltac:(lia)) as M.
  unfold write_image, closeall.
  destruct (main_loop fuel fuel fr st0) as [s | s | s | s | w s | s];
    cbn [fst]; try discriminate.
  exfalso. exact (M s eq_refl).
Qed.

Lemma write_loop_terminates_witness :
  fst (write_image 2100 (frame_of good_flash initial_options)
         (start_of initial_options 16384)) <> OutOfFuel.
Proof.
  refine (write_loop_terminates 2100 (env_of good_flash (file_of two_pages) [])
            initial_options "img" _ _ _ _ _).
  - vm_compute. reflexivity.
  - vm_compute. reflexivity.
  - unfold enough_fuel. vm_compute. reflexivity.
Defined.

(** X15. On a sane geometry the write loop stays inside the staging buffer
    and divides by nothing that is 0, unless the image is a file whose
    original length is taken to be 0: it is only the division of the
    progress report that can then fail. *)
Theorem write_loop_is_safe (fuel : nat) (e : env) (o : options) (img : string)
    (fr : frame) (st0 : state) :
  prelude e o img = inl (fr, st0) ->
  sane_frame fr = true ->
  ofg_imglen fr <> 0 \/ ifd fr = STDIN_FILENO ->
  fst (write_image fuel fr st0) <> Crashed.
Proof.
  intros Hp Hs Hofg. destruct (sane_geometry fr Hs) as (q & G).
  destruct (prelude_start e o img fr st0 Hp) as (_ & _ & _ & _ & H0 & _).
  pose proof (main_loop_crash fr q G fuel fuel st0 (or_introl H0)) as M.
  unfold write_image, closeall.
  destruct (main_loop fuel fuel fr st0) as [s | s | s | s | w s | s];
    cbn [fst]; try discriminate.
  exfalso. destruct (M w s eq_refl) as (_ & E0 & Ni). tauto.
Qed.

Lemma write_loop_is_safe_witness :
  fst (write_image 40 (frame_of good_flash initial_options)
         (start_of initial_options 16384)) <> Crashed.
Proof.
  refine (write_loop_is_safe 40 (env_of good_flash (file_of two_pages) [])
            initial_options "img" _ _ _ _ _).
  - vm_compute. reflexivity.
  - vm_compute. reflexivity.
  - left. vm_compute. discriminate.
Defined.


(** * The device offset only moves forward *)

Lemma erase_buffer_next (fr : frame) (buffer sz : Z) (st st' : state) :
  erase_buffer fr buffer sz st = Next st' -> exists m, st' = set_mem m st.
Proof.
  unfold erase_buffer, store. destruct (_ && _).
  - destruct (_ && _); [| discriminate]. intros E. injection E as <-. eexists. reflexivity.
  - intros E. injection E as <-. exists (mem st). destruct st. reflexivity.
Qed.

(** The scan of the sub-units of a block moves the offset behind the block
    exactly when a query is answered with "bad" (or the block was already
    found bad), and leaves it alone otherwise. *)
Lemma scan_subunits_skip (fr : frame) (fuel : nat) :
  forall (st st' : state) (offs : Z),
    scan_subunits fuel fr st offs = Next st' ->
    blockstart st' = blockstart st
    /\ exists tr,
        trace st' = trace st ++ tr
        /\ baderaseblock st' = baderaseblock st || existsb answered_bad tr
        /\ mtdoffset st'
           = if baderaseblock st'
             then wrap_ll (blockstart st + ebsize_aligned fr) else mtdoffset st.
Proof.
  induction fuel as [| fuel IH]; intros st st' offs; cbn [scan_subunits];
    [discriminate |].
  destruct (ebsize_aligned fr =? 0); [discriminate |]. cbv zeta.
  set (eb := wrap_int (Z.quot offs (ebsize_aligned fr))).
  set (ret := mtd_is_bad (dev fr) (trace st) eb).
  destruct (ret <? 0); [discriminate |].
  set (st1 := if ret =? 1 then _ else _).
  assert (H1 : blockstart st1 = blockstart st /\ mtdoffset st1 = mtdoffset st
               /\ baderaseblock st1 = baderaseblock st || (ret =? 1)
               /\ exists tr1, trace st1 = trace st ++ tr1
                              /\ existsb answered_bad tr1 = (ret =? 1)).
  { subst st1. destruct (ret =? 1) eqn:Er.
    - destruct (quiet (opts fr)); cbn; rewrite orb_true_r;
        (split; [reflexivity |]); (split; [reflexivity |]); (split; [reflexivity |]).
      + exists [EvIsBad eb ret]. split; [reflexivity |]. cbn. rewrite Er. reflexivity.
      + eexists [EvIsBad eb ret; _]. rewrite <- app_assoc. split; [reflexivity |].
        cbn. rewrite Er. reflexivity.
    - cbn. rewrite orb_false_r. repeat split.
      exists [EvIsBad eb ret]. split; [reflexivity |]. cbn. rewrite Er. reflexivity. }
  clearbody st1. destruct H1 as (Hbs1 & Hm1 & Hb1 & tr1 & Ht1 & Hx1).
  destruct (baderaseblock st1) eqn:Eb1.
  - (* the block is bad: the offset moves *)
    cbn [mtdoffset set_mtdoffset].
    destruct (_ >? _); [discriminate |]. cbn [bind].
    destruct (blockalign (opts fr) =? 0); [discriminate |].
    destruct (_ <? _).
    + intros E. apply IH in E. destruct E as (Hbs & tr & Ht & Hb & Hm).
      cbn [blockstart set_mtdoffset baderaseblock trace mtdoffset] in *.
      rewrite Eb1 in Hb. cbn [orb] in Hb. rewrite Hb in Hm.
      split; [congruence |].
      exists (tr1 ++ tr). rewrite Ht, Ht1, <- app_assoc. split; [reflexivity |].
      rewrite Hb, existsb_app. rewrite Hbs1 in Hm.
      split; [| exact Hm].
      symmetry. rewrite Hx1. destruct (baderaseblock st); [reflexivity |].
      cbn [orb] in Hb1. rewrite <- Hb1. reflexivity.
    + intros E. injection E as <-.
      cbn [blockstart set_mtdoffset baderaseblock trace mtdoffset].
      split; [exact Hbs1 |]. exists tr1. split; [exact Ht1 |].
      rewrite Eb1, Hx1. split; [exact Hb1 |]. rewrite Hbs1. reflexivity.
  - cbn [bind].
    destruct (blockalign (opts fr) =? 0); [discriminate |].
    symmetry in Hb1. apply orb_false_iff in Hb1. destruct Hb1 as (Hb0 & Hr1).
    destruct (_ <? _).
    + intros E. apply IH in E. destruct E as (Hbs & tr & Ht & Hb & Hm).
      rewrite Eb1 in Hb. cbn [orb] in Hb.
      split; [congruence |].
      exists (tr1 ++ tr). rewrite Ht, Ht1, <- app_assoc. split; [reflexivity |].
      rewrite existsb_app, Hx1, Hr1, Hb0. cbn [orb]. split; [exact Hb |].
      rewrite Hm, Hbs1, Hm1. reflexivity.
    + intros E. injection E as <-.
      split; [exact Hbs1 |]. exists tr1. split; [exact Ht1 |].
      rewrite Eb1, Hx1, Hr1, Hb0. split; [reflexivity | exact Hm1].
Qed.

(** A turn of the scan loop. *)
Lemma scan_turn_skip (fr : frame) (fuel : nat) (st st' : state) :
  scan_turn fuel fr st = Next st' ->
  blockstart st' = blockstart_of fr (mtdoffset st)
  /\ exists tr,
      trace st' = trace st ++ tr
      /\ baderaseblock st' = existsb answered_bad tr
      /\ mtdoffset st'
         = if baderaseblock st'
           then wrap_ll (blockstart st' + ebsize_aligned fr) else mtdoffset st.
Proof.
  unfold scan_turn. cbv zeta.
  set (sa := set_blockstart _ st).
  set (r1 := if writebuf sa =? filebuf fr then _ else _).
  assert (H1 : forall s1, r1 = Next s1 ->
                 blockstart s1 = blockstart_of fr (mtdoffset st)
                 /\ mtdoffset s1 = mtdoffset st /\ trace s1 = trace st).
  { subst r1. intros s1. destruct (_ =? _).
    - intros E. injection E as <-. repeat split.
    - destruct (erase_buffer fr _ _ sa) as [s0 | | | | |] eqn:Ee; cbn [bind];
        try discriminate.
      intros E. injection E as <-.
      destruct (erase_buffer_next _ _ _ _ _ Ee) as (m & ->). repeat split. }
  destruct r1 as [s1 | | | | |]; cbn [bind]; try discriminate.
  destruct (H1 s1 eq_refl) as (Hbs1 & Hm1 & Ht1).
  set (sb := set_baderaseblock false s1).
  set (r2 := if quiet (opts fr) then _ else _).
  assert (H2 : forall s2, r2 = Next s2 ->
                 blockstart s2 = blockstart_of fr (mtdoffset st)
                 /\ mtdoffset s2 = mtdoffset st /\ baderaseblock s2 = false
                 /\ exists tr0, trace s2 = trace st ++ tr0
                                /\ existsb answered_bad tr0 = false).
  { subst r2. intros s2. destruct (quiet (opts fr)).
    - intros E. injection E as <-. cbn. repeat split; try assumption.
      exists []. rewrite app_nil_r. split; [exact Ht1 | reflexivity].
    - destruct (_ =? 0); [discriminate |]. intros E. injection E as <-.
      cbn. repeat split; try assumption.
      eexists [_]. rewrite Ht1. split; reflexivity. }
  destruct r2 as [s2 | | | | |]; cbn [bind]; try discriminate.
  destruct (H2 s2 eq_refl) as (Hbs2 & Hm2 & Hb2 & tr0 & Ht2 & Hx2).
  destruct (noskipbad (opts fr)).
  - intros E. injection E as <-. split; [exact Hbs2 |].
    exists tr0. rewrite Hb2, Hx2. repeat split; assumption.
  - intros E. apply scan_subunits_skip in E. destruct E as (Hbs & tr & Ht & Hb & Hm).
    rewrite Hb2 in Hb. cbn [orb] in Hb.
    split; [congruence |].
    exists (tr0 ++ tr). rewrite Ht, Ht2, <- app_assoc. split; [reflexivity |].
    rewrite existsb_app, Hx2. cbn [orb]. split; [exact Hb |].
    rewrite Hm, Hbs, Hm2. reflexivity.
Qed.

Section Moves.

Variable fr : frame.
Variable q : Z.
Hypothesis G : geometry fr q.

(** The scan loop keeps the loop invariant and moves the offset forward
    only, and not behind the device but to its very end. *)
Lemma scanning_inv (st s : state) :
  loop_inv fr st -> mtdoffset st <= size (mtd fr) ->
  scanning fr st s ->
  loop_inv fr s /\ mtdoffset s <= size (mtd fr) /\ mtdoffset st <= mtdoffset s.
Proof.
  intros Hinv Hsz R. induction R as [st | st s s' f R IH Hne Et].
  - split; [exact Hinv |]. split; [exact Hsz | lia].
  - destruct (IH Hinv Hsz) as (Hi & Hs & Hle).
    pose proof (scan_turn_spec fr q G f s Hi Hs Hne) as T. cbv zeta in T.
    rewrite Et in T. cbn [state_of] in T.
    destruct T as (m & b & tr & stb & E & _ & _ & Hm & (Hms & Hi') & _).
    assert (Em : mtdoffset s' = m) by (rewrite E; reflexivity).
    assert (H0 : 0 <= mtdoffset s).
    { destruct Hi as ((? & _) & _). pose proof (geo_start _ _ G). lia. }
    destruct (mask_bounds fr q G (mtdoffset s) H0) as (_ & Mb & _).
    split; [exact Hi' |]. split; lia.
Qed.

(** What a turn of the scan loop does to the offset. *)
Lemma scan_turn_moves (s s1 : state) (f : nat) :
  loop_inv fr s -> mtdoffset s <= size (mtd fr) ->
  scan_turn f fr s = Next s1 ->
  blockstart s1 = blockstart_of fr (mtdoffset s)
  /\ exists tr,
      trace s1 = trace s ++ tr
      /\ baderaseblock s1 = existsb answered_bad tr
      /\ if baderaseblock s1
         then mtdoffset s1 = blockstart s1 + ebsize_aligned fr
              /\ mtdoffset s < mtdoffset s1
         else mtdoffset s1 = mtdoffset s.
Proof.
  intros Hi Hs Et.
  destruct (scan_turn_skip fr f s s1 Et) as (Hbs & tr & Ht & Hb & Hm).
  split; [exact Hbs |]. exists tr. split; [exact Ht |]. split; [exact Hb |].
  assert (H0 : 0 <= mtdoffset s).
  { destruct Hi as ((? & _) & _). pose proof (geo_start _ _ G). lia. }
  destruct (mask_bounds fr q G (mtdoffset s) H0) as (Mb1 & Mb2 & _).
  pose proof (geo_size _ _ G) as Ps. pose proof (geo_int _ _ G) as Pi.
  pose proof (ebsize_aligned_pos fr q G) as Pea.
  destruct (baderaseblock s1); [| exact Hm].
  rewrite wrap_ll_small in Hm by lia. split; [exact Hm | lia].
Qed.

(** What the page write of a turn does to the offset, by the answer of the
    device. *)
Lemma write_moves (fuel : nat) (st st1 st2 st3 : state) :
  loop_inv fr st -> mtdoffset st < size (mtd fr) ->
  scan_blocks fuel fr st = Next st1 ->
  fill_page fr st1 = Next st2 ->
  fill_oob fr st2 = Next st3 ->
  mtdoffset st3 = mtdoffset st1 /\ blockstart st3 = blockstart st1
  /\ match write_answer fr st3 with
     | IoOk =>
         exists st', loop_body fuel fr st = Continue st'
                     /\ mtdoffset st' = mtdoffset st1 + min_io_size (mtd fr)
     | IoErr en =>
         if en =? EIO then
           match loop_body fuel fr st with
           | Continue st' => mtdoffset st' = blockstart st1 + ebsize_aligned fr
           | Closeall st' => mtdoffset st' = mtdoffset st1
           | Fuel _ => Z.of_nat fuel < blockalign (opts fr)
           | _ => False
           end
           /\ (erases_recoverable (dev fr) ->
               (markbad (opts fr) = true -> marks_succeed (dev fr)) ->
               blockalign (opts fr) <= Z.of_nat fuel ->
               exists st', loop_body fuel fr st = Continue st')
         else
           exists st', loop_body fuel fr st = Closeall st'
                       /\ mtdoffset st' = mtdoffset st1
     end.
Proof.
  intros Hinv Hsz Es Ep Eo.
  destruct (scan_blocks_next fr q G fuel st st1 Hinv ltac:(lia) Es) as (Hf & Hle1 & _).
  pose proof (fill_page_step fr q G st1 Hf) as Hp. rewrite Ep in Hp.
  cbn [state_of] in Hp. destruct Hp as (Q1 & Hh).
  pose proof (fill_oob_step fr q G st2 Hh) as Ho. rewrite Eo in Ho.
  cbn [state_of] in Ho. destruct Ho as (Q2 & Hr).
  assert (Hm3 : mtdoffset st3 = mtdoffset st1 /\ blockstart st3 = blockstart st1).
  { destruct Q1 as (? & ? & _); destruct Q2 as (? & ? & _). split; congruence. }
  destruct Hm3 as (Hm3 & Hb3).
  split; [exact Hm3 |]. split; [exact Hb3 |].
  assert (El : loop_body fuel fr st = write_out fuel fr st3).
  { unfold loop_body. rewrite Es. cbn [bind]. rewrite Ep. cbn [bind].
    rewrite Eo. reflexivity. }
  rewrite El, (write_out_spec fr q G fuel st3 Hr ltac:(lia)). cbv zeta.
  fold (write_answer fr st3).
  assert (Hbs : 0 <= blockstart st3 <= 2 ^ 61).
  { destruct Hf as ((Ho1 & _) & _ & (Hbs & _)).
    pose proof (geo_start _ _ G). pose proof (geo_size _ _ G).
    destruct (mask_bounds fr q G (mtdoffset st1) ltac:(lia)) as (Mb1 & _).
    rewrite Hb3, Hbs. lia. }
  destruct (write_answer fr st3) as [| en].
  - eexists. split; [reflexivity |]. cbn [mtdoffset set_writebuf set_mtdoffset]. lia.
  - destruct (en =? EIO); cbn [negb].
    + pose proof (recover_spec fr q G fuel (log (write_event fr st3 (IoErr en)) st3)
                    (wrap_int (Z.quot (mtdoffset st3) (eb_size (mtd fr))))) as R.
      cbv zeta in R. specialize (R Hbs). destruct R as (tr & R).
      split.
      * destruct (recover fuel fr _ _) as [| st' | | st' | | st']; try contradiction.
        -- destruct R as (tre & _ & _ & _ & ->).
           cbn [mtdoffset set_mtdoffset blockstart log set_trace set_writebuf]. lia.
        -- rewrite R. cbn [mtdoffset set_trace set_writebuf log]. exact Hm3.
        -- destruct R as (_ & R). exact R.
      * intros He Hmk Hfuel.
        apply (recover_goes_through fr q G fuel); assumption.
    + eexists. split; [reflexivity |]. cbn [mtdoffset log set_trace]. exact Hm3.
Qed.

End Moves.

(** C8. Throughout a run the device offset never moves backwards: it is
    not below the start offset, no state the loop reaches later has a
    smaller one, and however a turn ends the offset is not below the one the
    turn began with.  Where it moves is decided by the device.  In every
    turn of the scan loop the offset moves behind the aligned block, to
    [blockstart + ebsize_aligned], exactly when a bad block query of that
    turn is answered with "bad", and stays where it is otherwise.  The
    fills do not move it.  A page write that succeeds advances it by one
    page; a page write that fails with [EIO] moves it to [blockstart +
    ebsize_aligned] when the recovery goes through, which it does when no
    erase fails with another error and the block is marked when asked, and
    leaves it where it is when the recovery gives up; after any other
    failure the run ends with the offset unchanged. *)
Theorem mtdoffset_monotone (e : env) (o : options) (img : string)
    (fr : frame) (st0 st : state) (fuel : nat) :
  prelude e o img = inl (fr, st0) ->
  sane_frame fr = true ->
  reaches fuel fr st0 st ->
  loop_cond fr st = true ->
  o_mtdoffset o <= mtdoffset st
  /\ mtdoffset st <= mtdoffset (state_of (loop_body fuel fr st))
  /\ (forall st2, reaches fuel fr st st2 -> mtdoffset st <= mtdoffset st2)
  /\ (forall s s1 f,
        scanning fr st s ->
        blockstart s <> blockstart_of fr (mtdoffset s) ->
        scan_turn f fr s = Next s1 ->
        mtdoffset st <= mtdoffset s
        /\ blockstart s1 = blockstart_of fr (mtdoffset s)
        /\ exists tr,
            trace s1 = trace s ++ tr
            /\ baderaseblock s1 = existsb answered_bad tr
            /\ if baderaseblock s1
               then mtdoffset s1 = blockstart s1 + ebsize_aligned fr
                    /\ mtdoffset s < mtdoffset s1
               else mtdoffset s1 = mtdoffset s)
  /\ (forall st1,
        scan_blocks fuel fr st = Next st1 ->
        mtdoffset st1 = mtdoffset st
        \/ (mtdoffset st < mtdoffset st1 /\ mtdoffset st1 = blockstart st1))
  /\ (forall st1 st2 st3,
        scan_blocks fuel fr st = Next st1 ->
        fill_page fr st1 = Next st2 ->
        fill_oob fr st2 = Next st3 ->
        mtdoffset st3 = mtdoffset st1 /\ blockstart st3 = blockstart st1
        /\ match write_answer fr st3 with
           | IoOk =>
               exists st', loop_body fuel fr st = Continue st'
                           /\ mtdoffset st' = mtdoffset st1 + min_io_size (mtd fr)
           | IoErr en =>
               if en =? EIO then
                 match loop_body fuel fr st with
                 | Continue st' => mtdoffset st' = blockstart st1 + ebsize_aligned fr
                 | Closeall st' => mtdoffset st' = mtdoffset st1
                 | Fuel _ => Z.of_nat fuel < blockalign o
                 | _ => False
                 end
                 /\ (erases_recoverable (dev fr) ->
                     (markbad o = true -> marks_succeed (dev fr)) ->
                     blockalign o <= Z.of_nat fuel ->
                     exists st', loop_body fuel fr st = Continue st')
               else
                 exists st', loop_body fuel fr st = Closeall st'
                             /\ mtdoffset st' = mtdoffset st1
           end)
  /\ (forall st',
        loop_body fuel fr st = Continue st' ->
        mtdoffset st < mtdoffset st'
        /\ exists st1,
            scan_blocks fuel fr st = Next st1
            /\ (mtdoffset st' = mtdoffset st1 + min_io_size (mtd fr)
                \/ mtdoffset st' = blockstart st1 + ebsize_aligned fr)).
Proof.
  intros Hp Hs R Hc.
  destruct (sane_geometry fr Hs) as (q & G).
  destruct (prelude_start e o img fr st0 Hp) as (Eo & _ & _ & _ & H0 & _).
  pose proof (reaches_loop_inv fr q G fuel st0 st H0 R Hc) as Hinv.
  pose proof (loop_cond_size fr st Hc) as Hsz.
  destruct (reaches_inv fr q G fuel st0 st H0 R) as (Hm0 & _).
  subst o.
  split.
  { destruct H0 as (_ & _ & _ & Hst & _). lia. }
  split; [apply (loop_body_step fr q G fuel st Hinv Hsz) |].
  split.
  { intros st2 R2.
    (* the run from [st] on is a run from [st0] on *)
    assert (Hgen : forall a b, reaches fuel fr a b ->
                     (a = st0 \/ loop_inv fr a) -> mtdoffset a <= mtdoffset b
                                                    /\ (b = st0 \/ loop_inv fr b)).
    { intros a b Rab. induction Rab as [a | a b b' Rab IH Hcb Hbb]; intros Ha.
      - split; [lia | exact Ha].
      - destruct (IH Ha) as (Hle & Hb).
        assert (Hib : loop_inv fr b).
        { destruct Hb as [-> | Hb]; [| exact Hb].
          apply (start_loop_inv fr q G); [exact H0 | apply loop_cond_size; exact Hcb]. }
        pose proof (loop_body_step fr q G fuel b Hib (loop_cond_size fr b Hcb)) as S.
        rewrite Hbb in S. destruct S as (_ & Hi' & Hlt).
        split; [lia | right; exact Hi']. }
    apply (Hgen st st2 R2). right. exact Hinv. }
  split.
  { intros s s1 f Sc Hne Et.
    destruct (scanning_inv fr q G st s Hinv ltac:(lia) Sc) as (Hi & Hss & Hle).
    split; [exact Hle |].
    apply (scan_turn_moves fr q G s s1 f Hi Hss Et). }
  split.
  { intros st1 Es. apply (scan_blocks_next fr q G fuel st st1 Hinv ltac:(lia) Es). }
  split.
  { intros st1 st2 st3 Es Ep Eo.
    apply (write_moves fr q G fuel st st1 st2 st3 Hinv Hsz Es Ep Eo). }
  intros st' Eb.
  destruct (loop_body_cases fr q G fuel st Hinv Hsz)
    as [(st1 & st2 & st3 & Es & Ep & Eo' & Ew & Hf & Hh & Hr & Q1 & Q2 & Hle) | (_ & Hx)].
  2:{ rewrite Eb in Hx. contradiction. }
  assert (Hm3 : mtdoffset st3 = mtdoffset st1 /\ blockstart st3 = blockstart st1).
  { destruct Q1 as (? & ? & _); destruct Q2 as (? & ? & _). split; congruence. }
  destruct Hm3 as (Hm3 & Hb3).
  destruct (scan_blocks_next fr q G fuel st st1 Hinv ltac:(lia) Es) as (_ & _ & Hm1 & _).
  pose proof (write_out_step fr q G fuel st3 Hr ltac:(lia)) as W.
  rewrite <- Ew, Eb in W. destruct W as (_ & _ & Hlt & Hw).
  split; [destruct Hm1 as [E1 | [? _]]; lia |].
  exists st1. split; [exact Es |]. rewrite <- Hm3, <- Hb3. exact Hw.
Qed.

Lemma mtdoffset_monotone_witness :
  (* the scan skips the bad block 0 *)
  (exists tr,
      trace skipped_turn = trace (start_of initial_options 16384) ++ tr
      /\ existsb answered_bad tr = true
      /\ mtdoffset skipped_turn = blockstart skipped_turn + ebsize_aligned skipping_frame
      /\ mtdoffset (start_of initial_options 16384) < mtdoffset skipped_turn)
  (* the first write fails with EIO, the recovery moves behind the block *)
  /\ (exists st',
         loop_body 8 skipping_frame (start_of initial_options 16384) = Continue st'
         /\ mtdoffset st'
            = blockstart skipping_scanned + ebsize_aligned skipping_frame)
  (* the next write succeeds and advances by a page *)
  /\ (exists st',
         loop_body 8 skipping_frame skipping_recovered = Continue st'
         /\ mtdoffset st'
            = mtdoffset skipping_rescanned + min_io_size (mtd skipping_frame)).
Proof.
  assert (Hp : prelude (env_of flash_bad_then_failing (file_of two_pages) [])
                 initial_options "img"
               = inl (skipping_frame, start_of initial_options 16384))
    by (vm_compute; reflexivity).
  assert (Hs : sane_frame skipping_frame = true) by (vm_compute; reflexivity).
  assert (Hc : loop_cond skipping_frame (start_of initial_options 16384) = true)
    by (vm_compute; reflexivity).
  assert (Hb : loop_body 8 skipping_frame (start_of initial_options 16384)
               = Continue skipping_recovered) by (vm_compute; reflexivity).
  assert (Hc' : loop_cond skipping_frame skipping_recovered = true)
    by (vm_compute; reflexivity).
  destruct (mtdoffset_monotone _ _ _ _ _ _ 8 Hp Hs (reaches_refl _ _ _) Hc)
    as (_ & _ & _ & Hscan & _ & Hwrite & _).
  destruct (mtdoffset_monotone _ _ _ _ _ _ 8 Hp Hs
              (reaches_step _ _ _ _ _ (reaches_refl _ _ _) Hc Hb) Hc')
    as (_ & _ & _ & _ & _ & Hwrite' & _).
  split; [| split].
  - destruct (Hscan (start_of initial_options 16384) skipped_turn 8%nat
                (scanning_refl _ _))
      as (_ & _ & tr & Ht & Hbad & Hm).
    + vm_compute. discriminate.
    + vm_compute. reflexivity.
    + assert (Eb : baderaseblock skipped_turn = true) by (vm_compute; reflexivity).
      rewrite Eb in Hbad, Hm. exists tr.
      split; [exact Ht |]. split; [symmetry; exact Hbad | exact Hm].
  - destruct (Hwrite skipping_scanned skipping_filled skipping_filled)
      as (_ & _ & Hw).
    + vm_compute. reflexivity.
    + vm_compute. reflexivity.
    + vm_compute. reflexivity.
    + assert (Ea : write_answer skipping_frame skipping_filled = IoErr EIO)
        by (vm_compute; reflexivity).
      rewrite Ea in Hw. change (EIO =? EIO) with true in Hw. cbv iota in Hw.
      destruct Hw as (Hm & Hex).
      destruct Hex as (st' & E).
      * intros tr eb. left. reflexivity.
      * intros _ tr eb. reflexivity.
      * vm_compute. discriminate.
      * rewrite E in Hm. exists st'. split; [exact E | exact Hm].
  - destruct (Hwrite' skipping_rescanned skipping_rescanned skipping_rescanned)
      as (_ & _ & Hw).
    + vm_compute. reflexivity.
    + vm_compute. reflexivity.
    + vm_compute. reflexivity.
    + assert (Ea : write_answer skipping_frame skipping_rescanned = IoOk)
        by (vm_compute; reflexivity).
      rewrite Ea in Hw. exact Hw.
Defined.
